(** * Space Invaders: the simulation core of [main.py]

    A shallow embedding of the game state and of the per-frame functions of
    [main.py] ([Bullet], [Enemy], [Player], [SpaceInvaders]), followed by the
    properties of the simulation that the specification states.

    Modelling conventions.
    - Python integers are [Z]. [pygame.Rect] is a record of four integers;
      its derived attributes ([left], [right], [top], [bottom], [centerx]) and
      [colliderect] follow pygame's definitions. pygame stores the four
      fields as C ints; they are taken here as unbounded integers, so the
      [TypeError] that pygame raises when a value outside that range is
      stored in a rectangle is not modelled: what is proved is about the code
      as long as the coordinates involved fit a C int ([fits_c_int]).
    - Python floats are IEEE-754 binary64 values, given by the standard
      library's [spec_float] with [prec = 53] and [emax = 1024]; the only
      float computation of the program is
      [math.ceil(enemy.speed * ENEMY_DROP_SPEED_MULTIPLIER)].
    - A Python exception escaping a function is [None]; the one that is
      modelled is the [OverflowError] of that float computation.
    - Objects mutated in place ([self], the player, the bullets and enemies of
      the two lists) become explicit state passing: every method takes the
      game and returns the new game.
    - Rendering, the frame clock and the pygame set-up calls do not touch the
      game state and are left out. *)

From Stdlib Require Import ZArith List Bool Lia.
From Stdlib Require Import Floats.SpecFloat.
Import ListNotations.
Local Open Scope Z_scope.

(** ** Game configuration constants (lines 15-33) *)

Definition WIDTH : Z := 800.
Definition HEIGHT : Z := 600.
Definition FPS : Z := 60.
Definition PLAYER_SPEED : Z := 5.
Definition BULLET_SPEED : Z := 8.
Definition ENEMY_ROWS : Z := 4.
Definition ENEMY_COLS : Z := 8.
Definition ENEMY_HORIZONTAL_PADDING : Z := 60.
Definition ENEMY_VERTICAL_PADDING : Z := 50.
Definition ENEMY_HORIZONTAL_SPACING : Z := 60.
Definition ENEMY_VERTICAL_SPACING : Z := 50.
Definition ENEMY_VERTICAL_STEP : Z := 20.
Definition ENEMY_SPEED : Z := 1.
Definition PLAYER_LIVES : Z := 3.
Definition ENEMY_WIDTH : Z := 40.
Definition ENEMY_HEIGHT : Z := 30.

(** ** Exceptions as [option] *)

Definition bind {A B : Type} (m : option A) (k : A -> option B) : option B :=
  match m with
  | Some a => k a
  | None => None
  end.

Notation "x <- m ;; k" := (bind m (fun x => k))
  (at level 61, m at next level, right associativity).

(** [[f(x) for x in l]] where [f] may raise. *)
Fixpoint mapM {A B : Type} (f : A -> option B) (l : list A) : option (list B) :=
  match l with
  | [] => Some []
  | a :: l' => b <- f a ;; bs <- mapM f l' ;; Some (b :: bs)
  end.

(** ** Python floats *)

Module PyFloat.

Definition prec : Z := 53.
Definition emax : Z := 1024.

(** Conversion of an [int] operand to [float] ([PyLong_AsDouble]): the
    nearest binary64 value, ties to even; [OverflowError] when the integer
    is beyond the largest finite float. *)
Definition of_int (n : Z) : option spec_float :=
  match binary_normalize prec emax n 0 false with
  | S754_infinity _ => None
  | f => Some f
  end.

(** [a * b] on floats: an overflow gives an infinity, no exception. *)
Definition mul (a b : spec_float) : spec_float := SFmul prec emax a b.

(** [math.ceil]: the least integer not below the argument; [OverflowError]
    on an infinity and [ValueError] on a NaN. *)
Definition ceil (f : spec_float) : option Z :=
  match f with
  | S754_zero _ => Some 0
  | S754_finite s m (Zneg k) =>
      if s then Some (- (Zpos m / 2 ^ Zpos k))
      else Some (- ((- Zpos m) / 2 ^ Zpos k))
  | S754_finite s m e => Some (cond_Zopp s (Zpos m * 2 ^ e))
  | S754_infinity _ => None
  | S754_nan => None
  end.

(** The literal [1.1]: the binary64 value nearest to 11/10, which is
    4953959590107546 * 2^-52. *)
Definition lit_1_1 : spec_float := S754_finite false 4953959590107546 (-52).

End PyFloat.

Definition ENEMY_DROP_SPEED_MULTIPLIER : spec_float := PyFloat.lit_1_1.

(** ** [pygame.Rect] *)

Module Rect.

Record t : Set := mk { x : Z; y : Z; width : Z; height : Z }.

Definition left (r : t) : Z := x r.
Definition top (r : t) : Z := y r.
Definition right (r : t) : Z := x r + width r.
Definition bottom (r : t) : Z := y r + height r.
(** pygame computes [x + (w >> 1)]: the half of the width is rounded down. *)
Definition centerx (r : t) : Z := x r + width r / 2.

Definition set_x (v : Z) (r : t) : t := mk v (y r) (width r) (height r).
Definition set_y (v : Z) (r : t) : t := mk (x r) v (width r) (height r).
(** [r.centerx = v] stores [x = v - (w >> 1)]. *)
Definition set_centerx (v : Z) (r : t) : t := set_x (v - width r / 2) r.

(** [a.colliderect(b)]: a rectangle of zero width or height collides with
    nothing; otherwise the open intervals must intersect on both axes, so
    rectangles that only touch along an edge do not collide. *)
Definition colliderect (a b : t) : bool :=
  if (width a =? 0) || (height a =? 0) || (width b =? 0) || (height b =? 0)
  then false
  else (Z.min (x a) (x a + width a) <? Z.max (x b) (x b + width b))
       && (Z.min (y a) (y a + height a) <? Z.max (y b) (y b + height b))
       && (Z.max (x a) (x a + width a) >? Z.min (x b) (x b + width b))
       && (Z.max (y a) (y a + height a) >? Z.min (y b) (y b + height b)).

(** [a == b] on rectangles. *)
Definition eqb (a b : t) : bool :=
  (x a =? x b) && (y a =? y b) && (width a =? width b) && (height a =? height b).

End Rect.

(** ** [class Bullet] (lines 36-48) *)

Module Bullet.

Record t : Set := mk { rect : Rect.t; speed : Z; active : bool }.

(** [Bullet.update] (lines 42-45). *)
Definition update (b : t) : t :=
  let r := Rect.set_y (Rect.y (rect b) - speed b) (rect b) in
  mk r (speed b) (if Rect.bottom r <? 0 then false else active b).

(** [bullet.active = False]. *)
Definition deactivate (b : t) : t := mk (rect b) (speed b) false.

End Bullet.

(** ** [class Enemy] (lines 51-57) *)

Module Enemy.

Record t : Set := mk { rect : Rect.t; speed : Z }.

(** The [__eq__] that [@dataclass] generates: field-wise equality. *)
Definition eqb (a b : t) : bool :=
  Rect.eqb (rect a) (rect b) && (speed a =? speed b).

End Enemy.

(** ** [class Player] (lines 60-84) *)

Module Player.

Record t : Set := mk { rect : Rect.t; lives : Z; cooldown : Z }.

(** [Player.__init__] (lines 61-64). *)
Definition __init__ : t :=
  mk (Rect.mk (WIDTH / 2 - 25) (HEIGHT - 60) 50 30) PLAYER_LIVES 0.

(** [Player.move] (lines 66-68). The game calls it with [dx] equal to 1 or
    -1; line 67 stores the sum in the rectangle, which takes a sum that fits a
    C int. *)
Definition move (dx : Z) (p : t) : t :=
  let r1 := Rect.set_x (Rect.x (rect p) + dx * PLAYER_SPEED) (rect p) in
  let r2 := Rect.set_x (Z.max 0 (Z.min (WIDTH - Rect.width r1) (Rect.x r1))) r1 in
  mk r2 (lives p) (cooldown p).

(** [Player.update] (lines 70-72). *)
Definition update (p : t) : t :=
  if cooldown p >? 0 then mk (rect p) (lives p) (cooldown p - 1) else p.

(** [Player.shoot] (lines 74-81): the returned bullet, if any, and the
    player afterwards. *)
Definition shoot (p : t) : option Bullet.t * t :=
  if cooldown p =? 0 then
    let bullet_rect :=
      Rect.mk (Rect.centerx (rect p) - 3) (Rect.top (rect p) - 10) 6 12 in
    (Some (Bullet.mk bullet_rect BULLET_SPEED true),
     mk (rect p) (lives p) (FPS / 4))
  else (None, p).

End Player.

(** ** Input of one frame

    What [pygame.event.get()] and [pygame.key.get_pressed()] return in one
    call of [_handle_events]. *)

Inductive Key : Set :=
  K_LEFT | K_RIGHT | K_a | K_d | K_SPACE | K_ESCAPE | K_RETURN | K_other.

Inductive Event : Set :=
  | QUIT
  | KEYDOWN (key : Key)
  | OTHER_EVENT.

Record Input : Set := mkInput { events : list Event; pressed : Key -> bool }.

(** ** Python list helpers *)

(** [range(n)]. *)
Definition range (n : Z) : list Z := map Z.of_nat (seq 0 (Z.to_nat n)).

(** [min(xs, default=d)] and [max(xs, default=d)]. *)
Definition py_min (xs : list Z) (default : Z) : Z :=
  match xs with
  | [] => default
  | v :: vs => fold_left Z.min vs v
  end.

Definition py_max (xs : list Z) (default : Z) : Z :=
  match xs with
  | [] => default
  | v :: vs => fold_left Z.max vs v
  end.

(** [l.remove(e)]: drops the first element equal to [e]. Python raises
    [ValueError] when there is none; the program only removes an element it
    has just read from the same list, so that case is left as the identity. *)
Fixpoint list_remove (e : Enemy.t) (l : list Enemy.t) : list Enemy.t :=
  match l with
  | [] => []
  | a :: l' => if Enemy.eqb a e then l' else a :: list_remove e l'
  end.

(** [int(b)] for a boolean. *)
Definition int_of_bool (b : bool) : Z := if b then 1 else 0.

(** ** [class SpaceInvaders] (lines 87-262) *)

Module SpaceInvaders.

Record t : Set := mk {
  player : Player.t;
  bullets : list Bullet.t;
  enemies : list Enemy.t;
  enemy_direction : Z;
  level : Z;
  score : Z;
  running : bool
}.

Definition set_player (p : Player.t) (g : t) : t :=
  mk p (bullets g) (enemies g) (enemy_direction g) (level g) (score g) (running g).
Definition set_bullets (bs : list Bullet.t) (g : t) : t :=
  mk (player g) bs (enemies g) (enemy_direction g) (level g) (score g) (running g).
Definition set_enemies (es : list Enemy.t) (g : t) : t :=
  mk (player g) (bullets g) es (enemy_direction g) (level g) (score g) (running g).
Definition set_enemy_direction (d : Z) (g : t) : t :=
  mk (player g) (bullets g) (enemies g) d (level g) (score g) (running g).
Definition set_level (l : Z) (g : t) : t :=
  mk (player g) (bullets g) (enemies g) (enemy_direction g) l (score g) (running g).
Definition set_score (s : Z) (g : t) : t :=
  mk (player g) (bullets g) (enemies g) (enemy_direction g) (level g) s (running g).
Definition set_running (b : bool) (g : t) : t :=
  mk (player g) (bullets g) (enemies g) (enemy_direction g) (level g) (score g) b.

(** The left edge of the grid (lines 108-109). *)
Definition start_x : Z :=
  let total_width := (ENEMY_COLS - 1) * ENEMY_HORIZONTAL_SPACING + ENEMY_WIDTH in
  Z.max ENEMY_HORIZONTAL_PADDING ((WIDTH - total_width) / 2).

(** The enemy built at [row], [col] (lines 112-115). *)
Definition spawn_enemy (lvl row col : Z) : Enemy.t :=
  let x := start_x + col * ENEMY_HORIZONTAL_SPACING in
  let y := ENEMY_VERTICAL_PADDING + row * ENEMY_VERTICAL_SPACING in
  Enemy.mk (Rect.mk x y ENEMY_WIDTH ENEMY_HEIGHT) (ENEMY_SPEED + lvl - 1).

(** The two nested loops (lines 110-115), appending row by row. *)
Definition spawn_grid (lvl : Z) : list Enemy.t :=
  flat_map (fun row => map (fun col => spawn_enemy lvl row col) (range ENEMY_COLS))
           (range ENEMY_ROWS).

(** [_spawn_enemies] (lines 105-115). *)
Definition _spawn_enemies (g : t) : t :=
  set_enemies (spawn_grid (level g)) (set_enemy_direction 1 (set_enemies [] g)).

(** [SpaceInvaders.__init__] (lines 88-103). *)
Definition __init__ : t :=
  _spawn_enemies (mk Player.__init__ [] [] 1 1 0 true).

(** One event of the loop of lines 125-129. *)
Definition handle_event (g : t) (ev : Event) : t :=
  match ev with
  | QUIT => set_running false g
  | KEYDOWN K_ESCAPE => set_running false g
  | _ => g
  end.

(** [_handle_events] (lines 124-141). *)
Definition _handle_events (inp : Input) (g : t) : t :=
  let g := fold_left handle_event (events inp) g in
  let keys := pressed inp in
  let move_left := keys K_LEFT || keys K_a in
  let move_right := keys K_RIGHT || keys K_d in
  let dx := int_of_bool move_right - int_of_bool move_left in
  let g := if dx =? 0 then g else set_player (Player.move dx (player g)) g in
  if keys K_SPACE then
    match Player.shoot (player g) with
    | (Some bullet, p) => set_bullets (bullets g ++ [bullet]) (set_player p g)
    | (None, p) => set_player p g
    end
  else g.

(** [_game_over] (lines 199-201). [_display_message] only polls events and
    draws until the player acknowledges; of the game state it can only set
    [running] to [False], which [_game_over] does anyway. *)
Definition _game_over (g : t) : t := set_running false g.

(** [_lose_life] (lines 189-197). *)
Definition _lose_life (g : t) : t :=
  let p := player g in
  let p := Player.mk (Player.rect p) (Player.lives p - 1) (Player.cooldown p) in
  let g := set_player p g in
  if Player.lives p <=? 0 then _game_over g
  else
    let p := Player.mk (Rect.set_centerx (WIDTH / 2) (Player.rect p))
                       (Player.lives p) (FPS / 2) in
    _spawn_enemies (set_bullets [] (set_player p g)).

(** The inner loop of lines 174-179 for one bullet: the first enemy of
    the snapshot [list(self.enemies)] that the bullet overlaps. *)
Definition first_hit (b : Bullet.t) (es : list Enemy.t) : option Enemy.t :=
  find (fun e => Rect.colliderect (Bullet.rect b) (Enemy.rect e)) es.

(** The loop over [list(self.bullets)] (lines 173-179): the bullets (same
    objects, some deactivated), the enemies left and the score. *)
Fixpoint bullets_vs_enemies (bs : list Bullet.t) (es : list Enemy.t) (sc : Z)
  : list Bullet.t * list Enemy.t * Z :=
  match bs with
  | [] => ([], es, sc)
  | b :: bs' =>
      match first_hit b es with
      | Some e =>
          let '(bs'', es', sc') := bullets_vs_enemies bs' (list_remove e es) (sc + 10) in
          (Bullet.deactivate b :: bs'', es', sc')
      | None =>
          let '(bs'', es', sc') := bullets_vs_enemies bs' es sc in
          (b :: bs'', es', sc')
      end
  end.

(** The loop over [list(self.enemies)] (lines 181-187). *)
Fixpoint enemies_vs_player (es : list Enemy.t) (g : t) : t :=
  match es with
  | [] => g
  | e :: es' =>
      if Rect.colliderect (Enemy.rect e) (Player.rect (player g)) then _lose_life g
      else if Rect.bottom (Enemy.rect e) >=? HEIGHT - 80 then _lose_life g
      else enemies_vs_player es' g
  end.

(** [_handle_collisions] (lines 172-187). *)
Definition _handle_collisions (g : t) : t :=
  let '(bs, es, sc) := bullets_vs_enemies (bullets g) (enemies g) (score g) in
  let g := set_score sc (set_enemies es (set_bullets bs g)) in
  enemies_vs_player (enemies g) g.

(** [_update], lines 144-147: the player's cooldown, the bullets' moves
    and the filter on [active]. *)
Definition update_entities (g : t) : t :=
  set_bullets (filter Bullet.active (map Bullet.update (bullets g)))
              (set_player (Player.update (player g)) g).

(** [_update], lines 149-151. *)
Definition next_wave_if_cleared (g : t) : t :=
  match enemies g with
  | [] => _spawn_enemies (set_level (level g + 1) g)
  | _ :: _ => g
  end.

(** [_update], lines 154-155. *)
Definition leftmost (g : t) : Z :=
  py_min (map (fun e => Rect.left (Enemy.rect e)) (enemies g)) 0.
Definition rightmost (g : t) : Z :=
  py_max (map (fun e => Rect.right (Enemy.rect e)) (enemies g)) WIDTH.

(** [_update], lines 153-161: [move_down] and the direction after the
    test. *)
Definition turn (g : t) : bool * Z :=
  if (leftmost g <=? 10) && (enemy_direction g <? 0) then (true, 1)
  else if (rightmost g >=? WIDTH - 10) && (enemy_direction g >? 0) then (true, -1)
  else (false, enemy_direction g).

(** The body of the loop of lines 163-164. As in [Player.move], the sum is
    stored in the rectangle and is taken here as an unbounded integer. *)
Definition move_enemy (direction : Z) (e : Enemy.t) : Enemy.t :=
  Enemy.mk (Rect.set_x (Rect.x (Enemy.rect e) + Enemy.speed e * direction) (Enemy.rect e))
           (Enemy.speed e).

(** [math.ceil(speed * ENEMY_DROP_SPEED_MULTIPLIER)] (line 168). *)
Definition drop_speed (speed : Z) : option Z :=
  f <- PyFloat.of_int speed ;;
  PyFloat.ceil (PyFloat.mul f ENEMY_DROP_SPEED_MULTIPLIER).

(** The body of the loop of lines 166-168. *)
Definition drop_enemy (e : Enemy.t) : option Enemy.t :=
  s <- drop_speed (Enemy.speed e) ;;
  Some (Enemy.mk (Rect.set_y (Rect.y (Enemy.rect e) + ENEMY_VERTICAL_STEP) (Enemy.rect e)) s).

(** [_update], lines 153-168: the formation's advance. *)
Definition advance (g : t) : option t :=
  let '(move_down, direction) := turn g in
  let moved := map (move_enemy direction) (enemies g) in
  es <- (if move_down then mapM drop_enemy moved else Some moved) ;;
  Some (set_enemies es (set_enemy_direction direction g)).

(** [_update] (lines 143-170). *)
Definition _update (g : t) : option t :=
  g <- advance (next_wave_if_cleared (update_entities g)) ;;
  Some (_handle_collisions g).

(** One iteration of the loop of [run] (lines 119-122), without the clock
    and the drawing. *)
Definition tick (inp : Input) (g : t) : option t :=
  _update (_handle_events inp g).

(** [run] (lines 117-122) on the inputs of the coming frames: it stops
    when [running] is false (or when the inputs given are used up). *)
Fixpoint run (inputs : list Input) (g : t) : option t :=
  match inputs with
  | [] => Some g
  | inp :: rest =>
      if running g then g' <- tick inp g ;; run rest g' else Some g
  end.

End SpaceInvaders.

Import SpaceInvaders.

Definition idle : Input := mkInput [] (fun _ => false).
Definition fire : Input := mkInput [] (fun k => match k with K_SPACE => true | _ => false end).

(** * Specification-level definitions *)

(** The states at the top of the loop of [run]: the one [__init__] builds,
    and every state a frame leads to from a state in which [running] holds. *)
Inductive reachable : SpaceInvaders.t -> Prop :=
  | reachable_init : reachable __init__
  | reachable_tick (g g' : SpaceInvaders.t) (inp : Input) :
      reachable g -> running g = true -> tick inp g = Some g' -> reachable g'.

(** The player's rectangle keeps the row, width and height that
    [Player.__init__] gives it. *)
Definition player_in_place (p : Player.t) : Prop :=
  Rect.y (Player.rect p) = HEIGHT - 60
  /\ Rect.width (Player.rect p) = 50
  /\ Rect.height (Player.rect p) = 30.

(** What holds of every reachable state. *)
Definition invariant (g : SpaceInvaders.t) : Prop :=
  player_in_place (player g)
  /\ 0 <= Player.lives (player g)
  /\ (running g = true -> 1 <= Player.lives (player g))
  /\ 0 <= Player.cooldown (player g)
  /\ 1 <= level g
  /\ 0 <= score g
  /\ Forall (fun e => 1 <= Enemy.speed e) (enemies g).

(** Speeds for which the float computation of a drop cannot overflow. *)
Definition speeds_in_range (es : list Enemy.t) : Prop :=
  Forall (fun e => 0 <= Enemy.speed e < 2 ^ 1000) es.

(** An enemy that costs a life (lines 182 and 185). *)
Definition threatens (p : Player.t) (e : Enemy.t) : bool :=
  Rect.colliderect (Enemy.rect e) (Player.rect p)
  || (Rect.bottom (Enemy.rect e) >=? HEIGHT - 80).

(** Projections of the records applied to constructors and setters. *)
Ltac fields :=
  cbn [player bullets enemies enemy_direction level score running
       set_player set_bullets set_enemies set_enemy_direction set_level
       set_score set_running
       Player.rect Player.lives Player.cooldown
       Bullet.rect Bullet.speed Bullet.active
       Enemy.rect Enemy.speed
       Rect.x Rect.y Rect.width Rect.height Rect.set_x Rect.set_y] in *.

(** Inputs of a frame with one key held. *)
Definition go_left : Input :=
  mkInput [] (fun k => match k with K_LEFT => true | _ => false end).
Definition go_right : Input :=
  mkInput [] (fun k => match k with K_RIGHT => true | _ => false end).

(** The inputs of 550 frames of play, as runs of equal frames: the player
    shoots the whole first wave without losing a life. *)
Definition clearing_inputs : list Input :=
  flat_map (fun '(n, inp) => repeat inp n)
  [
    (1%nat, fire); (14%nat, idle); (1%nat, fire); (14%nat, idle); (1%nat, fire);
    (14%nat, idle); (1%nat, fire); (1%nat, go_right); (13%nat, idle); (1%nat, fire);
    (14%nat, idle); (1%nat, fire); (14%nat, idle); (1%nat, fire); (14%nat, idle);
    (1%nat, fire); (14%nat, idle); (1%nat, fire); (8%nat, go_right); (6%nat, idle);
    (1%nat, fire); (14%nat, idle); (1%nat, fire); (14%nat, idle); (1%nat, fire);
    (14%nat, idle); (1%nat, fire); (14%nat, idle); (1%nat, fire); (14%nat, idle);
    (1%nat, fire); (14%nat, idle); (1%nat, fire); (14%nat, idle); (1%nat, fire);
    (14%nat, idle); (1%nat, fire); (14%nat, idle); (1%nat, fire); (14%nat, idle);
    (1%nat, fire); (14%nat, idle); (1%nat, fire); (14%nat, idle); (1%nat, fire);
    (14%nat, idle); (1%nat, fire); (6%nat, go_right); (8%nat, idle); (1%nat, fire);
    (23%nat, go_left); (1%nat, fire); (14%nat, idle); (1%nat, fire); (14%nat, idle);
    (1%nat, fire); (20%nat, go_right); (1%nat, fire); (14%nat, idle); (1%nat, fire);
    (14%nat, idle); (1%nat, fire); (14%nat, idle); (1%nat, fire); (42%nat, go_left);
    (1%nat, fire); (23%nat, go_left); (18%nat, go_right)
  ].

(** The state those 550 frames lead to: no enemy is left, and the bullet
    that hit the last one is still in the bullet list. *)
Definition cleared_state : SpaceInvaders.t :=
  SpaceInvaders.mk
    (Player.mk (Rect.mk 200 540 50 30) 3 0)
    [Bullet.mk (Rect.mk 247 194 6 12) 8 false]
    [] 1 1 320 true.

(** The first wave after [n] frames of undisturbed march to the right. *)
Definition marched (n : Z) : list Enemy.t :=
  flat_map (fun row =>
              map (fun col => Enemy.mk (Rect.mk (170 + n + col * 60) (50 + row * 50) 40 30) 1)
                  (range 8))
           (range 4).

(** The state after 160 frames without input: the rightmost column's right
    edge is at [WIDTH - 10], so the next frame is a drop. *)
Definition edge_state : SpaceInvaders.t :=
  SpaceInvaders.mk Player.__init__ [] (marched 160) 1 1 0 true.

(** The state 37 frames after a shot fired in the first frame: the bullet is
    four pixels below the bottom row of enemies. *)
Definition before_hit_state : SpaceInvaders.t :=
  SpaceInvaders.mk Player.__init__
    [Bullet.mk (Rect.mk 397 234 6 12) 8 true]
    (marched 37) 1 1 0 true.

(** ** The end-of-game screen *)

(** One event of the loop of lines 209-218 of [_display_message]: the
    local [waiting] and the game. *)
Definition message_event (st : bool * SpaceInvaders.t) (ev : Event)
  : bool * SpaceInvaders.t :=
  match ev with
  | QUIT => (false, set_running false (snd st))
  | KEYDOWN K_RETURN => (false, snd st)
  | KEYDOWN K_SPACE => (false, snd st)
  | KEYDOWN K_ESCAPE => (false, snd st)
  | _ => st
  end.

(** [_display_message] (lines 203-243) on the lists of events that
    [pygame.event.get()] returns in the successive iterations of its loop:
    the game when the loop ends and the lists not yet read. The drawing and
    the clock leave the game alone. [None] when the lists given are used up
    while the loop still waits. *)
Fixpoint _display_message (batches : list (list Event)) (g : SpaceInvaders.t)
  : option (SpaceInvaders.t * list (list Event)) :=
  match batches with
  | [] => None
  | evs :: rest =>
      let st := fold_left message_event evs (true, g) in
      if fst st then _display_message rest (snd st) else Some (snd st, rest)
  end.

(** [_game_over] (lines 199-201) with the message screen written out. *)
Definition game_over_screen (batches : list (list Event)) (g : SpaceInvaders.t)
  : option (SpaceInvaders.t * list (list Event)) :=
  match _display_message batches g with
  | Some (g', rest) => Some (set_running false g', rest)
  | None => None
  end.

(** An event that ends the message screen. *)
Definition acknowledges (ev : Event) : bool :=
  match ev with
  | QUIT | KEYDOWN K_RETURN | KEYDOWN K_SPACE | KEYDOWN K_ESCAPE => true
  | _ => false
  end.

(** An event that ends [run] (lines 126-129). *)
Definition quits (ev : Event) : bool :=
  match ev with
  | QUIT | KEYDOWN K_ESCAPE => true
  | _ => false
  end.

(** The signed direction of line 134. *)
Definition direction_of (inp : Input) : Z :=
  int_of_bool (pressed inp K_RIGHT || pressed inp K_d)
  - int_of_bool (pressed inp K_LEFT || pressed inp K_a).

(** An enemy of the grid, displaced by [(dx, dy)], with speed [s]. *)
Definition in_formation (dx dy s : Z) (e : Enemy.t) : Prop :=
  exists row col,
    0 <= row < ENEMY_ROWS /\ 0 <= col < ENEMY_COLS
    /\ e = Enemy.mk (Rect.mk (start_x + col * ENEMY_HORIZONTAL_SPACING + dx)
                             (ENEMY_VERTICAL_PADDING + row * ENEMY_VERTICAL_SPACING + dy)
                             ENEMY_WIDTH ENEMY_HEIGHT)
                    s.

(** Bounds that every reachable state keeps, besides [invariant]. *)
Definition bounds (g : SpaceInvaders.t) : Prop :=
  0 <= Rect.left (Player.rect (player g))
  /\ Rect.right (Player.rect (player g)) <= WIDTH
  /\ Player.lives (player g) <= PLAYER_LIVES
  /\ Player.cooldown (player g) <= FPS / 2
  /\ (enemy_direction g = 1 \/ enemy_direction g = -1)
  /\ (10 | score g)
  /\ (length (enemies g) <= Z.to_nat (ENEMY_ROWS * ENEMY_COLS))%nat.

(** The bullets as [Player.shoot] makes them and [Bullet.update] moves them:
    6 x 12, speed [BULLET_SPEED], within the playfield's width, not yet
    wholly above the top, and at most [8 * cooldown] below the row a bullet
    reaches 15 frames after it is shot. *)
Definition bullet_ok (cooldown : Z) (b : Bullet.t) : Prop :=
  Rect.width (Bullet.rect b) = 6 /\ Rect.height (Bullet.rect b) = 12
  /\ Bullet.speed b = BULLET_SPEED
  /\ 0 <= Rect.left (Bullet.rect b) /\ Rect.right (Bullet.rect b) <= WIDTH
  /\ 0 <= Rect.bottom (Bullet.rect b)
  /\ Rect.y (Bullet.rect b) <= 410 + 8 * cooldown.

(** Bullets in the order they were shot, each at least 120 pixels above the
    next. *)
Definition spaced (bs : list Bullet.t) : Prop :=
  ForallOrdPairs (fun a b => Rect.y (Bullet.rect a) + 120 <= Rect.y (Bullet.rect b)) bs.

Definition bullets_ok (g : SpaceInvaders.t) : Prop :=
  Forall (bullet_ok (Player.cooldown (player g))) (bullets g)
  /\ spaced (bullets g)
  /\ (FPS / 4 <= Player.cooldown (player g) -> bullets g = []).

(** The state after 75 frames of moving left and 66 frames with the space
    key held: the player is at the left wall and five bullets are in flight. *)
Definition five_bullets_state : SpaceInvaders.t :=
  SpaceInvaders.mk
    (Player.mk (Rect.mk 0 540 50 30) 3 9)
    [Bullet.mk (Rect.mk 22 2 6 12) 8 true;
     Bullet.mk (Rect.mk 22 122 6 12) 8 true;
     Bullet.mk (Rect.mk 22 242 6 12) 8 true;
     Bullet.mk (Rect.mk 22 362 6 12) 8 true;
     Bullet.mk (Rect.mk 22 482 6 12) 8 true]
    (marched 141) 1 1 0 true.

(** The grid of enemies with its top left corner at [(x0, y0)], every enemy
    of speed [s]. *)
Definition wave_at (x0 y0 s : Z) : list Enemy.t :=
  flat_map (fun row =>
              map (fun col => Enemy.mk (Rect.mk (x0 + col * 60) (y0 + row * 50) 40 30) s)
                  (range 8))
           (range 4).

(** The state after 2711 frames without input: two lives are lost, the
    formation heads right with its right edge beyond [WIDTH - 10], and its
    bottom row is one drop above the danger line. *)
Definition last_life_state : SpaceInvaders.t :=
  SpaceInvaders.mk (Player.mk (Rect.mk 375 540 50 30) 1 0) []
                   (wave_at 345 330 19) 1 1 0 true.

(** The state one frame later: the formation has dropped, the bottom row is
    below the danger line and the last life is gone. *)
Definition game_over_state : SpaceInvaders.t :=
  SpaceInvaders.mk (Player.mk (Rect.mk 375 540 50 30) 0 0) []
                   (wave_at 326 350 21) (-1) 1 0 false.

(** The range of a C [int], in which pygame keeps the four fields of a
    [Rect]: a value outside it cannot be stored in a rectangle. *)
Definition fits_c_int (v : Z) : Prop := - 2 ^ 31 <= v < 2 ^ 31.

(** * Properties of the float computation *)

Section FloatFacts.

Local Abbreviation round_aux := (binary_round_aux PyFloat.prec PyFloat.emax).

Lemma pow2_pos (k : Z) : 0 <= k -> 0 < 2 ^ k.
Proof. intros; apply Z.pow_pos_nonneg; lia. Qed.

Lemma pow2_succ (k : Z) : 0 <= k -> 2 ^ (k + 1) = 2 * 2 ^ k.
Proof. intros; rewrite Z.pow_add_r by lia; lia. Qed.

(** [digits2_pos p] is the bit length of [p]. *)
Lemma digits2_pos_bounds (p : positive) :
  2 ^ (Zpos (digits2_pos p) - 1) <= Zpos p < 2 ^ Zpos (digits2_pos p).
Proof.
  induction p as [p IH | p IH | ]; cbn [digits2_pos].
  - rewrite Pos2Z.inj_succ.
    replace (Z.succ (Zpos (digits2_pos p)) - 1) with (Zpos (digits2_pos p) - 1 + 1) by lia.
    replace (Z.succ (Zpos (digits2_pos p))) with (Zpos (digits2_pos p) + 1) by lia.
    rewrite !pow2_succ by lia. lia.
  - rewrite Pos2Z.inj_succ.
    replace (Z.succ (Zpos (digits2_pos p)) - 1) with (Zpos (digits2_pos p) - 1 + 1) by lia.
    replace (Z.succ (Zpos (digits2_pos p))) with (Zpos (digits2_pos p) + 1) by lia.
    rewrite !pow2_succ by lia. lia.
  - cbn. lia.
Qed.

(** The bit length is determined by the power-of-two bracket. *)
Lemma digits2_pos_unique (p : positive) (k : Z) :
  2 ^ (k - 1) <= Zpos p < 2 ^ k -> Zpos (digits2_pos p) = k.
Proof.
  intros [Hlo Hhi].
  pose proof (digits2_pos_bounds p) as [Dlo Dhi].
  set (d := Zpos (digits2_pos p)) in *.
  assert (0 < d) by (subst d; lia).
  assert (0 < k).
  { destruct (Z_lt_le_dec 0 k) as [|Hk]; [assumption|].
    assert (2 ^ k <= 2 ^ 0) by (destruct (Z_lt_le_dec k 0);
      [rewrite Z.pow_neg_r by lia; cbn; lia | apply Z.pow_le_mono_r; lia]).
    cbn in *; lia. }
  destruct (Z_lt_le_dec d k) as [Hlt|Hge].
  - assert (2 ^ d <= 2 ^ (k - 1)) by (apply Z.pow_le_mono_r; lia). lia.
  - destruct (Z_lt_le_dec k d) as [Hlt|Hle]; [|lia].
    assert (2 ^ k <= 2 ^ (d - 1)) by (apply Z.pow_le_mono_r; lia). lia.
Qed.

Lemma shr_1_m (r : shr_record) :
  0 <= shr_m r -> shr_m (shr_1 r) = shr_m r / 2 /\ 0 <= shr_m (shr_1 r).
Proof.
  destruct r as [m rb sb]; cbn [shr_m]; intros Hm.
  destruct m as [|p|p]; [cbn; split; lia | | lia].
  destruct p as [p|p|]; cbn [shr_1 shr_m].
  - split; [|lia]. rewrite Pos2Z.inj_xI.
    apply Z.div_unique with (r := 1); lia.
  - split; [|lia]. rewrite Pos2Z.inj_xO.
    apply Z.div_unique with (r := 0); lia.
  - split; [reflexivity | lia].
Qed.

Lemma iter_shr_1_m (p : positive) :
  forall r, 0 <= shr_m r ->
    shr_m (iter_pos shr_1 p r) = shr_m r / 2 ^ Zpos p /\ 0 <= shr_m (iter_pos shr_1 p r).
Proof.
  induction p as [p IH | p IH | ]; intros r Hr; cbn [iter_pos].
  - destruct (shr_1_m r Hr) as [E1 P1].
    destruct (IH _ P1) as [E2 P2].
    destruct (IH _ P2) as [E3 P3].
    split; [|assumption].
    rewrite E3, E2, E1, !Z.div_div by (try apply pow2_pos; lia).
    f_equal. rewrite Pos2Z.inj_xI.
    rewrite <- Z.pow_add_r, <- Z.pow_succ_r by lia. f_equal; lia.
  - destruct (IH _ Hr) as [E2 P2].
    destruct (IH _ P2) as [E3 P3].
    split; [|assumption].
    rewrite E3, E2, !Z.div_div by (try apply pow2_pos; lia).
    f_equal. rewrite Pos2Z.inj_xO.
    rewrite <- Z.pow_add_r by lia. f_equal; lia.
  - destruct (shr_1_m r Hr) as [E1 P1]. split; [|assumption].
    rewrite E1. reflexivity.
Qed.

Lemma fexp_normal (e : Z) :
  -1074 <= e - 53 -> fexp PyFloat.prec PyFloat.emax e = e - 53.
Proof. unfold fexp, emin, PyFloat.prec, PyFloat.emax. lia. Qed.

Lemma round_nearest_even_cases (m : Z) (l : location) :
  round_nearest_even m l = m \/ round_nearest_even m l = m + 1.
Proof.
  destruct l as [|[| |]]; cbn; auto. destruct (Z.even m); auto.
Qed.

Lemma shr_fexp_keep (m : positive) (e : Z) :
  Zpos (digits2_pos m) = 53 -> -1074 <= e ->
  shr_fexp PyFloat.prec PyFloat.emax (Zpos m) e loc_Exact
  = (Build_shr_record (Zpos m) false false, e).
Proof.
  intros Hd He. unfold shr_fexp. cbn [Zdigits2 shr_record_of_loc].
  rewrite Hd, fexp_normal by lia.
  replace (53 + e - 53 - e) with 0 by lia. reflexivity.
Qed.

Lemma round_aux_exact (sx : bool) (mx : positive) (ex : Z) :
  Zpos (digits2_pos mx) = 53 -> -1074 <= ex ->
  round_aux sx (Zpos mx) ex loc_Exact
  = (if ex <=? 971 then S754_finite sx mx ex else S754_infinity sx).
Proof.
  intros Hd He. unfold binary_round_aux.
  rewrite shr_fexp_keep by assumption.
  cbn [shr_m loc_of_shr_record round_nearest_even].
  rewrite shr_fexp_keep by assumption. reflexivity.
Qed.

Lemma round_aux_normal (sx : bool) (mx : positive) (ex : Z) :
  let d := Zpos (digits2_pos mx) in
  53 <= d -> -1074 <= ex + (d - 53) ->
  exists m e,
    round_aux sx (Zpos mx) ex loc_Exact
    = (if e <=? 971 then S754_finite sx m e else S754_infinity sx)
    /\ 2 ^ 52 <= Zpos m < 2 ^ 53
    /\ ex + (d - 53) <= e <= ex + (d - 53) + 1
    /\ Zpos mx / 2 ^ (d - 53) <= Zpos m * 2 ^ (e - ex - (d - 53)).
Proof.
  intros d Hd He.
  pose proof (digits2_pos_bounds mx) as Hb. fold d in Hb.
  unfold binary_round_aux.
  assert (Hs : shr_fexp PyFloat.prec PyFloat.emax (Zpos mx) ex loc_Exact
               = shr (Build_shr_record (Zpos mx) false false) ex (d - 53)).
  { unfold shr_fexp. cbn [Zdigits2 shr_record_of_loc]. fold d.
    rewrite fexp_normal by lia. f_equal. lia. }
  rewrite Hs. clear Hs.
  destruct (d - 53) as [|n|n] eqn:En; [| |lia].
  - (* 53 bits already: nothing is shifted out *)
    assert (d = 53) by lia.
    cbn [shr shr_m loc_of_shr_record round_nearest_even].
    rewrite shr_fexp_keep by (fold d; lia). cbn [shr_m].
    exists mx, ex. replace (ex - ex - 0) with 0 by lia.
    rewrite Z.pow_0_r, Z.div_1_r.
    replace (d - 1) with 52 in Hb by lia. replace d with 53 in Hb by lia.
    repeat split; try lia.
  - cbn [shr].
    set (r1 := iter_pos shr_1 n (Build_shr_record (Zpos mx) false false)).
    destruct (iter_shr_1_m n (Build_shr_record (Zpos mx) false false)) as [Eq Pq];
      [cbn; lia|]. fold r1 in Eq, Pq. cbn [shr_m] in Eq.
    assert (Hn : 0 < 2 ^ Zpos n) by (apply pow2_pos; lia).
    assert (Hq : 2 ^ 52 <= shr_m r1 < 2 ^ 53).
    { rewrite Eq. replace (d - 1) with (52 + Zpos n) in Hb by lia.
      replace d with (53 + Zpos n) in Hb by lia.
      rewrite !Z.pow_add_r in Hb by lia. split.
      - apply Z.div_le_lower_bound; lia.
      - apply Z.div_lt_upper_bound; lia. }
    set (m1 := round_nearest_even (shr_m r1) (loc_of_shr_record r1)).
    assert (Hm1 : m1 = shr_m r1 \/ m1 = shr_m r1 + 1)
      by apply round_nearest_even_cases.
    destruct (Z_lt_le_dec m1 (2 ^ 53)) as [Hlt|Hge].
    + destruct m1 as [|pm|pm] eqn:Em1; [lia| |lia].
      rewrite shr_fexp_keep; [|apply digits2_pos_unique; lia|lia].
      cbn [shr_m]. exists pm, (ex + Zpos n).
      replace (ex + Zpos n - ex - Zpos n) with 0 by lia.
      rewrite Z.pow_0_r, <- Eq. repeat split; lia.
    + assert (m1 = 2 ^ 53) by lia.
      replace m1 with (2 ^ 53) by lia.
      assert (Hs2 : shr_fexp PyFloat.prec PyFloat.emax (2 ^ 53) (ex + Zpos n) loc_Exact
                    = (Build_shr_record (2 ^ 52) false false, ex + Zpos n + 1)).
      { unfold shr_fexp. change (Zdigits2 (2 ^ 53)) with 54.
        rewrite fexp_normal by lia.
        replace (54 + (ex + Zpos n) - 53 - (ex + Zpos n)) with 1 by lia.
        reflexivity. }
      rewrite Hs2. cbn [shr_m]. change (2 ^ 52) with (Zpos (2 ^ 52)) at 1.
      cbv iota beta.
      exists (2 ^ 52)%positive, (ex + Zpos n + 1).
      replace (ex + Zpos n + 1 - ex - Zpos n) with 1 by lia.
      rewrite <- Eq. change (Zpos (2 ^ 52)) with (2 ^ 52).
      repeat split; try lia.
Qed.

Lemma iter_xO (k m : positive) : Zpos (Pos.iter xO m k) = Zpos m * 2 ^ Zpos k.
Proof.
  induction k as [|k IH] using Pos.peano_ind.
  - cbn. lia.
  - rewrite Pos.iter_succ, Pos2Z.inj_xO, IH, Pos2Z.inj_succ, Z.pow_succ_r by lia. lia.
Qed.

(** The float nearest to a positive integer: a 53-bit mantissa [m] and an
    exponent [e], exact when the integer has at most 53 bits. *)
Lemma of_int_pos (s : positive) :
  exists m e,
    binary_normalize PyFloat.prec PyFloat.emax (Zpos s) 0 false
    = (if e <=? 971 then S754_finite false m e else S754_infinity false)
    /\ 2 ^ 52 <= Zpos m < 2 ^ 53
    /\ -52 <= e <= Zpos (digits2_pos s) - 52
    /\ ((e <= 0 /\ Zpos s * 2 ^ (- e) = Zpos m)
        \/ (0 < e /\ Zpos s < (Zpos m + 1) * 2 ^ e)).
Proof.
  pose proof (digits2_pos_bounds s) as Hb.
  set (d := Zpos (digits2_pos s)) in *.
  assert (0 < d) by (subst d; lia).
  cbn [binary_normalize]. unfold binary_round, shl_align.
  fold d. rewrite fexp_normal by lia.
  replace (d + 0 - 53 - 0) with (d - 53) by lia.
  replace (d + 0 - 53) with (d - 53) by lia.
  destruct (d - 53) as [|n|k] eqn:En.
  - rewrite round_aux_exact by (fold d; lia).
    exists s, 0. replace (d - 1) with 52 in Hb by lia. replace d with 53 in Hb by lia.
    cbn [Z.opp]. rewrite Z.pow_0_r.
    repeat split; lia.
  - destruct (round_aux_normal false s 0) as (m & e & Hr & Hm & He & Hq);
      [fold d; lia | fold d; lia |].
    fold d in He, Hq. rewrite En in He, Hq.
    exists m, e. split; [exact Hr|]. split; [exact Hm|]. split; [lia|].
    right. split; [lia|].
    assert (Hn : 0 < 2 ^ Zpos n) by (apply pow2_pos; lia).
    assert (Hs : Zpos s < (Zpos s / 2 ^ Zpos n + 1) * 2 ^ Zpos n).
    { pose proof (Z.mul_succ_div_gt (Zpos s) (2 ^ Zpos n) Hn). lia. }
    assert (He2 : 2 ^ e = 2 ^ (e - 0 - Zpos n) * 2 ^ Zpos n)
      by (rewrite <- Z.pow_add_r by lia; f_equal; lia).
    assert (0 < 2 ^ (e - 0 - Zpos n)) by (apply pow2_pos; lia).
    rewrite He2. nia.
  - assert (Hk : Zpos k = 53 - d) by lia.
    assert (Hd : Zpos (digits2_pos (Pos.iter xO s k)) = 53).
    { apply digits2_pos_unique. rewrite iter_xO, Hk.
      assert (E1 : 2 ^ (53 - 1) = 2 ^ (d - 1) * 2 ^ (53 - d))
        by (rewrite <- Z.pow_add_r by lia; f_equal; lia).
      assert (E2 : 2 ^ 53 = 2 ^ d * 2 ^ (53 - d))
        by (rewrite <- Z.pow_add_r by lia; f_equal; lia).
      rewrite E1, E2.
      assert (0 < 2 ^ (53 - d)) by (apply pow2_pos; lia).
      split; [apply Z.mul_le_mono_nonneg_r | apply Z.mul_lt_mono_pos_r]; lia. }
    rewrite round_aux_exact by lia.
    exists (Pos.iter xO s k), (Zneg k).
    split; [reflexivity|]. split.
    { pose proof (digits2_pos_bounds (Pos.iter xO s k)) as Hb'.
      rewrite Hd in Hb'. exact Hb'. }
    split; [lia|]. left. split; [lia|].
    rewrite iter_xO. reflexivity.
Qed.

(** The product of a positive float by [1.1]: its value is at least one
    unit in the last place above the first factor. *)
Lemma mul_1_1 (ms : positive) (es : Z) :
  2 ^ 52 <= Zpos ms < 2 ^ 53 -> -52 <= es ->
  exists m e,
    PyFloat.mul (S754_finite false ms es) ENEMY_DROP_SPEED_MULTIPLIER
    = (if e <=? 971 then S754_finite false m e else S754_infinity false)
    /\ es <= e <= es + 2
    /\ Zpos ms + 1 <= Zpos m * 2 ^ (e - es).
Proof.
  intros Hms Hes.
  unfold PyFloat.mul, ENEMY_DROP_SPEED_MULTIPLIER, PyFloat.lit_1_1, SFmul.
  cbn [xorb].
  set (P := (ms * 4953959590107546)%positive).
  assert (HP : Zpos P = Zpos ms * 4953959590107546) by (subst P; apply Pos2Z.inj_mul).
  pose proof (digits2_pos_bounds P) as Hb.
  set (d := Zpos (digits2_pos P)) in *.
  assert (Hd : d = 105 \/ d = 106).
  { change (2 ^ 52) with 4503599627370496 in Hms.
    change (2 ^ 53) with 9007199254740992 in Hms.
    assert (2 ^ 104 <= Zpos P) by (rewrite HP; change (2 ^ 104) with (4503599627370496 * 4503599627370496); nia).
    assert (Zpos P < 2 ^ 106) by (rewrite HP; change (2 ^ 106) with (9007199254740992 * 9007199254740992); nia).
    assert (104 < d) by (apply (Z.pow_lt_mono_r_iff 2); lia).
    assert (d - 1 < 106) by (apply (Z.pow_lt_mono_r_iff 2); lia).
    lia. }
  destruct (round_aux_normal false P (es + -52)) as (m & e & Hr & Hm & He & Hq);
    [fold d; lia | fold d; lia |].
  fold d in He, Hq.
  exists m, e. split; [exact Hr|]. split; [lia|].
  change (2 ^ 52) with 4503599627370496 in Hms.
  change (2 ^ 53) with 9007199254740992 in Hms.
  destruct Hd as [Hd|Hd]; rewrite Hd in He, Hq.
  - replace (e - (es + -52) - (105 - 53)) with (e - es) in Hq by lia.
    change (105 - 53) with 52 in Hq.
    eapply Z.le_trans; [|exact Hq].
    apply Z.div_le_lower_bound; [apply pow2_pos; lia|].
    rewrite HP. change (2 ^ 52) with 4503599627370496. lia.
  - replace (e - (es + -52) - (106 - 53)) with (e - es - 1) in Hq by lia.
    change (106 - 53) with 53 in Hq.
    assert (E : 2 ^ (e - es) = 2 * 2 ^ (e - es - 1)).
    { rewrite <- Z.pow_succ_r by lia. f_equal; lia. }
    rewrite E.
    assert (Hlow : Zpos ms / 2 + 1 <= Zpos P / 2 ^ 53).
    { apply Z.div_le_lower_bound; [apply pow2_pos; lia|].
      rewrite HP. change (2 ^ 53) with 9007199254740992.
      pose proof (Z.mul_div_le (Zpos ms) 2). lia. }
    pose proof (Z.mul_succ_div_gt (Zpos ms) 2). lia.
Qed.

(** [math.ceil] of a positive finite float is above every integer that the
    float exceeds. *)
Lemma ceil_finite_gt (m : positive) (e s : Z) :
  (e < 0 -> s * 2 ^ (- e) < Zpos m) ->
  (0 <= e -> s < Zpos m * 2 ^ e) ->
  exists s', PyFloat.ceil (S754_finite false m e) = Some s' /\ s < s'.
Proof.
  intros Hneg Hpos. destruct e as [|k|k]; cbn [PyFloat.ceil cond_Zopp].
  - eexists; split; [reflexivity|]. apply Hpos; lia.
  - eexists; split; [reflexivity|]. apply Hpos; lia.
  - eexists; split; [reflexivity|].
    specialize (Hneg ltac:(lia)). cbn [Z.opp] in Hneg.
    assert (0 < 2 ^ Zpos k) by (apply pow2_pos; lia).
    assert (- Zpos m / 2 ^ Zpos k < - s); [|lia].
    apply Z.div_lt_upper_bound; lia.
Qed.

(** The speed after a drop: the computation succeeds for every speed below
    [2^1000], and whenever it succeeds the speed has grown. *)
Lemma drop_speed_pos (s : Z) :
  1 <= s ->
  (drop_speed s = None /\ 2 ^ 1000 <= s)
  \/ (exists s', drop_speed s = Some s' /\ s < s').
Proof.
  intros Hs. destruct s as [|p|p]; try lia.
  destruct (of_int_pos p) as (ms & es & Hf & Hms & Hes & Hval).
  pose proof (digits2_pos_bounds p) as Hb.
  unfold drop_speed, PyFloat.of_int. rewrite Hf.
  destruct (Z.leb_spec es 971) as [Hfin|Hinf].
  2:{ left. split; [reflexivity|].
      eapply Z.le_trans; [|apply Hb]. apply Z.pow_le_mono_r; lia. }
  cbn [bind].
  destruct (mul_1_1 ms es Hms) as (m & e & Hmul & He & Hge); [lia|].
  rewrite Hmul.
  destruct (Z.leb_spec e 971) as [Hfin'|Hinf'].
  2:{ left. split; [reflexivity|].
      eapply Z.le_trans; [|apply Hb]. apply Z.pow_le_mono_r; lia. }
  right. apply ceil_finite_gt.
  - intros Hneg. destruct Hval as [[Hle Hex]|[Hgt _]]; [|lia].
    assert (E : 2 ^ (- es) = 2 ^ (- e) * 2 ^ (e - es))
      by (rewrite <- Z.pow_add_r by lia; f_equal; lia).
    assert (0 < 2 ^ (e - es)) by (apply pow2_pos; lia).
    assert (0 < 2 ^ (- e)) by (apply pow2_pos; lia).
    rewrite E in Hex. nia.
  - intros Hpos. destruct Hval as [[Hle Hex]|[Hgt Hlt]].
    + assert (E : 2 ^ (e - es) = 2 ^ e * 2 ^ (- es))
        by (rewrite <- Z.pow_add_r by lia; f_equal; lia).
      assert (0 < 2 ^ (- es)) by (apply pow2_pos; lia).
      assert (0 < 2 ^ e) by (apply pow2_pos; lia).
      rewrite E in Hge. nia.
    + assert (E : 2 ^ e = 2 ^ (e - es) * 2 ^ es)
        by (rewrite <- Z.pow_add_r by lia; f_equal; lia).
      assert (0 < 2 ^ es) by (apply pow2_pos; lia).
      assert (0 < 2 ^ (e - es)) by (apply pow2_pos; lia).
      rewrite E. nia.
Qed.

(** The literal [1.1] is the quotient of 11 by 10 rounded to binary64. *)
Example lit_1_1_is_11_over_10 :
  SFdiv PyFloat.prec PyFloat.emax
        (binary_normalize PyFloat.prec PyFloat.emax 11 0 false)
        (binary_normalize PyFloat.prec PyFloat.emax 10 0 false)
  = ENEMY_DROP_SPEED_MULTIPLIER.
Proof. vm_compute. reflexivity. Qed.

(** Sample values of [math.ceil(speed * 1.1)], as CPython computes them.
    The product is rounded before [ceil] is taken, so the result is not
    always the ceiling of the exact [11 * speed / 10]: 50 gives 56 and 90
    gives 100, because [50 * 1.1] is [55.00000000000001]. *)
Example drop_speed_values :
  map drop_speed
      [0; 1; 2; 3; 10; 11; 20; 49; 50; 51; 90; 330; -1; -3; -50;
       4503599627370497; 8188362958855447; 9007199254740991;
       9007199254740992; 9007199254740993; 1152921504606859321;
       123456789123456789123456789; 2 ^ 1024]
  = [Some 0; Some 2; Some 3; Some 4; Some 11; Some 13; Some 22; Some 54;
     Some 56; Some 57; Some 100; Some 364; Some (-1); Some (-3); Some (-55);
     Some 4953959590107547; Some 9007199254740992; Some 9907919180215090;
     Some 9907919180215092; Some 9907919180215092; Some 1268213655067545344;
     Some 135802468035802480779460608; None].
Proof. vm_compute. reflexivity. Qed.

End FloatFacts.

(** * Properties of the game *)

(** ** Wave spawn *)

Lemma start_x_value : start_x = 170.
Proof. reflexivity. Qed.

Lemma spawn_grid_nth (lvl row col : Z) :
  0 <= row < ENEMY_ROWS -> 0 <= col < ENEMY_COLS ->
  nth_error (spawn_grid lvl) (Z.to_nat (row * ENEMY_COLS + col))
  = Some (spawn_enemy lvl row col).
Proof.
  unfold ENEMY_ROWS, ENEMY_COLS. intros Hr Hc.
  assert (Hrow : row = 0 \/ row = 1 \/ row = 2 \/ row = 3) by lia.
  assert (Hcol : col = 0 \/ col = 1 \/ col = 2 \/ col = 3
                 \/ col = 4 \/ col = 5 \/ col = 6 \/ col = 7) by lia.
  repeat (destruct Hrow as [Hrow|Hrow]); subst row;
    repeat (destruct Hcol as [Hcol|Hcol]); subst col; reflexivity.
Qed.

Lemma spawn_grid_length (lvl : Z) :
  length (spawn_grid lvl) = Z.to_nat (ENEMY_ROWS * ENEMY_COLS).
Proof. reflexivity. Qed.

Lemma spawn_grid_speed (lvl : Z) :
  Forall (fun e => Enemy.speed e = ENEMY_SPEED + (lvl - 1)) (spawn_grid lvl).
Proof.
  unfold spawn_grid, spawn_enemy. cbn [ENEMY_ROWS ENEMY_COLS range Z.to_nat].
  cbn [Pos.to_nat Pos.iter_op Nat.add seq map flat_map app].
  repeat constructor; cbn [Enemy.speed]; lia.
Qed.

(** Every enemy of a fresh wave is one of the grid, above the danger line
    and above the player's row. *)
Lemma spawn_grid_In (lvl : Z) (e : Enemy.t) :
  In e (spawn_grid lvl) ->
  exists row col, 0 <= row < ENEMY_ROWS /\ 0 <= col < ENEMY_COLS
                  /\ e = spawn_enemy lvl row col.
Proof.
  intros HIn. apply In_nth_error in HIn. destruct HIn as [n Hn].
  assert (Hlt : (n < 32)%nat).
  { change 32%nat with (length (spawn_grid lvl)). apply nth_error_Some. congruence. }
  exists (Z.of_nat n / ENEMY_COLS), (Z.of_nat n mod ENEMY_COLS).
  unfold ENEMY_ROWS, ENEMY_COLS in *.
  assert (0 <= Z.of_nat n / 8 < 4)
    by (split; [apply Z.div_pos; lia | apply Z.div_lt_upper_bound; lia]).
  assert (0 <= Z.of_nat n mod 8 < 8) by (apply Z.mod_pos_bound; lia).
  repeat split; try lia.
  pose proof (spawn_grid_nth lvl (Z.of_nat n / 8) (Z.of_nat n mod 8)) as Hg.
  unfold ENEMY_ROWS, ENEMY_COLS in Hg.
  replace (Z.to_nat (Z.of_nat n / 8 * 8 + Z.of_nat n mod 8)) with n in Hg.
  - rewrite Hn in Hg. specialize (Hg ltac:(lia) ltac:(lia)). congruence.
  - pose proof (Z.div_mod (Z.of_nat n) 8). lia.
Qed.

(** C7. [_spawn_enemies] at level [L]: whatever the enemy list held before,
    the direction is +1 and the list is exactly the ROWS x COLS grid, row by
    row, with the fixed spacings; its left edge is
    [max(ENEMY_HORIZONTAL_PADDING, (WIDTH - total_width) // 2)], which centres
    the grid; every enemy has speed [ENEMY_SPEED + (L - 1)]; nothing else of
    the game changes. *)
Theorem C7_spawn_enemies (g : SpaceInvaders.t) :
  let g' := _spawn_enemies g in
  let total_width := (ENEMY_COLS - 1) * ENEMY_HORIZONTAL_SPACING + ENEMY_WIDTH in
  let left_edge := Z.max ENEMY_HORIZONTAL_PADDING ((WIDTH - total_width) / 2) in
  enemy_direction g' = 1
  /\ length (enemies g') = Z.to_nat (ENEMY_ROWS * ENEMY_COLS)
  /\ (forall row col, 0 <= row < ENEMY_ROWS -> 0 <= col < ENEMY_COLS ->
        nth_error (enemies g') (Z.to_nat (row * ENEMY_COLS + col))
        = Some (Enemy.mk
                  (Rect.mk (left_edge + col * ENEMY_HORIZONTAL_SPACING)
                           (ENEMY_VERTICAL_PADDING + row * ENEMY_VERTICAL_SPACING)
                           ENEMY_WIDTH ENEMY_HEIGHT)
                  (ENEMY_SPEED + (level g - 1))))
  /\ Forall (fun e => Enemy.speed e = ENEMY_SPEED + (level g - 1)) (enemies g')
  /\ left_edge + total_width + left_edge = WIDTH
  /\ enemies g' = enemies (_spawn_enemies (set_enemies [] g))
  /\ player g' = player g /\ bullets g' = bullets g /\ level g' = level g
  /\ score g' = score g /\ running g' = running g.
Proof.
  cbv zeta. unfold _spawn_enemies.
  cbn [enemies enemy_direction player bullets level score running
       set_enemies set_enemy_direction].
  split; [reflexivity|]. split; [apply spawn_grid_length|].
  split.
  { intros row col Hr Hc. rewrite spawn_grid_nth by assumption.
    unfold spawn_enemy, start_x. do 2 f_equal. lia. }
  split; [apply spawn_grid_speed|].
  repeat split; reflexivity.
Qed.

(** ** The player *)

Lemma update_iter_cooldown (n : nat) (p : Player.t) :
  0 <= Player.cooldown p ->
  Player.cooldown (Nat.iter n Player.update p)
  = Z.max 0 (Player.cooldown p - Z.of_nat n).
Proof.
  intros Hp. induction n as [|n IH].
  - change (Nat.iter 0 Player.update p) with p. lia.
  - change (Nat.iter (S n) Player.update p)
      with (Player.update (Nat.iter n Player.update p)).
    unfold Player.update at 1.
    destruct (Z.gtb_spec (Player.cooldown (Nat.iter n Player.update p)) 0);
      cbn [Player.cooldown]; lia.
Qed.

(** C8. [Player.shoot] returns a bullet exactly when [cooldown == 0]. On
    success the cooldown becomes [FPS // 4] = 15, the rest of the player is
    untouched, and the bullet is the 6 x 12 rectangle whose horizontal centre
    is the player's and whose top is 10 above the player's top, active, with
    speed [BULLET_SPEED]; shooting again is refused while fewer than 15
    calls of [Player.update] have brought the cooldown back to 0, and succeeds
    after the 15th. On refusal nothing is returned and the player is
    unchanged. *)
Theorem C8_shoot (p : Player.t) :
  (fst (Player.shoot p) <> None <-> Player.cooldown p = 0)
  /\ (Player.cooldown p = 0 ->
      exists b p',
        Player.shoot p = (Some b, p')
        /\ Player.cooldown p' = FPS / 4 /\ FPS / 4 = 15
        /\ Player.rect p' = Player.rect p /\ Player.lives p' = Player.lives p
        /\ Bullet.rect b
           = Rect.mk (Rect.centerx (Player.rect p) - 3) (Rect.top (Player.rect p) - 10) 6 12
        /\ Rect.centerx (Bullet.rect b) = Rect.centerx (Player.rect p)
        /\ Rect.top (Bullet.rect b) < Rect.top (Player.rect p)
        /\ Bullet.speed b = BULLET_SPEED /\ Bullet.active b = true
        /\ (forall n, (n < 15)%nat ->
              Player.shoot (Nat.iter n Player.update p')
              = (None, Nat.iter n Player.update p'))
        /\ fst (Player.shoot (Nat.iter 15 Player.update p')) <> None)
  /\ (Player.cooldown p <> 0 -> Player.shoot p = (None, p)).
Proof.
  unfold Player.shoot.
  destruct (Z.eqb_spec (Player.cooldown p) 0) as [H0|H0].
  - split; [split; [intros _; exact H0 | intros _; discriminate]|].
    split; [|intros Hne; contradiction].
    intros _. eexists; eexists. split; [reflexivity|].
    cbn [Player.cooldown Player.rect Player.lives
         Bullet.rect Bullet.speed Bullet.active].
    repeat (split; [reflexivity|]).
    split; [unfold Rect.centerx; cbn [Rect.x Rect.width]; change (6 / 2) with 3; lia|].
    split; [unfold Rect.top; cbn [Rect.y]; lia|].
    repeat (split; [reflexivity|]).
    set (p' := Player.mk (Player.rect p) (Player.lives p) (FPS / 4)).
    assert (Hc : forall n, Player.cooldown (Nat.iter n Player.update p')
                           = Z.max 0 (15 - Z.of_nat n))
      by (intros n; rewrite update_iter_cooldown; subst p';
          cbn [Player.cooldown]; change (FPS / 4) with 15; lia).
    split.
    + intros n Hn.
      destruct (Z.eqb_spec (Player.cooldown (Nat.iter n Player.update p')) 0) as [E|E];
        [rewrite Hc in E; lia | reflexivity].
    + destruct (Z.eqb_spec (Player.cooldown (Nat.iter 15 Player.update p')) 0) as [E|E];
        [cbn [fst]; discriminate | rewrite Hc in E; change (Z.of_nat 15) with 15 in E; lia].
  - split; [split; [intros Hn; cbn [fst] in Hn; congruence | intros; contradiction]|].
    split; [intros; contradiction | reflexivity].
Qed.

(** ** Losing a life *)

(** C6. [_lose_life] with more than one life left: the bullet list becomes
    empty, the player's horizontal centre becomes [WIDTH // 2] = 400 (its row
    and size unchanged), its cooldown [FPS // 2] = 30, the enemy list becomes
    the wave-start grid of the current level (direction +1), one life is
    taken, and [score], [level] and [running] are unchanged. *)
Theorem C6_lose_life_respawns (g : SpaceInvaders.t) :
  1 < Player.lives (player g) ->
  let g' := _lose_life g in
  bullets g' = []
  /\ Rect.centerx (Player.rect (player g')) = WIDTH / 2 /\ WIDTH / 2 = 400
  /\ Rect.y (Player.rect (player g')) = Rect.y (Player.rect (player g))
  /\ Rect.width (Player.rect (player g')) = Rect.width (Player.rect (player g))
  /\ Rect.height (Player.rect (player g')) = Rect.height (Player.rect (player g))
  /\ Player.cooldown (player g') = FPS / 2 /\ FPS / 2 = 30
  /\ Player.lives (player g') = Player.lives (player g) - 1
  /\ enemies g' = spawn_grid (level g)
  /\ enemies g' = enemies (_spawn_enemies g)
  /\ enemy_direction g' = 1
  /\ score g' = score g /\ level g' = level g /\ running g' = running g.
Proof.
  intros Hl. cbv zeta. unfold _lose_life.
  cbn [player set_player Player.lives Player.rect Player.cooldown].
  destruct (Z.leb_spec (Player.lives (player g) - 1) 0) as [Hle|Hgt]; [lia|].
  unfold _spawn_enemies, Rect.set_centerx, Rect.centerx. fields.
  change (WIDTH / 2) with 400. change (FPS / 2) with 30.
  repeat split; lia.
Qed.

(** C6 at [before_hit_state], where three lives are left, a bullet is in
    flight and the wave has marched 37 frames. *)
Lemma C6_lose_life_respawns_witness :
  1 < Player.lives (player before_hit_state)
  /\ bullets (_lose_life before_hit_state) = []
  /\ enemies (_lose_life before_hit_state) = spawn_grid (level before_hit_state)
  /\ score (_lose_life before_hit_state) = score before_hit_state
  /\ level (_lose_life before_hit_state) = level before_hit_state.
Proof.
  assert (H : 1 < Player.lives (player before_hit_state)) by reflexivity.
  split; [exact H|].
  destruct (C6_lose_life_respawns before_hit_state H)
    as (Hb & _ & _ & _ & _ & _ & _ & _ & _ & He & _ & _ & Hs & Hl & _).
  repeat split; assumption.
Defined.

(** ** The formation's advance reads a non-empty list *)

Lemma next_wave_if_cleared_nonempty (g : SpaceInvaders.t) :
  enemies (next_wave_if_cleared g) <> [].
Proof.
  unfold next_wave_if_cleared. destruct (enemies g) as [|e es] eqn:E.
  - unfold _spawn_enemies. cbn [enemies set_enemies]. discriminate.
  - rewrite E. discriminate.
Qed.

Lemma fold_min_In (vs : list Z) (v : Z) :
  fold_left Z.min vs v = v \/ In (fold_left Z.min vs v) vs.
Proof.
  revert v. induction vs as [|w vs IH]; intros v; cbn [fold_left]; [left; reflexivity|].
  destruct (IH (Z.min v w)) as [E|HIn].
  - rewrite E. destruct (Z.min_spec v w) as [[_ ->]|[_ ->]]; [left; reflexivity|right; left; reflexivity].
  - right; right; exact HIn.
Qed.

Lemma fold_max_In (vs : list Z) (v : Z) :
  fold_left Z.max vs v = v \/ In (fold_left Z.max vs v) vs.
Proof.
  revert v. induction vs as [|w vs IH]; intros v; cbn [fold_left]; [left; reflexivity|].
  destruct (IH (Z.max v w)) as [E|HIn].
  - rewrite E. destruct (Z.max_spec v w) as [[_ ->]|[_ ->]]; [right; left; reflexivity|left; reflexivity].
  - right; right; exact HIn.
Qed.

Lemma py_min_nonempty (xs : list Z) (d : Z) :
  xs <> [] -> In (py_min xs d) xs /\ forall d', py_min xs d' = py_min xs d.
Proof.
  destruct xs as [|v vs]; [congruence|]. intros _. split; [|reflexivity].
  cbn [py_min]. destruct (fold_min_In vs v) as [E|H]; [left; congruence|right; exact H].
Qed.

Lemma py_max_nonempty (xs : list Z) (d : Z) :
  xs <> [] -> In (py_max xs d) xs /\ forall d', py_max xs d' = py_max xs d.
Proof.
  destruct xs as [|v vs]; [congruence|]. intros _. split; [|reflexivity].
  cbn [py_max]. destruct (fold_max_In vs v) as [E|H]; [left; congruence|right; exact H].
Qed.

(** C10. In [_update] the formation's advance runs on the state left by the
    respawn check, and in that state the enemy list is never empty, whatever
    the state [_update] started from: [leftmost] and [rightmost] are edges of
    enemies of the list, and the fallback values given as [default] (0 and
    WIDTH) have no influence on them. *)
Theorem C10_advance_sees_enemies (g : SpaceInvaders.t) :
  let g1 := next_wave_if_cleared (update_entities g) in
  _update g = (g2 <- advance g1 ;; Some (_handle_collisions g2))
  /\ enemies g1 <> []
  /\ (exists e, In e (enemies g1) /\ leftmost g1 = Rect.left (Enemy.rect e))
  /\ (exists e, In e (enemies g1) /\ rightmost g1 = Rect.right (Enemy.rect e))
  /\ (forall d, py_min (map (fun e => Rect.left (Enemy.rect e)) (enemies g1)) d
                = leftmost g1)
  /\ (forall d, py_max (map (fun e => Rect.right (Enemy.rect e)) (enemies g1)) d
                = rightmost g1).
Proof.
  cbv zeta. set (g1 := next_wave_if_cleared (update_entities g)).
  assert (Hne : enemies g1 <> []) by apply next_wave_if_cleared_nonempty.
  split; [reflexivity|]. split; [exact Hne|].
  assert (Hl : map (fun e => Rect.left (Enemy.rect e)) (enemies g1) <> [])
    by (destruct (enemies g1); [congruence | discriminate]).
  assert (Hr : map (fun e => Rect.right (Enemy.rect e)) (enemies g1) <> [])
    by (destruct (enemies g1); [congruence | discriminate]).
  destruct (py_min_nonempty _ 0 Hl) as [Hin_l Hd_l].
  destruct (py_max_nonempty _ WIDTH Hr) as [Hin_r Hd_r].
  split.
  { apply in_map_iff in Hin_l. destruct Hin_l as (e & He & HIn).
    exists e. split; [exact HIn | symmetry; exact He]. }
  split.
  { apply in_map_iff in Hin_r. destruct Hin_r as (e & He & HIn).
    exists e. split; [exact HIn | symmetry; exact He]. }
  split; intros d; [apply Hd_l | apply Hd_r].
Qed.

(** ** What each step of a frame leaves alone *)

Lemma handle_event_fold (evs : list Event) (g : SpaceInvaders.t) :
  let g' := fold_left handle_event evs g in
  player g' = player g /\ bullets g' = bullets g /\ enemies g' = enemies g
  /\ enemy_direction g' = enemy_direction g /\ level g' = level g
  /\ score g' = score g /\ (running g' = true -> running g = true).
Proof.
  revert g. induction evs as [|ev evs IH]; intros g; cbn [fold_left].
  - cbv zeta. repeat split; auto.
  - specialize (IH (handle_event g ev)). cbv zeta in *.
    destruct IH as (Hp & Hb & He & Hd & Hl & Hs & Hr).
    rewrite Hp, Hb, He, Hd, Hl, Hs.
    assert (Hrun : running
                     (fold_left handle_event evs (handle_event g ev)) = true ->
                   running g = true).
    { intros H. specialize (Hr H). revert Hr.
      destruct ev as [|[]|]; cbn; congruence. }
    destruct ev as [|[]|]; cbn; repeat split; auto.
Qed.

Lemma move_frame (dx : Z) (p : Player.t) :
  Player.lives (Player.move dx p) = Player.lives p
  /\ Player.cooldown (Player.move dx p) = Player.cooldown p
  /\ Rect.y (Player.rect (Player.move dx p)) = Rect.y (Player.rect p)
  /\ Rect.width (Player.rect (Player.move dx p)) = Rect.width (Player.rect p)
  /\ Rect.height (Player.rect (Player.move dx p)) = Rect.height (Player.rect p).
Proof. unfold Player.move. fields. repeat split. Qed.

Lemma shoot_frame (p : Player.t) :
  Player.lives (snd (Player.shoot p)) = Player.lives p
  /\ Player.rect (snd (Player.shoot p)) = Player.rect p
  /\ (0 <= Player.cooldown p -> 0 <= Player.cooldown (snd (Player.shoot p))).
Proof.
  unfold Player.shoot. destruct (Player.cooldown p =? 0); cbn [snd]; fields.
  - repeat split. intros _. change (FPS / 4) with 15. lia.
  - repeat split. auto.
Qed.

Lemma handle_events_frame (inp : Input) (g : SpaceInvaders.t) :
  let g' := _handle_events inp g in
  enemies g' = enemies g /\ enemy_direction g' = enemy_direction g
  /\ level g' = level g /\ score g' = score g
  /\ Player.lives (player g') = Player.lives (player g)
  /\ (player_in_place (player g) -> player_in_place (player g'))
  /\ (0 <= Player.cooldown (player g) -> 0 <= Player.cooldown (player g'))
  /\ (running g' = true -> running g = true).
Proof.
  cbv zeta. unfold _handle_events.
  pose proof (handle_event_fold (events inp) g) as H. cbv zeta in H.
  destruct H as (Hp & Hb & He & Hd & Hl & Hs & Hr).
  set (g0 := fold_left handle_event (events inp) g) in *.
  set (dx := int_of_bool (pressed inp K_RIGHT || pressed inp K_d)
             - int_of_bool (pressed inp K_LEFT || pressed inp K_a)).
  set (g1 := if dx =? 0 then g0 else set_player (Player.move dx (player g0)) g0).
  assert (H1 : enemies g1 = enemies g /\ enemy_direction g1 = enemy_direction g
               /\ level g1 = level g /\ score g1 = score g
               /\ Player.lives (player g1) = Player.lives (player g)
               /\ (player_in_place (player g) -> player_in_place (player g1))
               /\ (0 <= Player.cooldown (player g) -> 0 <= Player.cooldown (player g1))
               /\ (running g1 = true -> running g = true)).
  { subst g1. destruct (dx =? 0).
    - rewrite Hp. unfold player_in_place. repeat split; tauto.
    - fields. destruct (move_frame dx (player g0)) as (Ml & Mc & My & Mw & Mh).
      unfold player_in_place. rewrite Ml, Mc, My, Mw, Mh, Hp.
      repeat split; tauto. }
  clearbody g1. clear - H1.
  destruct H1 as (He & Hd & Hl & Hs & Hlv & Hpl & Hcd & Hr).
  destruct (pressed inp K_SPACE); [|unfold player_in_place in *; repeat split; tauto].
  destruct (shoot_frame (player g1)) as (Sl & Sr & Sc).
  destruct (Player.shoot (player g1)) as [[b|] p']; cbn [snd] in *; fields;
    unfold player_in_place in *; rewrite Sl, Sr; repeat split; tauto.
Qed.

Lemma update_entities_frame (g : SpaceInvaders.t) :
  let g' := update_entities g in
  enemies g' = enemies g /\ enemy_direction g' = enemy_direction g
  /\ level g' = level g /\ score g' = score g /\ running g' = running g
  /\ Player.lives (player g') = Player.lives (player g)
  /\ Player.rect (player g') = Player.rect (player g)
  /\ (0 <= Player.cooldown (player g) -> 0 <= Player.cooldown (player g')).
Proof.
  cbv zeta. unfold update_entities, Player.update. fields.
  destruct (Z.gtb_spec (Player.cooldown (player g)) 0); fields; repeat split; lia.
Qed.

Lemma next_wave_frame (g : SpaceInvaders.t) :
  let g' := next_wave_if_cleared g in
  player g' = player g /\ bullets g' = bullets g /\ score g' = score g
  /\ running g' = running g
  /\ ((enemies g = [] /\ level g' = level g + 1
       /\ enemies g' = spawn_grid (level g + 1) /\ enemy_direction g' = 1)
      \/ (enemies g <> [] /\ g' = g)).
Proof.
  cbv zeta. unfold next_wave_if_cleared, _spawn_enemies.
  destruct (enemies g) as [|e es] eqn:E; fields.
  - repeat split. left. repeat split.
  - repeat split. right. split; [discriminate | reflexivity].
Qed.

(** ** The advance *)

Lemma mapM_Forall2 {A B : Type} (f : A -> option B) (l : list A) (l' : list B) :
  mapM f l = Some l' -> Forall2 (fun a b => f a = Some b) l l'.
Proof.
  revert l'. induction l as [|a l IH]; intros l' H; cbn [mapM] in H.
  - injection H as <-. constructor.
  - destruct (f a) as [b|] eqn:Ea; cbn [bind] in H; [|discriminate].
    destruct (mapM f l) as [bs|]; cbn [bind] in H; [|discriminate].
    injection H as <-. constructor; [exact Ea | apply IH; reflexivity].
Qed.

Lemma mapM_total {A B : Type} (f : A -> option B) (l : list A) :
  Forall (fun a => f a <> None) l -> exists l', mapM f l = Some l'.
Proof.
  induction 1 as [|a l Ha _ IH]; cbn [mapM].
  - eexists; reflexivity.
  - destruct (f a) as [b|]; [|congruence]. destruct IH as [bs ->].
    cbn [bind]. eexists; reflexivity.
Qed.

Lemma Forall2_map_l {A B C : Type} (R : B -> C -> Prop) (f : A -> B)
      (l : list A) (l' : list C) :
  Forall2 R (map f l) l' <-> Forall2 (fun a c => R (f a) c) l l'.
Proof.
  revert l'. induction l as [|a l IH]; intros l'; cbn [map]; split; intros H.
  - inversion H; constructor.
  - inversion H; constructor.
  - inversion H; subst. constructor; [assumption | apply IH; assumption].
  - inversion H; subst. constructor; [assumption | apply IH; assumption].
Qed.

Lemma Forall2_map_same {A B : Type} (R : A -> B -> Prop) (f : A -> B) (l : list A) :
  (forall a, R a (f a)) -> Forall2 R l (map f l).
Proof. intros H. induction l; cbn [map]; constructor; auto. Qed.

(** The three outcomes of the margin test of lines 156-161. *)
Lemma turn_cases (g : SpaceInvaders.t) :
  (turn g = (true, 1) /\ leftmost g <= 10 /\ enemy_direction g < 0)
  \/ (turn g = (true, -1) /\ rightmost g >= WIDTH - 10 /\ enemy_direction g > 0)
  \/ (turn g = (false, enemy_direction g)
      /\ ~ (leftmost g <= 10 /\ enemy_direction g < 0)
      /\ ~ (rightmost g >= WIDTH - 10 /\ enemy_direction g > 0)).
Proof.
  unfold turn.
  destruct (Z.leb_spec (leftmost g) 10), (Z.ltb_spec (enemy_direction g) 0);
    cbn [andb]; try (left; repeat split; lia);
    destruct (Z.geb_spec (rightmost g) (WIDTH - 10)), (Z.gtb_spec (enemy_direction g) 0);
    cbn [andb]; try (right; left; repeat split; lia);
    right; right; repeat split; lia.
Qed.

Lemma drop_speed_zero : drop_speed 0 = Some 0.
Proof. reflexivity. Qed.

Lemma drop_speed_in_range (s : Z) :
  0 <= s < 2 ^ 1000 -> drop_speed s <> None.
Proof.
  intros Hs. destruct (Z.eq_dec s 0) as [->|Hne]; [rewrite drop_speed_zero; discriminate|].
  destruct (drop_speed_pos s) as [[_ Hbig]|(s' & -> & _)]; [lia | lia | discriminate].
Qed.

(** What [advance] does to the game, whenever it returns. *)
Lemma advance_spec (g g' : SpaceInvaders.t) :
  advance g = Some g' ->
  player g' = player g /\ bullets g' = bullets g /\ level g' = level g
  /\ score g' = score g /\ running g' = running g
  /\ enemy_direction g' = snd (turn g)
  /\ Forall2 (fun e e' =>
                Enemy.rect e'
                = Rect.mk (Rect.x (Enemy.rect e) + Enemy.speed e * snd (turn g))
                          (if fst (turn g)
                           then Rect.y (Enemy.rect e) + ENEMY_VERTICAL_STEP
                           else Rect.y (Enemy.rect e))
                          (Rect.width (Enemy.rect e)) (Rect.height (Enemy.rect e))
                /\ (if fst (turn g)
                    then drop_speed (Enemy.speed e) = Some (Enemy.speed e')
                    else Enemy.speed e' = Enemy.speed e))
             (enemies g) (enemies g').
Proof.
  unfold advance. destruct (turn g) as [move_down direction]. cbn [fst snd].
  destruct move_down.
  - destruct (mapM drop_enemy (map (move_enemy direction) (enemies g))) as [es|] eqn:E;
      cbn [bind]; [|discriminate].
    intros H; injection H as <-. fields. repeat (split; [reflexivity|]).
    apply mapM_Forall2 in E. apply Forall2_map_l in E.
    eapply Forall2_impl; [|exact E].
    intros e e' He. cbv beta in He. unfold drop_enemy, move_enemy in He. fields.
    destruct (drop_speed (Enemy.speed e)) as [s|]; cbn [bind] in He; [|discriminate].
    injection He as <-. fields. split; reflexivity.
  - cbn [bind]. intros H; injection H as <-. fields.
    repeat (split; [reflexivity|]).
    apply Forall2_map_same.
    intros e. unfold move_enemy. fields. split; reflexivity.
Qed.

(** [advance] returns whenever no speed is out of the floats' range. *)
Lemma advance_total (g : SpaceInvaders.t) :
  speeds_in_range (enemies g) \/ fst (turn g) = false ->
  exists g', advance g = Some g'.
Proof.
  intros H. unfold advance. destruct (turn g) as [move_down direction].
  cbn [fst] in H. destruct move_down.
  - destruct H as [H|H]; [|discriminate].
    destruct (mapM_total drop_enemy (map (move_enemy direction) (enemies g))) as [es ->].
    + apply Forall_map. unfold speeds_in_range in H.
      eapply Forall_impl; [|exact H]. intros e He. unfold drop_enemy, move_enemy. fields.
      pose proof (drop_speed_in_range _ He).
      destruct (drop_speed (Enemy.speed e)); cbn [bind]; congruence.
    + cbn [bind]. eexists; reflexivity.
  - cbn [bind]. eexists; reflexivity.
Qed.

(** ** Collisions *)

Lemma Rect_eqb_eq (a b : Rect.t) : Rect.eqb a b = true <-> a = b.
Proof.
  unfold Rect.eqb. rewrite !andb_true_iff, !Z.eqb_eq.
  destruct a, b; cbn [Rect.x Rect.y Rect.width Rect.height].
  split; [intros [[[-> ->] ->] ->]; reflexivity | intros H; injection H; auto].
Qed.

Lemma Enemy_eqb_eq (a b : Enemy.t) : Enemy.eqb a b = true <-> a = b.
Proof.
  unfold Enemy.eqb. rewrite andb_true_iff, Rect_eqb_eq, Z.eqb_eq.
  destruct a, b; cbn [Enemy.rect Enemy.speed].
  split; [intros [-> ->]; reflexivity | intros H; injection H; auto].
Qed.

(** The enemy a bullet hits is the first one of the list it overlaps, and
    [remove] takes exactly that element out. *)
Lemma first_hit_Some (b : Bullet.t) (es : list Enemy.t) (e : Enemy.t) :
  first_hit b es = Some e ->
  exists l1 l2,
    es = l1 ++ e :: l2
    /\ Forall (fun a => Rect.colliderect (Bullet.rect b) (Enemy.rect a) = false) l1
    /\ Rect.colliderect (Bullet.rect b) (Enemy.rect e) = true
    /\ list_remove e es = l1 ++ l2.
Proof.
  unfold first_hit. induction es as [|a es IH]; cbn [find list_remove]; [discriminate|].
  destruct (Rect.colliderect (Bullet.rect b) (Enemy.rect a)) eqn:Ea.
  - intros H; injection H as <-. exists [], es. cbn [app].
    assert (Enemy.eqb a a = true) as -> by (apply Enemy_eqb_eq; reflexivity).
    repeat split; [constructor | exact Ea].
  - intros H. destruct (IH H) as (l1 & l2 & -> & Hl1 & He & Hrm).
    exists (a :: l1), l2. cbn [app].
    destruct (Enemy.eqb a e) eqn:Eae.
    + apply Enemy_eqb_eq in Eae. subst a. congruence.
    + rewrite Hrm. repeat split; [constructor; assumption | exact He].
Qed.

Lemma first_hit_None (b : Bullet.t) (es : list Enemy.t) :
  first_hit b es = None ->
  Forall (fun a => Rect.colliderect (Bullet.rect b) (Enemy.rect a) = false) es.
Proof.
  unfold first_hit. intros H. apply Forall_forall. intros a Ha.
  pose proof (find_none _ _ H a Ha) as Hn. exact Hn.
Qed.

(** The loop over the bullets: every bullet stays in the list, at most
    deactivated; the enemies left are enemies of the list before, one fewer
    for each 10 points scored, and no more are gone than there are bullets. *)
Lemma bullets_vs_enemies_spec (bs : list Bullet.t) :
  forall (es : list Enemy.t) (sc : Z),
    let '(bs', es', sc') := bullets_vs_enemies bs es sc in
    Forall2 (fun b b' => b' = b \/ b' = Bullet.deactivate b) bs bs'
    /\ incl es' es
    /\ (length es' <= length es)%nat
    /\ (length es - length es' <= length bs)%nat
    /\ sc' = sc + 10 * (Z.of_nat (length es) - Z.of_nat (length es')).
Proof.
  induction bs as [|b bs IH]; intros es sc; cbn [bullets_vs_enemies].
  - repeat split; [constructor | apply incl_refl | lia | lia | lia].
  - destruct (first_hit b es) as [e|] eqn:Eh.
    + destruct (first_hit_Some _ _ _ Eh) as (l1 & l2 & Hes & _ & _ & Hrm).
      specialize (IH (list_remove e es) (sc + 10)).
      destruct (bullets_vs_enemies bs (list_remove e es) (sc + 10)) as [[bs' es'] sc'].
      destruct IH as (Hb & Hi & Hle & Hre & Hsc).
      assert (Hlen : length es = S (length (list_remove e es))).
      { rewrite Hrm, Hes, !length_app. cbn [length]. lia. }
      repeat split.
      * constructor; [right; reflexivity | exact Hb].
      * intros x Hx. apply Hi in Hx. rewrite Hrm in Hx. rewrite Hes.
        apply in_app_or in Hx. apply in_or_app. cbn [In]. tauto.
      * lia.
      * cbn [length]. lia.
      * lia.
    + specialize (IH es sc).
      destruct (bullets_vs_enemies bs es sc) as [[bs' es'] sc'].
      destruct IH as (Hb & Hi & Hle & Hre & Hsc).
      repeat split; try assumption.
      * constructor; [left; reflexivity | exact Hb].
      * cbn [length]. lia.
Qed.

(** When the bullets are all active, as they are after the filter of
    [_update], the bullets the loop deactivates are as many as the enemies it
    removes. *)
Lemma bullets_vs_enemies_hits (bs : list Bullet.t) :
  forall (es : list Enemy.t) (sc : Z),
    Forall (fun b => Bullet.active b = true) bs ->
    let '(bs', es', sc') := bullets_vs_enemies bs es sc in
    (length (filter (fun b => negb (Bullet.active b)) bs') + length es'
     = length es)%nat.
Proof.
  induction bs as [|b bs IH]; intros es sc Hact; cbn [bullets_vs_enemies].
  - reflexivity.
  - inversion Hact as [|b0 bs0 Hb Hbs]; subst.
    destruct (first_hit b es) as [e|] eqn:Eh.
    + destruct (first_hit_Some _ _ _ Eh) as (l1 & l2 & Hes & _ & _ & Hrm).
      specialize (IH (list_remove e es) (sc + 10) Hbs).
      destruct (bullets_vs_enemies bs (list_remove e es) (sc + 10)) as [[bs' es'] sc'].
      cbn [filter Bullet.deactivate Bullet.active negb length].
      assert (Hlen : length es = S (length (list_remove e es))).
      { rewrite Hrm, Hes, !length_app. cbn [length]. lia. }
      lia.
    + specialize (IH es sc Hbs).
      destruct (bullets_vs_enemies bs es sc) as [[bs' es'] sc'].
      cbn [filter]. rewrite Hb. cbn [negb]. exact IH.
Qed.

(** The loop over the enemies calls [_lose_life] once if some enemy
    threatens the player, and not at all otherwise. *)
Lemma enemies_vs_player_spec (es : list Enemy.t) (g : SpaceInvaders.t) :
  enemies_vs_player es g
  = if existsb (threatens (player g)) es then _lose_life g else g.
Proof.
  induction es as [|e es IH]; cbn [enemies_vs_player existsb]; [reflexivity|].
  unfold threatens at 1.
  destruct (Rect.colliderect (Enemy.rect e) (Player.rect (player g))); cbn [orb];
    [reflexivity|].
  destruct (Rect.bottom (Enemy.rect e) >=? HEIGHT - 80); [reflexivity | exact IH].
Qed.

(** [_lose_life] on the last life: game over, and nothing else changes. *)
Lemma lose_life_last (g : SpaceInvaders.t) :
  Player.lives (player g) <= 1 ->
  _lose_life g
  = SpaceInvaders.mk (Player.mk (Player.rect (player g))
                                (Player.lives (player g) - 1)
                                (Player.cooldown (player g)))
                     (bullets g) (enemies g) (enemy_direction g) (level g)
                     (score g) false.
Proof.
  intros H. unfold _lose_life. fields.
  destruct (Z.leb_spec (Player.lives (player g) - 1) 0); [reflexivity | lia].
Qed.

(** [_lose_life] with lives to spare: the state it leaves. *)
Lemma lose_life_spare (g : SpaceInvaders.t) :
  1 < Player.lives (player g) ->
  _lose_life g
  = SpaceInvaders.mk (Player.mk (Rect.set_centerx (WIDTH / 2) (Player.rect (player g)))
                                (Player.lives (player g) - 1)
                                (FPS / 2))
                     [] (spawn_grid (level g)) 1 (level g) (score g) (running g).
Proof.
  intros H. unfold _lose_life. fields.
  destruct (Z.leb_spec (Player.lives (player g) - 1) 0); [lia | reflexivity].
Qed.

Lemma lose_life_frame (g : SpaceInvaders.t) :
  let g' := _lose_life g in
  Player.lives (player g') = Player.lives (player g) - 1
  /\ score g' = score g /\ level g' = level g
  /\ (running g' = true -> running g = true /\ 1 < Player.lives (player g))
  /\ (player_in_place (player g) -> player_in_place (player g'))
  /\ (0 <= Player.cooldown (player g) -> 0 <= Player.cooldown (player g'))
  /\ (enemies g' = enemies g \/ enemies g' = spawn_grid (level g))
  /\ (bullets g' = bullets g \/ bullets g' = []).
Proof.
  cbv zeta. destruct (Z_le_gt_dec (Player.lives (player g)) 1) as [Hle|Hgt].
  - rewrite lose_life_last by assumption. unfold player_in_place. fields.
    repeat split; try tauto; try discriminate; auto.
  - rewrite lose_life_spare by lia. unfold player_in_place, Rect.set_centerx. fields.
    change (FPS / 2) with 30.
    repeat split; try tauto; try lia; auto.
Qed.

(** [_handle_collisions] as its two loops. *)
Lemma handle_collisions_spec (g : SpaceInvaders.t) :
  _handle_collisions g
  = let '(bs, es, sc) := bullets_vs_enemies (bullets g) (enemies g) (score g) in
    let g1 := SpaceInvaders.mk (player g) bs es (enemy_direction g) (level g) sc (running g) in
    if existsb (threatens (player g)) es then _lose_life g1 else g1.
Proof.
  unfold _handle_collisions.
  destruct (bullets_vs_enemies (bullets g) (enemies g) (score g)) as [[bs es] sc].
  rewrite enemies_vs_player_spec. fields. reflexivity.
Qed.

Lemma handle_collisions_frame (g : SpaceInvaders.t) :
  let g' := _handle_collisions g in
  (Player.lives (player g') = Player.lives (player g)
   \/ Player.lives (player g') = Player.lives (player g) - 1
      /\ (running g' = true -> 1 < Player.lives (player g)))
  /\ score g <= score g' /\ level g' = level g
  /\ (running g' = true -> running g = true)
  /\ (player_in_place (player g) -> player_in_place (player g'))
  /\ (0 <= Player.cooldown (player g) -> 0 <= Player.cooldown (player g'))
  /\ (incl (enemies g') (enemies g) \/ enemies g' = spawn_grid (level g)).
Proof.
  cbv zeta. rewrite handle_collisions_spec.
  pose proof (bullets_vs_enemies_spec (bullets g) (enemies g) (score g)) as H.
  destruct (bullets_vs_enemies (bullets g) (enemies g) (score g)) as [[bs es] sc].
  destruct H as (Hb & Hi & Hle & Hre & Hsc).
  assert (Hscore : score g <= sc) by lia.
  cbv zeta.
  destruct (existsb (threatens (player g)) es).
  - match goal with |- context [_lose_life ?g1] =>
      pose proof (lose_life_frame g1) as HL; set (g' := _lose_life g1) in * end.
    cbv zeta in HL. fields. clearbody g'.
    destruct HL as (Hl & Hs & Hlv & Hr & Hp & Hc & He & _).
    rewrite Hl, Hs, Hlv.
    assert (incl (enemies g') (enemies g) \/ enemies g' = spawn_grid (level g))
      by (destruct He as [He|He]; rewrite He; [left; exact Hi | right; reflexivity]).
    unfold player_in_place in *. intuition lia.
  - fields. unfold player_in_place. intuition lia.
Qed.

(** ** A whole frame *)

(** The state the formation's advance reads in the frame with input [inp]. *)
Lemma tick_steps (inp : Input) (g g' : SpaceInvaders.t) :
  tick inp g = Some g' ->
  exists g2,
    advance (next_wave_if_cleared (update_entities (_handle_events inp g))) = Some g2
    /\ g' = _handle_collisions g2.
Proof.
  unfold tick, _update. intros H.
  destruct (advance (next_wave_if_cleared (update_entities (_handle_events inp g))))
    as [g2|]; cbn [bind] in H; [|discriminate].
  injection H as <-. exists g2. split; reflexivity.
Qed.

Lemma spawn_grid_speed_ge (lvl : Z) :
  1 <= lvl -> Forall (fun e => 1 <= Enemy.speed e) (spawn_grid lvl).
Proof.
  intros H. eapply Forall_impl; [|apply spawn_grid_speed].
  intros e ->. unfold ENEMY_SPEED. lia.
Qed.

Lemma advance_speed_ge (g g' : SpaceInvaders.t) :
  advance g = Some g' ->
  Forall (fun e => 1 <= Enemy.speed e) (enemies g) ->
  Forall (fun e => 1 <= Enemy.speed e) (enemies g').
Proof.
  intros Ha Hf. apply advance_spec in Ha.
  destruct Ha as (_ & _ & _ & _ & _ & _ & H2).
  induction H2 as [|e e' es es' [_ Hs] _ IH]; [constructor|].
  inversion Hf; subst. constructor; [|apply IH; assumption].
  destruct (fst (turn g)); [|lia].
  destruct (drop_speed_pos (Enemy.speed e)) as [[Hn _]|(s' & Hs' & Hlt)];
    [assumption | congruence | ].
  rewrite Hs in Hs'. injection Hs' as <-. lia.
Qed.

(** A frame keeps the invariant. *)
Lemma tick_invariant (inp : Input) (g g' : SpaceInvaders.t) :
  invariant g -> running g = true -> tick inp g = Some g' -> invariant g'.
Proof.
  intros (Hp & Hl0 & Hl1 & Hc & Hlv & Hs & Hsp) Hrun Ht.
  destruct (tick_steps _ _ _ Ht) as (g2 & Ha & ->).
  pose proof (handle_events_frame inp g) as H0. cbv zeta in H0.
  set (g0 := _handle_events inp g) in *.
  destruct H0 as (E0 & D0 & L0 & S0 & V0 & P0 & C0 & R0).
  pose proof (update_entities_frame g0) as H1. cbv zeta in H1.
  set (g1 := update_entities g0) in *.
  destruct H1 as (E1 & D1 & L1 & S1 & R1 & V1 & P1 & C1).
  pose proof (next_wave_frame g1) as H2. cbv zeta in H2.
  set (g1' := next_wave_if_cleared g1) in *.
  destruct H2 as (P2 & B2 & S2 & R2 & W2).
  pose proof (advance_spec _ _ Ha) as (P3 & B3 & L3 & S3 & R3 & _ & _).
  pose proof (handle_collisions_frame g2) as H4. cbv zeta in H4.
  destruct H4 as (V4 & S4 & L4 & R4 & P4 & C4 & E4).
  assert (Hlevel : level g <= level g1' /\ 1 <= level g1').
  { destruct W2 as [(_ & Hl & _)|(_ & Hg)]; [rewrite Hl | rewrite Hg]; lia. }
  assert (Hspeed1 : Forall (fun e => 1 <= Enemy.speed e) (enemies g1')).
  { destruct W2 as [(_ & Hl & He & _)|(_ & Hg)].
    - rewrite He. apply spawn_grid_speed_ge. lia.
    - rewrite Hg, E1, E0. exact Hsp. }
  assert (Hspeed2 : Forall (fun e => 1 <= Enemy.speed e) (enemies g2))
    by (eapply advance_speed_ge; eassumption).
  assert (Hplace : player_in_place (player g2)).
  { rewrite P3, P2. unfold player_in_place in *. rewrite P1. apply P0. exact Hp. }
  assert (Hlives : Player.lives (player g2) = Player.lives (player g))
    by (rewrite P3, P2, V1, V0; reflexivity).
  assert (Hcool : 0 <= Player.cooldown (player g2))
    by (rewrite P3, P2; auto).
  assert (Hrun2 : running g2 = true -> running g = true)
    by (rewrite R3, R2, R1; exact R0).
  unfold invariant. split; [auto|].
  split; [specialize (Hl1 Hrun); destruct V4 as [V4|[V4 _]]; lia|].
  split.
  { intros Hr'. specialize (Hl1 Hrun).
    destruct V4 as [V4|[V4 V4']]; [lia | specialize (V4' Hr'); lia]. }
  split; [auto|]. split; [lia|]. split; [lia|].
  destruct E4 as [E4|E4].
  - apply Forall_forall. intros e He. apply E4 in He.
    revert e He. apply Forall_forall. exact Hspeed2.
  - rewrite E4. apply spawn_grid_speed_ge. lia.
Qed.

Lemma init_invariant : invariant __init__.
Proof.
  unfold invariant, player_in_place.
  repeat split; intros; try (vm_compute; congruence).
  change (enemies __init__) with (spawn_grid 1).
  apply spawn_grid_speed_ge. lia.
Qed.

Lemma reachable_invariant (g : SpaceInvaders.t) : reachable g -> invariant g.
Proof.
  induction 1 as [|g g' inp _ IH Hrun Ht]; [apply init_invariant|].
  eapply tick_invariant; eassumption.
Qed.

(** [run] only passes through reachable states. *)
Lemma run_reachable (inputs : list Input) :
  forall g g', reachable g -> run inputs g = Some g' -> reachable g'.
Proof.
  induction inputs as [|inp rest IH]; intros g g' Hg Hr; cbn [run] in Hr.
  - injection Hr as <-. exact Hg.
  - destruct (running g) eqn:Hrun; [|injection Hr as <-; exact Hg].
    destruct (tick inp g) as [g1|] eqn:Ht; cbn [bind] in Hr; [|discriminate].
    apply (IH g1); [|exact Hr]. eapply reachable_tick; eassumption.
Qed.

(** A frame returns whenever no enemy's speed is out of the floats' range. *)
Lemma tick_total (inp : Input) (g : SpaceInvaders.t) :
  speeds_in_range (enemies g) -> exists g', tick inp g = Some g'.
Proof.
  intros Hs. unfold tick, _update.
  pose proof (handle_events_frame inp g) as H0. cbv zeta in H0.
  set (g0 := _handle_events inp g) in *.
  destruct H0 as (E0 & _).
  pose proof (update_entities_frame g0) as H1. cbv zeta in H1.
  set (g1 := update_entities g0) in *.
  destruct H1 as (E1 & _).
  pose proof (next_wave_frame g1) as H2. cbv zeta in H2.
  set (g1' := next_wave_if_cleared g1) in *.
  destruct H2 as (_ & _ & _ & _ & W2).
  destruct (advance_total g1') as [g2 ->]; [|cbn [bind]; eexists; reflexivity].
  destruct W2 as [(_ & _ & He & Hd)|(_ & Hg)].
  - right. unfold turn, leftmost, rightmost. rewrite He, Hd. reflexivity.
  - left. rewrite Hg, E1, E0. exact Hs.
Qed.

(** ** The sample states are states of play *)

Lemma cleared_state_run : run clearing_inputs __init__ = Some cleared_state.
Proof. vm_compute. reflexivity. Qed.

Lemma edge_state_run : run (repeat idle 160) __init__ = Some edge_state.
Proof. vm_compute. reflexivity. Qed.

Lemma before_hit_state_run :
  run (fire :: repeat idle 36) __init__ = Some before_hit_state.
Proof. vm_compute. reflexivity. Qed.

Lemma cleared_state_reachable : reachable cleared_state.
Proof. exact (run_reachable _ _ _ reachable_init cleared_state_run). Qed.

Lemma edge_state_reachable : reachable edge_state.
Proof. exact (run_reachable _ _ _ reachable_init edge_state_run). Qed.

Lemma before_hit_state_reachable : reachable before_hit_state.
Proof. exact (run_reachable _ _ _ reachable_init before_hit_state_run). Qed.

(** ** Lives *)

Lemma run_stopped (inputs : list Input) (g : SpaceInvaders.t) :
  running g = false -> run inputs g = Some g.
Proof. intros H. destruct inputs; cbn [run]; [|rewrite H]; reflexivity. Qed.

(** What a frame does to the lives, whenever it returns. *)
Lemma tick_lives (inp : Input) (g g' : SpaceInvaders.t) :
  tick inp g = Some g' ->
  Player.lives (player g') = Player.lives (player g)
  \/ (Player.lives (player g') = Player.lives (player g) - 1
      /\ (running g' = true -> 1 < Player.lives (player g))).
Proof.
  intros Ht. destruct (tick_steps _ _ _ Ht) as (g2 & Ha & ->).
  pose proof (handle_events_frame inp g) as H0. cbv zeta in H0.
  destruct H0 as (_ & _ & _ & _ & V0 & _).
  pose proof (update_entities_frame (_handle_events inp g)) as H1. cbv zeta in H1.
  destruct H1 as (_ & _ & _ & _ & _ & V1 & _).
  pose proof (next_wave_frame (update_entities (_handle_events inp g))) as H2.
  cbv zeta in H2. destruct H2 as (P2 & _).
  pose proof (advance_spec _ _ Ha) as (P3 & _).
  pose proof (handle_collisions_frame g2) as H4. cbv zeta in H4.
  destruct H4 as (V4 & _).
  assert (Hlives : Player.lives (player g2) = Player.lives (player g))
    by (rewrite P3, P2, V1, V0; reflexivity).
  rewrite Hlives in V4. exact V4.
Qed.

(** The loop over the enemies takes a life exactly when the list of the
    enemies that threaten the player is not empty. *)
Lemma existsb_filter {A : Type} (f : A -> bool) (l : list A) :
  existsb f l = match filter f l with [] => false | _ :: _ => true end.
Proof.
  induction l as [|a l IH]; cbn [existsb filter]; [reflexivity|].
  destruct (f a); cbn [orb]; [reflexivity | exact IH].
Qed.

(** A frame up to its collisions: the state [g2] that the advance leaves,
    what the loop over the bullets returns on it, and the state at the end of
    the frame, which is that of the bullet loop unless an enemy left by it
    threatens the player, in which case [_lose_life] is called once. *)
Lemma tick_collisions (inp : Input) (g g' : SpaceInvaders.t) :
  tick inp g = Some g' ->
  exists g2 bs es sc,
    advance (next_wave_if_cleared (update_entities (_handle_events inp g))) = Some g2
    /\ bullets_vs_enemies (bullets g2) (enemies g2) (score g2) = (bs, es, sc)
    /\ Player.lives (player g2) = Player.lives (player g)
    /\ score g2 = score g
    /\ Forall (fun b => Bullet.active b = true) (bullets g2)
    /\ g' = (let g1 := SpaceInvaders.mk (player g2) bs es (enemy_direction g2)
                                        (level g2) sc (running g2) in
             if existsb (threatens (player g2)) es then _lose_life g1 else g1).
Proof.
  intros Ht. destruct (tick_steps _ _ _ Ht) as (g2 & Ha & ->).
  exists g2. rewrite handle_collisions_spec.
  destruct (bullets_vs_enemies (bullets g2) (enemies g2) (score g2)) as [[bs es] sc].
  exists bs, es, sc. split; [exact Ha|]. split; [reflexivity|].
  pose proof (handle_events_frame inp g) as H0. cbv zeta in H0.
  destruct H0 as (_ & _ & _ & S0 & V0 & _).
  pose proof (update_entities_frame (_handle_events inp g)) as H1. cbv zeta in H1.
  destruct H1 as (_ & _ & _ & S1 & _ & V1 & _).
  pose proof (next_wave_frame (update_entities (_handle_events inp g))) as H2.
  cbv zeta in H2. destruct H2 as (P2 & B2 & S2 & _).
  pose proof (advance_spec _ _ Ha) as (P3 & B3 & _ & S3 & _).
  split; [rewrite P3, P2, V1, V0; reflexivity|].
  split; [rewrite S3, S2, S1, S0; reflexivity|].
  split; [|reflexivity].
  rewrite B3, B2. unfold update_entities. fields.
  apply Forall_forall. intros b Hb. apply filter_In in Hb. tauto.
Qed.

(** Over any number of frames from a reachable state the lives never grow
    and never become negative. *)
Lemma run_lives (inputs : list Input) :
  forall g g', reachable g -> run inputs g = Some g' ->
    0 <= Player.lives (player g') <= Player.lives (player g).
Proof.
  induction inputs as [|inp rest IH]; intros g g' Hg Hr; cbn [run] in Hr.
  - injection Hr as <-. pose proof (reachable_invariant g Hg) as (_ & Hl & _). lia.
  - destruct (running g) eqn:Hrun.
    + destruct (tick inp g) as [g1|] eqn:Ht; cbn [bind] in Hr; [|discriminate].
      assert (Hg1 : reachable g1) by (eapply reachable_tick; eassumption).
      specialize (IH _ _ Hg1 Hr).
      destruct (tick_lives _ _ _ Ht) as [E|[E _]]; lia.
    + injection Hr as <-. pose proof (reachable_invariant g Hg) as (_ & Hl & _). lia.
Qed.

(** C4. In every reachable state the lives are not negative. A frame from a
    reachable running state never adds a life, takes at most one and leaves
    the lives non-negative. It takes one exactly when, in the state [g2] that
    the formation's advance leaves, some enemy left by the loop over the
    bullets threatens the player (overlaps it or has reached the danger
    line): the lives at the end of the frame are the lives at its start
    minus one, whatever the number of threatening enemies, and the lives at
    its start otherwise; the score at the end of the frame is the one the
    bullet loop returns, with or without a life lost. When the frame takes
    the last life, [running] is false afterwards, so [run] executes no
    further frame and the state, with its score, stays as it is. The frame
    itself returns whenever the enemies' speeds are within the floats' range.
    The loop over the enemies calls [_lose_life] once if any enemy threatens
    the player; [_lose_life] on the last life sets [running] to false and
    keeps the score; over any number of frames the lives never grow and
    never become negative. *)
Theorem C4_lives (g : SpaceInvaders.t) :
  reachable g ->
  0 <= Player.lives (player g)
  /\ (forall inp g', running g = true -> tick inp g = Some g' ->
        Player.lives (player g) - 1 <= Player.lives (player g') <= Player.lives (player g)
        /\ 0 <= Player.lives (player g')
        /\ (Player.lives (player g') < Player.lives (player g) ->
            Player.lives (player g) = 1 ->
            running g' = false
            /\ forall inputs, run inputs g' = Some g')
        /\ exists g2 bs es sc,
             advance (next_wave_if_cleared (update_entities (_handle_events inp g)))
             = Some g2
             /\ bullets_vs_enemies (bullets g2) (enemies g2) (score g2) = (bs, es, sc)
             /\ Player.lives (player g')
                = Player.lives (player g)
                  - (if existsb (threatens (player g2)) es then 1 else 0)
             /\ (forall n, length (filter (threatens (player g2)) es) = S n ->
                   Player.lives (player g') = Player.lives (player g) - 1)
             /\ (filter (threatens (player g2)) es = [] ->
                   Player.lives (player g') = Player.lives (player g))
             /\ score g' = sc)
  /\ (forall inp, speeds_in_range (enemies g) -> exists g', tick inp g = Some g')
  /\ (forall es g0,
        enemies_vs_player es g0
        = if existsb (threatens (player g0)) es then _lose_life g0 else g0)
  /\ (forall g0, Player.lives (player g0) = 1 ->
        running (_lose_life g0) = false
        /\ Player.lives (player (_lose_life g0)) = 0
        /\ score (_lose_life g0) = score g0)
  /\ (forall inputs g0, running g0 = false ->
        run inputs g0 = Some g0)
  /\ (forall inputs g', run inputs g = Some g' ->
        0 <= Player.lives (player g') <= Player.lives (player g)).
Proof.
  intros Hreach. pose proof (reachable_invariant g Hreach) as Hinv.
  destruct Hinv as (_ & Hl0 & Hl1 & _).
  split; [exact Hl0|]. split.
  { intros inp g' Hrun Ht. specialize (Hl1 Hrun).
    assert (Hinv' : invariant g')
      by (eapply tick_invariant; [apply reachable_invariant| |]; eassumption).
    destruct Hinv' as (_ & Hl0' & _).
    assert (Hold : Player.lives (player g) - 1 <= Player.lives (player g')
                   <= Player.lives (player g)
                   /\ (Player.lives (player g') < Player.lives (player g) ->
                       Player.lives (player g) = 1 -> running g' = false)).
    { destruct (tick_lives _ _ _ Ht) as [E|[E Hr]]; (split; [lia|]); intros Hlt H1.
      - lia.
      - destruct (running g') eqn:Er; [specialize (Hr eq_refl); lia | reflexivity]. }
    destruct Hold as (Hb & Hlast).
    split; [exact Hb|]. split; [exact Hl0'|]. split.
    { intros Hlt H1. split; [exact (Hlast Hlt H1)|].
      intros inputs. apply run_stopped. exact (Hlast Hlt H1). }
    destruct (tick_collisions _ _ _ Ht) as (g2 & bs & es & sc & Ha & Hbv & Hl2 & _ & _ & Hg').
    exists g2, bs, es, sc. split; [exact Ha|]. split; [exact Hbv|].
    cbv zeta in Hg'.
    assert (Hloss : Player.lives (player g')
                    = Player.lives (player g)
                      - (if existsb (threatens (player g2)) es then 1 else 0)
                    /\ score g' = sc).
    { destruct (existsb (threatens (player g2)) es).
      - match type of Hg' with _ = _lose_life ?g1 =>
          pose proof (lose_life_frame g1) as HL end.
        cbv zeta in HL. rewrite <- Hg' in HL. fields.
        destruct HL as (HLl & HLs & _). rewrite HLl, HLs, Hl2. split; reflexivity.
      - rewrite Hg'. fields. split; [lia | reflexivity]. }
    destruct Hloss as (Hloss & Hsc).
    split; [exact Hloss|]. split.
    { intros n Hn. rewrite Hloss, existsb_filter.
      destruct (filter (threatens (player g2)) es); [discriminate | reflexivity]. }
    split; [|exact Hsc].
    intros Hnil. rewrite Hloss, existsb_filter, Hnil. lia. }
  split; [intros inp Hs; apply tick_total; exact Hs|].
  split; [exact enemies_vs_player_spec|].
  split.
  { intros g0 H1. rewrite lose_life_last by lia. fields. rewrite H1. repeat split. }
  split; [exact run_stopped|].
  intros inputs g' Hr. exact (run_lives inputs g g' Hreach Hr).
Qed.

Lemma init_speeds_in_range : speeds_in_range (enemies __init__).
Proof.
  unfold speeds_in_range. change (enemies __init__) with (spawn_grid 1).
  eapply Forall_impl; [|apply spawn_grid_speed].
  intros e ->. change (ENEMY_SPEED + (1 - 1)) with 1.
  split; [lia | apply Z.pow_gt_1; lia].
Qed.

Lemma last_life_state_run : run (repeat idle 2711) __init__ = Some last_life_state.
Proof. vm_compute. reflexivity. Qed.

Lemma last_life_state_reachable : reachable last_life_state.
Proof. exact (run_reachable _ _ _ reachable_init last_life_state_run). Qed.

(** The frame without input from [last_life_state]. *)
Lemma last_life_frame : tick idle last_life_state = Some game_over_state.
Proof. vm_compute. reflexivity. Qed.

(** In that frame no bullet is in flight, and the eight enemies of the
    bottom row reach the danger line together. *)
Lemma last_life_frame_threats :
  exists g2 es,
    advance (next_wave_if_cleared (update_entities (_handle_events idle last_life_state)))
    = Some g2
    /\ bullets_vs_enemies (bullets g2) (enemies g2) (score g2) = ([], es, 0)
    /\ length (filter (threatens (player g2)) es) = 8%nat.
Proof.
  eexists. eexists. split; [vm_compute; reflexivity|].
  split; vm_compute; reflexivity.
Qed.

(** C4 at [last_life_state], a state of play with one life left, and the
    frame without input from it, in which eight enemies reach the danger line:
    one life is taken, it is the last one, [running] is false afterwards and
    no input changes the state any more. *)
Lemma C4_lives_witness :
  reachable last_life_state
  /\ running last_life_state = true
  /\ tick idle last_life_state = Some game_over_state
  /\ Player.lives (player game_over_state) < Player.lives (player last_life_state)
  /\ Player.lives (player last_life_state) = 1
  /\ running game_over_state = false
  /\ (forall inputs, run inputs game_over_state = Some game_over_state).
Proof.
  split; [exact last_life_state_reachable|].
  split; [reflexivity|].
  split; [exact last_life_frame|].
  assert (Hlt : Player.lives (player game_over_state)
                < Player.lives (player last_life_state)) by reflexivity.
  split; [exact Hlt|].
  split; [reflexivity|].
  exact (proj1 (proj2 (proj2
           (proj1 (proj2 (C4_lives last_life_state last_life_state_reachable))
                  idle game_over_state eq_refl last_life_frame)))
               Hlt eq_refl).
Defined.

(** ** Score *)

Lemma tick_score (inp : Input) (g g' : SpaceInvaders.t) :
  tick inp g = Some g' -> score g <= score g'.
Proof.
  intros Ht. destruct (tick_steps _ _ _ Ht) as (g2 & Ha & ->).
  pose proof (handle_events_frame inp g) as H0. cbv zeta in H0.
  destruct H0 as (_ & _ & _ & S0 & _).
  pose proof (update_entities_frame (_handle_events inp g)) as H1. cbv zeta in H1.
  destruct H1 as (_ & _ & _ & S1 & _).
  pose proof (next_wave_frame (update_entities (_handle_events inp g))) as H2.
  cbv zeta in H2. destruct H2 as (_ & _ & S2 & _).
  pose proof (advance_spec _ _ Ha) as (_ & _ & _ & S3 & _).
  pose proof (handle_collisions_frame g2) as H4. cbv zeta in H4.
  destruct H4 as (_ & S4 & _).
  rewrite S3, S2, S1, S0 in S4. exact S4.
Qed.

Lemma run_score (inputs : list Input) :
  forall g g', run inputs g = Some g' -> score g <= score g'.
Proof.
  induction inputs as [|inp rest IH]; intros g g' Hr; cbn [run] in Hr.
  - injection Hr as <-. lia.
  - destruct (running g); [|injection Hr as <-; lia].
    destruct (tick inp g) as [g1|] eqn:Ht; cbn [bind] in Hr; [|discriminate].
    pose proof (tick_score _ _ _ Ht). pose proof (IH _ _ Hr). lia.
Qed.

(** C5. The loop of [_handle_collisions] over the bullets. For the bullet
    at the head of the list: if it overlaps an enemy, the first overlapping
    enemy of the list (none before it is overlapped) is the one removed, all
    other enemies stay in their order, the score grows by 10, the bullet is
    deactivated, and the loop goes on with the next bullet; if it overlaps
    none, nothing changes for it. Over the whole loop every bullet stays in
    the list and is at most deactivated, the enemies left are enemies that
    were there, no more enemies are removed than there are bullets, the
    score grows by exactly 10 per enemy removed, and (the bullets being all
    active before, as the filter of [_update] leaves them) the deactivated
    bullets are exactly as many as the removed enemies.

    That loop is the one the game runs. [_handle_collisions] puts the
    bullets, the enemies and the score that it returns on the game's own
    lists and score into the game, and then runs the loop over the enemies:
    its score is the score before plus 10 per enemy removed, and its bullets
    and enemies are those of the loop unless a life is lost with lives to
    spare, which empties the bullet list and respawns the wave. In a frame
    the loop runs on the state [g2] that the formation's advance leaves,
    whose bullets are all active and whose score is that of the start of the
    frame: the frame adds to the score 10 per enemy removed and nothing else,
    and as many bullets are deactivated as enemies are removed.
    [_handle_collisions], a whole frame and any number of frames of [run]
    never lower the score. *)
Theorem C5_bullet_enemy_collisions :
  (forall b bs es sc e,
      first_hit b es = Some e ->
      exists l1 l2,
        es = l1 ++ e :: l2
        /\ Forall (fun a => Rect.colliderect (Bullet.rect b) (Enemy.rect a) = false) l1
        /\ Rect.colliderect (Bullet.rect b) (Enemy.rect e) = true
        /\ bullets_vs_enemies (b :: bs) es sc
           = (let '(bs', es', sc') := bullets_vs_enemies bs (l1 ++ l2) (sc + 10) in
              (Bullet.mk (Bullet.rect b) (Bullet.speed b) false :: bs', es', sc')))
  /\ (forall b bs es sc,
        first_hit b es = None ->
        Forall (fun a => Rect.colliderect (Bullet.rect b) (Enemy.rect a) = false) es
        /\ bullets_vs_enemies (b :: bs) es sc
           = (let '(bs', es', sc') := bullets_vs_enemies bs es sc in
              (b :: bs', es', sc')))
  /\ (forall bs es sc,
        let '(bs', es', sc') := bullets_vs_enemies bs es sc in
        Forall2 (fun b b' => b' = b \/ b' = Bullet.deactivate b) bs bs'
        /\ incl es' es
        /\ (length es' <= length es)%nat
        /\ (length es - length es' <= length bs)%nat
        /\ sc' = sc + 10 * (Z.of_nat (length es) - Z.of_nat (length es')))
  /\ (forall bs es sc,
        Forall (fun b => Bullet.active b = true) bs ->
        let '(bs', es', sc') := bullets_vs_enemies bs es sc in
        (length (filter (fun b => negb (Bullet.active b)) bs') + length es'
         = length es)%nat)
  /\ (forall g bs es sc,
        bullets_vs_enemies (bullets g) (enemies g) (score g) = (bs, es, sc) ->
        let g' := _handle_collisions g in
        score g' = sc
        /\ score g' = score g + 10 * (Z.of_nat (length (enemies g)) - Z.of_nat (length es))
        /\ (existsb (threatens (player g)) es = false \/ Player.lives (player g) <= 1 ->
            bullets g' = bs /\ enemies g' = es)
        /\ (existsb (threatens (player g)) es = true -> 1 < Player.lives (player g) ->
            bullets g' = [] /\ enemies g' = spawn_grid (level g)))
  /\ (forall inp g g',
        tick inp g = Some g' ->
        exists g2 bs es sc,
          advance (next_wave_if_cleared (update_entities (_handle_events inp g)))
          = Some g2
          /\ bullets_vs_enemies (bullets g2) (enemies g2) (score g2) = (bs, es, sc)
          /\ g' = _handle_collisions g2
          /\ score g' = score g + 10 * (Z.of_nat (length (enemies g2)) - Z.of_nat (length es))
          /\ (length (filter (fun b => negb (Bullet.active b)) bs) + length es
              = length (enemies g2))%nat
          /\ (existsb (threatens (player g2)) es = false \/ Player.lives (player g2) <= 1 ->
              bullets g' = bs /\ enemies g' = es)
          /\ (existsb (threatens (player g2)) es = true -> 1 < Player.lives (player g2) ->
              bullets g' = [] /\ enemies g' = spawn_grid (level g2)))
  /\ (forall g, score g <= score (_handle_collisions g))
  /\ (forall inp g g', tick inp g = Some g' -> score g <= score g')
  /\ (forall inputs g g', run inputs g = Some g' -> score g <= score g').
Proof.
  assert (Hgame : forall g bs es sc,
             bullets_vs_enemies (bullets g) (enemies g) (score g) = (bs, es, sc) ->
             score (_handle_collisions g) = sc
             /\ score (_handle_collisions g)
                = score g + 10 * (Z.of_nat (length (enemies g)) - Z.of_nat (length es))
             /\ (existsb (threatens (player g)) es = false \/ Player.lives (player g) <= 1 ->
                 bullets (_handle_collisions g) = bs /\ enemies (_handle_collisions g) = es)
             /\ (existsb (threatens (player g)) es = true -> 1 < Player.lives (player g) ->
                 bullets (_handle_collisions g) = []
                 /\ enemies (_handle_collisions g) = spawn_grid (level g))).
  { intros g bs es sc Hb. rewrite handle_collisions_spec.
    pose proof (bullets_vs_enemies_spec (bullets g) (enemies g) (score g)) as Hs.
    rewrite Hb in *. destruct Hs as (_ & _ & _ & _ & Hsc). cbv zeta.
    destruct (existsb (threatens (player g)) es) eqn:Et.
    - destruct (Z_le_gt_dec (Player.lives (player g)) 1) as [Hle|Hgt].
      + rewrite lose_life_last by exact Hle. fields.
        split; [reflexivity|]. split; [exact Hsc|].
        split; [intros _; split; reflexivity | intros _ Hlt; lia].
      + rewrite lose_life_spare by (fields; lia). fields.
        split; [reflexivity|]. split; [exact Hsc|].
        split; [intros [Hf|Hle]; [discriminate | lia] | intros _ _; split; reflexivity].
    - fields. split; [reflexivity|]. split; [exact Hsc|].
      split; [intros _; split; reflexivity | discriminate]. }
  split.
  { intros b bs es sc e Hh.
    destruct (first_hit_Some _ _ _ Hh) as (l1 & l2 & Hes & Hl1 & He & Hrm).
    exists l1, l2. repeat (split; [assumption|]).
    cbn [bullets_vs_enemies]. rewrite Hh, Hrm. reflexivity. }
  split.
  { intros b bs es sc Hh. split; [apply first_hit_None; exact Hh|].
    cbn [bullets_vs_enemies]. rewrite Hh. reflexivity. }
  split; [intros bs es sc; apply bullets_vs_enemies_spec|].
  split; [intros bs es sc; apply bullets_vs_enemies_hits|].
  split; [exact Hgame|].
  split.
  { intros inp g g' Ht.
    destruct (tick_collisions _ _ _ Ht) as (g2 & bs & es & sc & Ha & Hbv & _ & Hs2 & Hact & _).
    destruct (tick_steps _ _ _ Ht) as (g2' & Ha' & Hg').
    assert (g2' = g2) by congruence. subst g2'.
    exists g2, bs, es, sc. split; [exact Ha|]. split; [exact Hbv|].
    split; [exact Hg'|]. rewrite Hg'.
    destruct (Hgame g2 bs es sc Hbv) as (_ & Hsc & Hkeep & Hclear).
    split; [rewrite Hsc, Hs2; reflexivity|].
    split; [|split; assumption].
    pose proof (bullets_vs_enemies_hits (bullets g2) (enemies g2) (score g2) Hact) as Hh.
    rewrite Hbv in Hh. exact Hh. }
  split.
  { intros g. pose proof (handle_collisions_frame g) as H. cbv zeta in H. tauto. }
  split; [exact tick_score | exact run_score].
Qed.

(** ** Speeds *)

(** C9. [math.ceil(speed * ENEMY_DROP_SPEED_MULTIPLIER)] for a speed of at
    least 1: whenever it returns, the result is strictly above the speed, and
    it returns for every speed below 2^1000 (beyond the floats' range Python
    raises [OverflowError]). In a frame of play in which the formation drops,
    every enemy's speed after the advance is therefore strictly above its
    speed before. A wave spawned at level [L + 1] starts with every enemy
    exactly 1 faster than the wave spawned at level [L], whose speed is
    [ENEMY_SPEED + L - 1], and the respawn after a cleared wave is at the
    level plus one. *)
Theorem C9_speed_increases :
  (forall s, 1 <= s ->
      (forall s', drop_speed s = Some s' -> s < s')
      /\ (s < 2 ^ 1000 -> exists s', drop_speed s = Some s' /\ s < s'))
  /\ (forall g inp g2,
        reachable g ->
        let g1 := next_wave_if_cleared (update_entities (_handle_events inp g)) in
        fst (turn g1) = true ->
        advance g1 = Some g2 ->
        Forall2 (fun e e' => Enemy.speed e < Enemy.speed e') (enemies g1) (enemies g2))
  /\ (forall L e e',
        In e (spawn_grid L) -> In e' (spawn_grid (L + 1)) ->
        Enemy.speed e = ENEMY_SPEED + L - 1 /\ Enemy.speed e' = Enemy.speed e + 1)
  /\ (forall g, enemies g = [] ->
        level (next_wave_if_cleared g) = level g + 1
        /\ enemies (next_wave_if_cleared g) = spawn_grid (level g + 1)).
Proof.
  split.
  { intros s Hs. split.
    - intros s' E. destruct (drop_speed_pos s Hs) as [[Hn _]|(s'' & E' & Hlt)];
        [congruence | rewrite E in E'; injection E' as <-; exact Hlt].
    - intros Hlt. destruct (drop_speed_pos s Hs) as [[_ Hbig]|H]; [lia | exact H]. }
  split.
  { intros g inp g2 Hreach g1 Hturn Ha.
    pose proof (reachable_invariant g Hreach) as (_ & _ & _ & _ & Hlv & _ & Hsp).
    pose proof (handle_events_frame inp g) as H0. cbv zeta in H0.
    destruct H0 as (E0 & _ & L0 & _).
    pose proof (update_entities_frame (_handle_events inp g)) as H1. cbv zeta in H1.
    destruct H1 as (E1 & _ & L1 & _).
    pose proof (next_wave_frame (update_entities (_handle_events inp g))) as H2.
    cbv zeta in H2. fold g1 in H2. destruct H2 as (_ & _ & _ & _ & W2).
    assert (Hspeed1 : Forall (fun e => 1 <= Enemy.speed e) (enemies g1)).
    { destruct W2 as [(_ & Hl & He & _)|(_ & Hg)].
      - rewrite He. apply spawn_grid_speed_ge. lia.
      - rewrite Hg, E1, E0. exact Hsp. }
    pose proof (advance_spec _ _ Ha) as (_ & _ & _ & _ & _ & _ & H2).
    rewrite Hturn in H2. clear - H2 Hspeed1.
    induction H2 as [|e e' es es' [_ Hs] _ IH]; [constructor|].
    inversion Hspeed1; subst. constructor; [|apply IH; assumption].
    destruct (drop_speed_pos (Enemy.speed e)) as [[Hn _]|(s' & Hs' & Hlt)];
      [assumption | congruence | ].
    rewrite Hs in Hs'. injection Hs' as <-. exact Hlt. }
  split.
  { intros L e e' He He'.
    pose proof (spawn_grid_speed L) as HL. pose proof (spawn_grid_speed (L + 1)) as HL'.
    rewrite Forall_forall in HL, HL'. rewrite (HL e He), (HL' e' He'). lia. }
  intros g Hg. pose proof (next_wave_frame g) as H. cbv zeta in H.
  destruct H as (_ & _ & _ & _ & [(_ & Hl & He & _)|(Hne & _)]); [tauto | contradiction].
Qed.

(** ** The drop *)

(** C2, as stated, fails at [edge_state], a state of play in which the
    formation heads right with its rightmost edge at [WIDTH - 10]: the frame
    is a drop, and the first enemy goes from x = 330 to x = 329, one speed
    unit in the flipped direction, not to 331; so does every enemy. *)
Lemma C2_counterexample :
  enemy_direction edge_state = 1
  /\ rightmost edge_state = WIDTH - 10
  /\ fst (turn edge_state) = true
  /\ nth_error (enemies edge_state) 0 = Some (Enemy.mk (Rect.mk 330 50 40 30) 1)
  /\ exists g',
       tick idle edge_state = Some g'
       /\ enemy_direction g' = -1
       /\ nth_error (enemies g') 0 = Some (Enemy.mk (Rect.mk 329 70 40 30) 2)
       /\ 329 <> 330 + 1 * enemy_direction edge_state
       /\ forallb (fun '(e, e') =>
                     (Rect.x (Enemy.rect e') =? Rect.x (Enemy.rect e) - Enemy.speed e)
                     && negb (Rect.x (Enemy.rect e')
                              =? Rect.x (Enemy.rect e)
                                 + Enemy.speed e * enemy_direction edge_state))
                  (combine (enemies edge_state) (enemies g')) = true.
Proof.
  repeat (split; [reflexivity|]).
  eexists. split; [vm_compute; reflexivity|].
  repeat (split; [reflexivity|]).
  split; [discriminate | vm_compute; reflexivity].
Qed.

(** C2, amended. On a drop frame the direction is flipped before the
    horizontal move: the new direction is -1 at the right margin and +1 at the
    left margin, and whenever [advance] returns, every enemy has moved
    horizontally by its speed of before the drop times the new direction, has
    moved down by [ENEMY_VERTICAL_STEP], and has the speed
    [math.ceil(speed * ENEMY_DROP_SPEED_MULTIPLIER)]. [advance] returns
    whenever the speeds are within the floats' range. *)
Theorem C2_drop_frame (g : SpaceInvaders.t) :
  (rightmost g >= WIDTH - 10 /\ enemy_direction g > 0)
  \/ (leftmost g <= 10 /\ enemy_direction g < 0) ->
  fst (turn g) = true
  /\ (enemy_direction g > 0 -> snd (turn g) = -1)
  /\ (enemy_direction g < 0 -> snd (turn g) = 1)
  /\ (forall g', advance g = Some g' ->
        enemy_direction g' = snd (turn g)
        /\ Forall2 (fun e e' =>
                      Rect.x (Enemy.rect e')
                      = Rect.x (Enemy.rect e) + Enemy.speed e * enemy_direction g'
                      /\ Rect.y (Enemy.rect e')
                         = Rect.y (Enemy.rect e) + ENEMY_VERTICAL_STEP
                      /\ Rect.width (Enemy.rect e') = Rect.width (Enemy.rect e)
                      /\ Rect.height (Enemy.rect e') = Rect.height (Enemy.rect e)
                      /\ drop_speed (Enemy.speed e) = Some (Enemy.speed e'))
                   (enemies g) (enemies g'))
  /\ (speeds_in_range (enemies g) -> exists g', advance g = Some g').
Proof.
  intros Hedge.
  assert (Hturn : fst (turn g) = true
                  /\ (enemy_direction g > 0 -> snd (turn g) = -1)
                  /\ (enemy_direction g < 0 -> snd (turn g) = 1)).
  { destruct (turn_cases g) as [(E & _ & Hd)|[(E & _ & Hd)|(E & Hn1 & Hn2)]];
      rewrite E; cbn [fst snd]; [repeat split; lia | repeat split; lia | tauto]. }
  destruct Hturn as (Ht & Hr & Hl).
  repeat (split; [assumption|]). split.
  - intros g' Ha. pose proof (advance_spec _ _ Ha) as (_ & _ & _ & _ & _ & Hd & H2).
    split; [exact Hd|]. rewrite Hd. rewrite Ht in H2.
    eapply Forall2_impl; [|exact H2].
    intros e e' [Hrect Hs]. cbv beta in *. rewrite Hrect. fields. repeat split. exact Hs.
  - intros Hs. apply advance_total. left; exact Hs.
Qed.

Lemma one_in_range : 0 <= 1 < 2 ^ 1000.
Proof. split; [lia | apply Z.pow_gt_1; lia]. Qed.

Lemma marched_speed (n : Z) : Forall (fun e => Enemy.speed e = 1) (marched n).
Proof.
  apply Forall_forall. intros e He. unfold marched in He.
  apply in_flat_map in He. destruct He as (row & _ & He).
  apply in_map_iff in He. destruct He as (col & <- & _). reflexivity.
Qed.

Lemma marched_speeds_in_range (n : Z) : speeds_in_range (marched n).
Proof.
  unfold speeds_in_range. eapply Forall_impl; [|apply marched_speed].
  intros e ->. exact one_in_range.
Qed.

(** C2, amended, at [edge_state]: the frame is a drop, the new direction is
    -1 and [advance] returns. *)
Lemma C2_drop_frame_witness :
  (rightmost edge_state >= WIDTH - 10 /\ enemy_direction edge_state > 0)
  /\ fst (turn edge_state) = true
  /\ snd (turn edge_state) = -1
  /\ exists g', advance edge_state = Some g'.
Proof.
  assert (H : rightmost edge_state >= WIDTH - 10 /\ enemy_direction edge_state > 0)
    by (split; vm_compute; [discriminate | reflexivity]).
  split; [exact H|].
  split; [exact (proj1 (C2_drop_frame edge_state (or_introl H)))|].
  split; [exact (proj1 (proj2 (C2_drop_frame edge_state (or_introl H))) (proj2 H))|].
  exact (proj2 (proj2 (proj2 (proj2 (C2_drop_frame edge_state (or_introl H)))))
               (marched_speeds_in_range 160)).
Defined.

(** ** The frame in which a wave is spawned *)

(** C1, as stated, fails at [cleared_state], the state of play reached by
    shooting the whole first wave: the frame that starts there raises the
    level to 2, spawns the 32 enemies of the new wave and, in the same frame,
    advances them by their speed 2, so the first enemy ends the frame at
    x = 172 while its spawn position is x = 170, and no enemy of the list is
    an enemy of the spawn grid. *)
Lemma C1_counterexample :
  enemies cleared_state = []
  /\ exists g',
       tick idle cleared_state = Some g'
       /\ level g' = level cleared_state + 1
       /\ length (enemies g') = 32%nat
       /\ nth_error (spawn_grid (level g')) 0 = Some (Enemy.mk (Rect.mk 170 50 40 30) 2)
       /\ nth_error (enemies g') 0 = Some (Enemy.mk (Rect.mk 172 50 40 30) 2)
       /\ forallb (fun e => negb (existsb (Enemy.eqb e) (spawn_grid (level g'))))
                  (enemies g') = true.
Proof.
  split; [reflexivity|].
  eexists. split; [vm_compute; reflexivity|].
  repeat (split; [reflexivity|]). vm_compute. reflexivity.
Qed.

(** No enemy of a wave that has just been spawned and advanced once
    threatens a player on its row. *)
Lemma fresh_wave_no_threat (p : Player.t) (lvl : Z) (e : Enemy.t) :
  player_in_place p ->
  In e (map (move_enemy 1) (spawn_grid lvl)) ->
  threatens p e = false.
Proof.
  intros (Hy & Hw & Hh) He. apply in_map_iff in He. destruct He as (e0 & <- & He0).
  apply spawn_grid_In in He0. destruct He0 as (row & col & Hr & Hc & ->).
  unfold threatens, Rect.colliderect, Rect.bottom, move_enemy, spawn_enemy. fields.
  rewrite Hy, Hw, Hh.
  unfold ENEMY_ROWS, ENEMY_VERTICAL_PADDING, ENEMY_VERTICAL_SPACING, ENEMY_HEIGHT,
    ENEMY_WIDTH, HEIGHT in *.
  cbn [Z.eqb orb].
  apply orb_false_iff. split.
  - apply andb_false_iff. right.
    rewrite Z.gtb_ltb. apply Z.ltb_ge. lia.
  - rewrite Z.geb_leb. apply Z.leb_gt. lia.
Qed.

Lemma existsb_false_incl {A : Type} (f : A -> bool) (l l' : list A) :
  incl l l' -> (forall a, In a l' -> f a = false) -> existsb f l = false.
Proof.
  intros Hi Hf. destruct (existsb f l) eqn:E; [|reflexivity].
  apply existsb_exists in E. destruct E as (a & Ha & Hfa).
  rewrite (Hf a (Hi a Ha)) in Hfa. discriminate.
Qed.

(** C1, amended. In a frame that starts with no enemy (and the player on
    its row), [tick] returns, the level goes up by exactly one, a fresh wave
    is spawned and the formation's advance is applied to it in the same
    frame: the enemies that [_handle_collisions] reads are the spawn grid of
    the new level, each moved right by its speed [ENEMY_SPEED + level], and
    no life is lost, so at the end of the frame every surviving enemy stands
    at its spawn position plus that speed. *)
Theorem C1_spawn_frame_advances (inp : Input) (g : SpaceInvaders.t) :
  enemies g = [] ->
  player_in_place (player g) ->
  exists g2 g',
    tick inp g = Some g'
    /\ advance (next_wave_if_cleared (update_entities (_handle_events inp g))) = Some g2
    /\ g' = _handle_collisions g2
    /\ enemies g2 = map (move_enemy 1) (spawn_grid (level g + 1))
    /\ level g' = level g + 1
    /\ enemy_direction g' = 1
    /\ Player.lives (player g') = Player.lives (player g)
    /\ forall e, In e (enemies g') ->
         exists row col,
           0 <= row < ENEMY_ROWS /\ 0 <= col < ENEMY_COLS
           /\ e = Enemy.mk
                    (Rect.mk (start_x + col * ENEMY_HORIZONTAL_SPACING
                              + (ENEMY_SPEED + level g))
                             (ENEMY_VERTICAL_PADDING + row * ENEMY_VERTICAL_SPACING)
                             ENEMY_WIDTH ENEMY_HEIGHT)
                    (ENEMY_SPEED + level g).
Proof.
  intros Hempty Hplace.
  pose proof (handle_events_frame inp g) as H0. cbv zeta in H0.
  set (g0 := _handle_events inp g) in *.
  destruct H0 as (E0 & _ & L0 & _ & V0 & P0 & _).
  pose proof (update_entities_frame g0) as H1. cbv zeta in H1.
  set (g1 := update_entities g0) in *.
  destruct H1 as (E1 & _ & L1 & _ & _ & V1 & R1 & _).
  pose proof (next_wave_frame g1) as H2. cbv zeta in H2.
  destruct H2 as (P2 & _ & _ & _ & W2).
  destruct W2 as [(_ & Hl & He & Hd)|(Hne & _)];
    [|rewrite E1, E0 in Hne; contradiction].
  set (g1' := next_wave_if_cleared g1) in *.
  assert (Hturn : turn g1' = (false, 1))
    by (unfold turn, leftmost, rightmost; rewrite He, Hd; reflexivity).
  assert (Ha : advance g1'
               = Some (set_enemies (map (move_enemy 1) (enemies g1'))
                                   (set_enemy_direction 1 g1')))
    by (unfold advance; rewrite Hturn; reflexivity).
  set (g2 := set_enemies (map (move_enemy 1) (enemies g1')) (set_enemy_direction 1 g1')) in *.
  exists g2, (_handle_collisions g2).
  assert (Hes2 : enemies g2 = map (move_enemy 1) (spawn_grid (level g + 1)))
    by (subst g2; fields; rewrite He, L1, L0; reflexivity).
  assert (Hp2 : player_in_place (player g2)).
  { subst g2. fields. rewrite P2. unfold player_in_place in *. rewrite R1. auto. }
  split; [unfold tick, _update; fold g0 g1 g1'; rewrite Ha; reflexivity|].
  split; [exact Ha|]. split; [reflexivity|]. split; [exact Hes2|].
  rewrite handle_collisions_spec.
  pose proof (bullets_vs_enemies_spec (bullets g2) (enemies g2) (score g2)) as Hb.
  destruct (bullets_vs_enemies (bullets g2) (enemies g2) (score g2)) as [[bs es] sc].
  destruct Hb as (_ & Hi & _).
  assert (Hsafe : existsb (threatens (player g2)) es = false).
  { apply (existsb_false_incl _ _ _ Hi). intros e He'. rewrite Hes2 in He'.
    eapply fresh_wave_no_threat; eassumption. }
  cbv zeta. rewrite Hsafe. fields.
  split; [subst g2; fields; rewrite Hl, L1, L0; reflexivity|].
  split; [subst g2; fields; reflexivity|].
  split; [subst g2; fields; rewrite P2, V1, V0; reflexivity|].
  intros e He'. apply Hi in He'. rewrite Hes2 in He'.
  apply in_map_iff in He'. destruct He' as (e0 & <- & He0).
  apply spawn_grid_In in He0. destruct He0 as (row & col & Hr & Hc & ->).
  exists row, col. split; [exact Hr|]. split; [exact Hc|].
  unfold move_enemy, spawn_enemy, Rect.set_x. fields. f_equal; [f_equal|]; lia.
Qed.

Lemma cleared_state_in_place : player_in_place (player cleared_state).
Proof. repeat split. Qed.

(** C1, amended, at [cleared_state] with no input. *)
Lemma C1_spawn_frame_advances_witness :
  enemies cleared_state = []
  /\ player_in_place (player cleared_state)
  /\ exists g2 g',
       tick idle cleared_state = Some g'
       /\ advance (next_wave_if_cleared (update_entities (_handle_events idle cleared_state)))
          = Some g2
       /\ g' = _handle_collisions g2
       /\ enemies g2 = map (move_enemy 1) (spawn_grid (level cleared_state + 1))
       /\ level g' = level cleared_state + 1.
Proof.
  split; [reflexivity|]. split; [exact cleared_state_in_place|].
  destruct (C1_spawn_frame_advances idle cleared_state eq_refl cleared_state_in_place)
    as (g2 & g' & H1 & H2 & H3 & H4 & H5 & _).
  exists g2, g'. repeat split; assumption.
Defined.

(** ** The bullet that hits *)

(** C3, as stated, fails at [before_hit_state], the state of play 37
    frames after a shot: in the next frame the bullet overlaps the fourth
    enemy of the bottom row, that enemy is removed and 10 points are scored,
    and at the end of the frame the bullet is still in the bullet list,
    deactivated. *)
Lemma C3_counterexample :
  bullets before_hit_state = [Bullet.mk (Rect.mk 397 234 6 12) 8 true]
  /\ exists g2 g',
       advance (next_wave_if_cleared (update_entities (_handle_events idle before_hit_state)))
       = Some g2
       /\ bullets g2 = [Bullet.mk (Rect.mk 397 226 6 12) 8 true]
       /\ first_hit (Bullet.mk (Rect.mk 397 226 6 12) 8 true) (enemies g2)
          = Some (Enemy.mk (Rect.mk 388 200 40 30) 1)
       /\ tick idle before_hit_state = Some g'
       /\ g' = _handle_collisions g2
       /\ score g' = score before_hit_state + 10
       /\ length (enemies g') = 31%nat
       /\ bullets g' = [Bullet.mk (Rect.mk 397 226 6 12) 8 false]
       /\ bullets g' <> [].
Proof.
  split; [reflexivity|].
  eexists. eexists. split; [vm_compute; reflexivity|].
  split; [reflexivity|]. split; [vm_compute; reflexivity|].
  split; [vm_compute; reflexivity|].
  split; [vm_compute; reflexivity|].
  repeat (split; [reflexivity|]). discriminate.
Qed.

Lemma update_keeps_inactive (b : Bullet.t) :
  Bullet.active b = false -> Bullet.active (Bullet.update b) = false.
Proof.
  intros H. unfold Bullet.update. cbn [Bullet.active]. rewrite H.
  destruct (Rect.bottom _ <? 0); reflexivity.
Qed.

Lemma filter_update_length (bs : list Bullet.t) :
  (length (filter Bullet.active (map Bullet.update bs))
   <= length (filter Bullet.active bs))%nat.
Proof.
  induction bs as [|b bs IH]; cbn [map filter length]; [lia|].
  destruct (Bullet.active b) eqn:Eb.
  - destruct (Bullet.active (Bullet.update b)); cbn [length]; lia.
  - rewrite update_keeps_inactive by exact Eb. exact IH.
Qed.

Lemma filter_active (bs : list Bullet.t) :
  Forall (fun b => Bullet.active b = true) (filter Bullet.active bs).
Proof. apply Forall_forall. intros b Hb. apply filter_In in Hb. tauto. Qed.

(** C3, amended. A bullet that overlaps an enemy in the collision loop of
    frame N is deactivated and kept: the loop returns the bullet list with
    the same bullets in the same order, each either untouched or deactivated.
    At the end of [_handle_collisions] the bullet list is that list, unless
    a life was lost with lives to spare, in which case it is empty. The
    deactivated bullet leaves the list in frame N+1: [update_entities], the
    first step of [_update], keeps only active bullets (a deactivated bullet
    stays inactive when it moves), so the bullet list that frame N+1's advance
    and collision loop read holds active bullets only. *)
Theorem C3_hit_bullet_kept_until_next_frame :
  (forall b bs es sc e,
      first_hit b es = Some e ->
      exists bs' es' sc',
        bullets_vs_enemies (b :: bs) es sc = (Bullet.deactivate b :: bs', es', sc')
        /\ Bullet.active (Bullet.deactivate b) = false
        /\ Bullet.rect (Bullet.deactivate b) = Bullet.rect b)
  /\ (forall bs es sc,
        Forall2 (fun b b' => b' = b \/ b' = Bullet.deactivate b)
                bs (fst (fst (bullets_vs_enemies bs es sc))))
  /\ (forall g,
        let bs' := fst (fst (bullets_vs_enemies (bullets g) (enemies g) (score g))) in
        let es' := snd (fst (bullets_vs_enemies (bullets g) (enemies g) (score g))) in
        (existsb (threatens (player g)) es' = false ->
         bullets (_handle_collisions g) = bs')
        /\ (existsb (threatens (player g)) es' = true ->
            Player.lives (player g) <= 1 ->
            bullets (_handle_collisions g) = bs')
        /\ (existsb (threatens (player g)) es' = true ->
            1 < Player.lives (player g) ->
            bullets (_handle_collisions g) = []))
  /\ (forall g,
        bullets (update_entities g) = filter Bullet.active (map Bullet.update (bullets g))
        /\ Forall (fun b => Bullet.active b = true) (bullets (update_entities g))
        /\ (length (bullets (update_entities g))
            <= length (filter Bullet.active (bullets g)))%nat)
  /\ (forall g g2,
        advance (next_wave_if_cleared (update_entities g)) = Some g2 ->
        _update g = Some (_handle_collisions g2)
        /\ bullets g2 = bullets (update_entities g)
        /\ Forall (fun b => Bullet.active b = true) (bullets g2)).
Proof.
  split.
  { intros b bs es sc e Hh. cbn [bullets_vs_enemies]. rewrite Hh.
    destruct (bullets_vs_enemies bs (list_remove e es) (sc + 10)) as [[bs' es'] sc'].
    exists bs', es', sc'. repeat split. }
  split.
  { intros bs es sc. pose proof (bullets_vs_enemies_spec bs es sc) as H.
    destruct (bullets_vs_enemies bs es sc) as [[bs' es'] sc']. cbn [fst]. tauto. }
  split.
  { intros g. cbv zeta. rewrite handle_collisions_spec.
    destruct (bullets_vs_enemies (bullets g) (enemies g) (score g)) as [[bs es] sc].
    cbn [fst snd]. cbv zeta.
    split; [intros ->; reflexivity|].
    split; intros -> Hl.
    - rewrite lose_life_last by exact Hl. reflexivity.
    - rewrite lose_life_spare by exact Hl. reflexivity. }
  split.
  { intros g. unfold update_entities. fields.
    split; [reflexivity|]. split; [apply filter_active | apply filter_update_length]. }
  intros g g2 Ha. split; [unfold _update; rewrite Ha; reflexivity|].
  pose proof (advance_spec _ _ Ha) as (_ & B3 & _).
  pose proof (next_wave_frame (update_entities g)) as H2. cbv zeta in H2.
  destruct H2 as (_ & B2 & _).
  assert (E : bullets g2 = bullets (update_entities g)) by (rewrite B3, B2; reflexivity).
  split; [exact E|]. rewrite E. unfold update_entities. fields. apply filter_active.
Qed.

(** * Further properties of the code *)

(** ** Input handling *)

Lemma handle_event_quits (g : SpaceInvaders.t) (ev : Event) :
  handle_event g ev = if quits ev then set_running false g else g.
Proof. destruct ev as [|[]|]; reflexivity. Qed.

Lemma handle_event_fold_running (evs : list Event) (g : SpaceInvaders.t) :
  running (fold_left handle_event evs g)
  = running g && negb (existsb quits evs).
Proof.
  revert g. induction evs as [|ev evs IH]; intros g; cbn [fold_left existsb].
  - rewrite andb_true_r. reflexivity.
  - rewrite IH, handle_event_quits. destruct (quits ev); cbn [orb negb running set_running].
    + rewrite andb_false_r. reflexivity.
    + reflexivity.
Qed.

(** [_handle_events] written out: the player after the move, and the shot. *)
Lemma handle_events_shape (inp : Input) (g : SpaceInvaders.t) :
  let g' := _handle_events inp g in
  let p1 := if direction_of inp =? 0 then player g
            else Player.move (direction_of inp) (player g) in
  enemies g' = enemies g /\ enemy_direction g' = enemy_direction g
  /\ level g' = level g /\ score g' = score g
  /\ running g' = running g && negb (existsb quits (events inp))
  /\ ((player g' = p1 /\ bullets g' = bullets g
       /\ (pressed inp K_SPACE = false \/ Player.cooldown p1 <> 0))
      \/ (pressed inp K_SPACE = true /\ Player.cooldown p1 = 0
          /\ player g' = Player.mk (Player.rect p1) (Player.lives p1) (FPS / 4)
          /\ bullets g'
             = bullets g
               ++ [Bullet.mk (Rect.mk (Rect.centerx (Player.rect p1) - 3)
                                      (Rect.top (Player.rect p1) - 10) 6 12)
                             BULLET_SPEED true])).
Proof.
  cbv zeta. unfold _handle_events. fold (direction_of inp).
  pose proof (handle_event_fold (events inp) g) as H. cbv zeta in H.
  destruct H as (Hp & Hb & He & Hd & Hl & Hs & _).
  pose proof (handle_event_fold_running (events inp) g) as Hr.
  set (g0 := fold_left handle_event (events inp) g) in *.
  rewrite <- Hp.
  set (p1 := if direction_of inp =? 0 then player g0
             else Player.move (direction_of inp) (player g0)).
  set (g1 := if direction_of inp =? 0 then g0
             else set_player (Player.move (direction_of inp) (player g0)) g0).
  assert (H1 : player g1 = p1 /\ bullets g1 = bullets g /\ enemies g1 = enemies g
               /\ enemy_direction g1 = enemy_direction g /\ level g1 = level g
               /\ score g1 = score g /\ running g1 = running g0).
  { subst g1 p1. destruct (direction_of inp =? 0); fields; repeat split; assumption. }
  clearbody g1 p1. destruct H1 as (P1 & B1 & E1 & D1 & L1 & S1 & R1).
  destruct (pressed inp K_SPACE).
  - unfold Player.shoot. rewrite P1.
    destruct (Z.eqb_spec (Player.cooldown p1) 0) as [Hc|Hc]; fields.
    + rewrite B1, R1, Hr. repeat (split; [assumption || reflexivity|]).
      right. repeat split; assumption.
    + rewrite R1, Hr. repeat (split; [assumption || reflexivity|]).
      left. repeat split; try assumption. right; exact Hc.
  - rewrite R1, Hr. repeat (split; [assumption || reflexivity|]).
    left. repeat split; try assumption. left; reflexivity.
Qed.

Lemma update_running (g g' : SpaceInvaders.t) :
  _update g = Some g' -> running g = false -> running g' = false.
Proof.
  unfold _update. intros H Hr.
  destruct (advance (next_wave_if_cleared (update_entities g))) as [g2|] eqn:Ha;
    cbn [bind] in H; [|discriminate]. injection H as <-.
  pose proof (update_entities_frame g) as H1. cbv zeta in H1.
  destruct H1 as (_ & _ & _ & _ & R1 & _).
  pose proof (next_wave_frame (update_entities g)) as H2. cbv zeta in H2.
  destruct H2 as (_ & _ & _ & R2 & _).
  pose proof (advance_spec _ _ Ha) as (_ & _ & _ & _ & R3 & _).
  pose proof (handle_collisions_frame g2) as H4. cbv zeta in H4.
  destruct H4 as (_ & _ & _ & R4 & _).
  destruct (running (_handle_collisions g2)) eqn:E; [|reflexivity].
  specialize (R4 eq_refl). congruence.
Qed.

(** X1. [_handle_events] sets [running] to false exactly when the frame's
    events hold a QUIT or a KEYDOWN of Escape (other events and other keys
    leave it alone). The loop of [run] still performs that frame's [_update]
    and stops only then: with such an event in the first frame's input, [run]
    on any further inputs is that one frame. *)
Theorem quit_ends_run_after_the_frame (inp : Input) (g : SpaceInvaders.t) :
  running (_handle_events inp g) = running g && negb (existsb quits (events inp))
  /\ (existsb quits (events inp) = true -> running g = true ->
      forall rest, run (inp :: rest) g = tick inp g)
  /\ (existsb quits (events inp) = true ->
      forall g', tick inp g = Some g' -> running g' = false).
Proof.
  pose proof (handle_events_shape inp g) as H. cbv zeta in H.
  destruct H as (_ & _ & _ & _ & Hr & _).
  split; [exact Hr|].
  assert (Hstop : existsb quits (events inp) = true ->
                  forall g', tick inp g = Some g' -> running g' = false).
  { intros Hq g' Ht. unfold tick in Ht. eapply update_running; [exact Ht|].
    rewrite Hr, Hq. apply andb_false_r. }
  split; [|exact Hstop].
  intros Hq Hrun rest. cbn [run]. rewrite Hrun.
  destruct (tick inp g) as [g'|] eqn:Ht; cbn [bind]; [|reflexivity].
  apply run_stopped. apply (Hstop Hq). reflexivity.
Qed.

(** [quit_ends_run_after_the_frame] at the initial state, with Escape
    pressed in the first frame. *)
Lemma quit_ends_run_after_the_frame_witness :
  existsb quits [KEYDOWN K_ESCAPE] = true
  /\ running __init__ = true
  /\ run [mkInput [KEYDOWN K_ESCAPE] (fun _ => false); idle; idle] __init__
     = tick (mkInput [KEYDOWN K_ESCAPE] (fun _ => false)) __init__.
Proof.
  split; [reflexivity|]. split; [reflexivity|].
  exact (proj1 (proj2 (quit_ends_run_after_the_frame
                         (mkInput [KEYDOWN K_ESCAPE] (fun _ => false)) __init__))
               eq_refl eq_refl [idle; idle]).
Defined.

(** What [_handle_events] does to the player and the bullets, field by
    field; the frame lemmas below start from it. *)
Lemma handle_events_player (inp : Input) (g : SpaceInvaders.t) :
  let g' := _handle_events inp g in
  let p1 := if direction_of inp =? 0 then player g
            else Player.move (direction_of inp) (player g) in
  enemies g' = enemies g /\ enemy_direction g' = enemy_direction g
  /\ level g' = level g /\ score g' = score g
  /\ Player.lives (player g') = Player.lives (player g)
  /\ Player.rect (player g') = Player.rect p1
  /\ (pressed inp K_SPACE && (Player.cooldown (player g) =? 0) = true ->
      bullets g'
      = bullets g
        ++ [Bullet.mk (Rect.mk (Rect.centerx (Player.rect p1) - 3)
                               (Rect.top (Player.rect p1) - 10) 6 12)
                      BULLET_SPEED true]
      /\ Player.cooldown (player g') = FPS / 4)
  /\ (pressed inp K_SPACE && (Player.cooldown (player g) =? 0) = false ->
      bullets g' = bullets g
      /\ Player.cooldown (player g') = Player.cooldown (player g)).
Proof.
  pose proof (handle_events_shape inp g) as H. cbv zeta in *.
  set (p1 := if direction_of inp =? 0 then player g
             else Player.move (direction_of inp) (player g)) in *.
  assert (Hp1 : Player.lives p1 = Player.lives (player g)
                /\ Player.cooldown p1 = Player.cooldown (player g)).
  { subst p1. destruct (direction_of inp =? 0); [split; reflexivity|].
    destruct (move_frame (direction_of inp) (player g)) as (Ml & Mc & _). tauto. }
  destruct Hp1 as (Hl1 & Hc1).
  destruct H as (He & Hd & Hl & Hs & _ & Hcase).
  repeat (split; [assumption|]).
  destruct Hcase as [(Hp & Hb & Hno)|(Hsp & Hc & Hp & Hb)].
  - rewrite Hp. split; [exact Hl1|]. split; [reflexivity|].
    split.
    + intros Hyes. apply andb_true_iff in Hyes. destruct Hyes as [Hsp Hc].
      apply Z.eqb_eq in Hc. destruct Hno as [Hno|Hno]; [congruence | lia].
    + intros _. split; [exact Hb | exact Hc1].
  - rewrite Hp. fields. split; [exact Hl1|]. split; [reflexivity|].
    split.
    + intros _. split; [exact Hb | reflexivity].
    + intros Hno. rewrite Hsp in Hno. cbn [andb] in Hno.
      apply Z.eqb_neq in Hno. lia.
Qed.

(** X2. [_handle_events] never touches the enemies, their direction, the
    level, the score or the lives, and never removes or changes a bullet. The
    move is applied before the shot: opposite keys cancel (no move), and when
    the space key is held and the cooldown of the player is 0, exactly one
    bullet is appended at the end of the bullet list, centred on the player
    where the move of the same frame has put it; otherwise the bullet list is
    unchanged. *)
Theorem handle_events_moves_then_shoots (inp : Input) (g : SpaceInvaders.t) :
  let g' := _handle_events inp g in
  let p1 := if direction_of inp =? 0 then player g
            else Player.move (direction_of inp) (player g) in
  enemies g' = enemies g /\ enemy_direction g' = enemy_direction g
  /\ level g' = level g /\ score g' = score g
  /\ Player.lives (player g') = Player.lives (player g)
  /\ Player.rect (player g') = Player.rect p1
  /\ ((pressed inp K_RIGHT || pressed inp K_d)
      = (pressed inp K_LEFT || pressed inp K_a) ->
      Player.rect (player g') = Player.rect (player g))
  /\ (pressed inp K_SPACE && (Player.cooldown (player g) =? 0) = true ->
      bullets g'
      = bullets g
        ++ [Bullet.mk (Rect.mk (Rect.centerx (Player.rect p1) - 3)
                               (Rect.top (Player.rect p1) - 10) 6 12)
                      BULLET_SPEED true]
      /\ Player.cooldown (player g') = FPS / 4)
  /\ (pressed inp K_SPACE && (Player.cooldown (player g) =? 0) = false ->
      bullets g' = bullets g
      /\ Player.cooldown (player g') = Player.cooldown (player g)).
Proof.
  pose proof (handle_events_player inp g) as H. cbv zeta in *.
  destruct H as (He & Hd & Hl & Hs & Hv & Hr & Hshot & Hnoshot).
  repeat (split; [assumption|]).
  split; [|split; assumption].
  intros E. rewrite Hr. unfold direction_of.
  rewrite E, Z.sub_diag. reflexivity.
Qed.

(** ** The player's moves *)

(** X4. [Player.move] keeps the rectangle inside the playfield for every
    step and every position whose sum [x + dx * PLAYER_SPEED] fits a C int, so
    that line 67 can store it in the rectangle: for a player no wider than the
    playfield, the left edge ends in [0, WIDTH - width]. Inside that range
    the move is exactly [dx * PLAYER_SPEED]; at a wall a move towards the wall
    leaves the player on the wall. The position that line 68 stores fits a C
    int as well. Lives, cooldown, row and size are not touched. *)
Theorem move_stays_in_playfield (dx : Z) (p : Player.t) :
  0 <= Rect.width (Player.rect p) <= WIDTH ->
  fits_c_int (Rect.x (Player.rect p) + dx * PLAYER_SPEED) ->
  let p' := Player.move dx p in
  0 <= Rect.left (Player.rect p') /\ Rect.right (Player.rect p') <= WIDTH
  /\ fits_c_int (Rect.x (Player.rect p'))
  /\ (0 <= Rect.x (Player.rect p) + dx * PLAYER_SPEED
           <= WIDTH - Rect.width (Player.rect p) ->
      Rect.x (Player.rect p') = Rect.x (Player.rect p) + dx * PLAYER_SPEED)
  /\ (Rect.x (Player.rect p) + dx * PLAYER_SPEED < 0 -> Rect.x (Player.rect p') = 0)
  /\ (WIDTH - Rect.width (Player.rect p) < Rect.x (Player.rect p) + dx * PLAYER_SPEED ->
      Rect.right (Player.rect p') = WIDTH)
  /\ Player.lives p' = Player.lives p /\ Player.cooldown p' = Player.cooldown p
  /\ Rect.y (Player.rect p') = Rect.y (Player.rect p)
  /\ Rect.width (Player.rect p') = Rect.width (Player.rect p)
  /\ Rect.height (Player.rect p') = Rect.height (Player.rect p).
Proof.
  intros Hw Hfit. cbv zeta.
  assert (H31 : 2 ^ 31 = 2147483648) by reflexivity.
  unfold fits_c_int, Player.move, Rect.left, Rect.right in *. fields.
  rewrite H31 in *. unfold WIDTH in *.
  repeat split; lia.
Qed.

(** [move_stays_in_playfield] for the initial player and a step far beyond
    the right wall. *)
Lemma move_stays_in_playfield_witness :
  0 <= Rect.width (Player.rect Player.__init__) <= WIDTH
  /\ fits_c_int (Rect.x (Player.rect Player.__init__) + 1000 * PLAYER_SPEED)
  /\ Rect.right (Player.rect (Player.move 1000 Player.__init__)) <= WIDTH.
Proof.
  assert (H : 0 <= Rect.width (Player.rect Player.__init__) <= WIDTH)
    by (split; discriminate).
  assert (F : fits_c_int (Rect.x (Player.rect Player.__init__) + 1000 * PLAYER_SPEED))
    by (split; [discriminate | reflexivity]).
  split; [exact H|]. split; [exact F|].
  exact (proj1 (proj2 (move_stays_in_playfield 1000 Player.__init__ H F))).
Defined.

(** ** The bullets' update *)

Lemma bullet_update_active (b : Bullet.t) :
  Bullet.active (Bullet.update b) = true ->
  Bullet.active b = true /\ 0 <= Rect.bottom (Bullet.rect (Bullet.update b)).
Proof.
  unfold Bullet.update. cbn [Bullet.active Bullet.rect].
  destruct (Z.ltb_spec (Rect.bottom (Rect.set_y (Rect.y (Bullet.rect b) - Bullet.speed b)
                                               (Bullet.rect b))) 0);
    [discriminate | intros ->; split; [reflexivity | assumption]].
Qed.

(** X5. The first step of [_update] on the bullets, in any state: every
    bullet left in the list is active and not wholly above the top of the
    playfield, and it is a bullet that was active before, moved up by its
    speed with its column, size and speed unchanged; the bullets kept stay in
    their order. A bullet that was inactive, or whose bottom edge gets above
    the top, is not in the list any more. *)
Theorem update_entities_bullets (g : SpaceInvaders.t) :
  let kept := filter (fun b => Bullet.active (Bullet.update b)) (bullets g) in
  bullets (update_entities g) = map Bullet.update kept
  /\ Forall (fun b => Bullet.active b = true
                      /\ 0 <= Rect.bottom (Bullet.rect (Bullet.update b))) kept
  /\ Forall (fun b' => Bullet.active b' = true /\ 0 <= Rect.bottom (Bullet.rect b'))
            (bullets (update_entities g))
  /\ (forall b,
        Bullet.rect (Bullet.update b)
        = Rect.mk (Rect.x (Bullet.rect b)) (Rect.y (Bullet.rect b) - Bullet.speed b)
                  (Rect.width (Bullet.rect b)) (Rect.height (Bullet.rect b))
        /\ Bullet.speed (Bullet.update b) = Bullet.speed b)
  /\ (forall b, In b (bullets g) ->
        Bullet.active b = false
        \/ Rect.bottom (Bullet.rect b) - Bullet.speed b < 0 ->
        ~ In b kept).
Proof.
  cbv zeta. unfold update_entities. fields.
  split.
  { induction (bullets g) as [|b bs IH]; cbn [map filter]; [reflexivity|].
    destruct (Bullet.active (Bullet.update b)); cbn [map]; rewrite IH; reflexivity. }
  split.
  { apply Forall_forall. intros b Hb. apply filter_In in Hb.
    apply bullet_update_active. tauto. }
  split.
  { apply Forall_forall. intros b' Hb'. apply filter_In in Hb'.
    destruct Hb' as [Hin Hact]. apply in_map_iff in Hin.
    destruct Hin as (b & <- & _). split; [exact Hact|].
    apply bullet_update_active. exact Hact. }
  split; [intros b; split; reflexivity|].
  intros b _ Hbad Hin. apply filter_In in Hin. destruct Hin as [_ Hact].
  apply bullet_update_active in Hact. destruct Hact as [Ha Hb].
  unfold Bullet.update, Rect.bottom in *. fields.
  destruct Hbad as [Hbad|Hbad]; [congruence | lia].
Qed.

(** ** The end-of-game screen *)

Lemma message_event_done (evs : list Event) (g : SpaceInvaders.t) :
  fst (fold_left message_event evs (false, g)) = false
  /\ set_running false (snd (fold_left message_event evs (false, g)))
     = set_running false g.
Proof.
  revert g. induction evs as [|ev evs IH]; intros g; cbn [fold_left]; [split; reflexivity|].
  destruct ev as [|[]|]; cbn [message_event snd]; try apply IH.
  destruct (IH (set_running false g)) as [H1 H2]. split; [exact H1|].
  rewrite H2. reflexivity.
Qed.

(** One list of events read while waiting: the loop goes on exactly when
    none of them acknowledges, and then the game is untouched. *)
Lemma message_event_fold (evs : list Event) (g : SpaceInvaders.t) :
  fst (fold_left message_event evs (true, g)) = negb (existsb acknowledges evs)
  /\ set_running false (snd (fold_left message_event evs (true, g)))
     = set_running false g
  /\ (existsb acknowledges evs = false ->
      snd (fold_left message_event evs (true, g)) = g).
Proof.
  revert g. induction evs as [|ev evs IH]; intros g; cbn [fold_left existsb].
  - repeat split.
  - destruct (acknowledges ev) eqn:Ea.
    + cbn [orb negb].
      assert (Hst : exists g1, message_event (true, g) ev = (false, g1)
                               /\ set_running false g1 = set_running false g).
      { destruct ev as [|[]|]; try discriminate; cbn [message_event snd];
          eexists; split; reflexivity. }
      destruct Hst as (g1 & -> & Hg1).
      destruct (message_event_done evs g1) as [H1 H2].
      split; [exact H1|]. split; [rewrite H2; exact Hg1 | discriminate].
    + assert (Hst : message_event (true, g) ev = (true, g))
        by (destruct ev as [|[]|]; try discriminate; reflexivity).
      rewrite Hst. cbn [orb]. apply IH.
Qed.

(** X6. The end-of-game screen of [_game_over]. Its loop reads one list of
    events per iteration and ends with the first list that holds a QUIT or a
    KEYDOWN of Enter, Space or Escape; every other event is ignored, and the
    rest of the list that ends the loop is still read. Whatever the events
    were, the game after [_game_over] is the game before with [running] set
    to false: nothing else changes, the score in particular. *)
Theorem game_over_screen_waits_for_acknowledgement
        (batches : list (list Event)) (g : SpaceInvaders.t) :
  (forall g' rest,
      game_over_screen batches g = Some (g', rest) ->
      g' = _game_over g
      /\ exists before evs,
           batches = before ++ evs :: rest
           /\ Forall (fun b => existsb acknowledges b = false) before
           /\ existsb acknowledges evs = true)
  /\ (forall before evs rest,
        batches = before ++ evs :: rest ->
        Forall (fun b => existsb acknowledges b = false) before ->
        existsb acknowledges evs = true ->
        game_over_screen batches g = Some (_game_over g, rest))
  /\ (Forall (fun b => existsb acknowledges b = false) batches ->
      game_over_screen batches g = None).
Proof.
  unfold game_over_screen, _game_over.
  split; [|split].
  - revert g. induction batches as [|evs batches IH]; intros g g' rest H;
      cbn [_display_message] in H; [discriminate|].
    destruct (message_event_fold evs g) as (Hw & Hg & Hsame).
    destruct (fst (fold_left message_event evs (true, g))) eqn:Ew.
    + assert (Hno : existsb acknowledges evs = false)
        by (destruct (existsb acknowledges evs); [discriminate | reflexivity]).
      rewrite (Hsame Hno) in H.
      destruct (IH g g' rest H) as (Hg' & before & evs' & -> & Hb & He).
      split; [exact Hg'|]. exists (evs :: before), evs'.
      split; [reflexivity|]. split; [constructor; assumption | exact He].
    + injection H as <- <-. split; [exact Hg|].
      exists [], evs. split; [reflexivity|]. split; [constructor|].
      destruct (existsb acknowledges evs); [reflexivity | discriminate].
  - intros before evs rest -> Hb He.
    induction Hb as [|b before Hbno _ IH]; cbn [app _display_message].
    + destruct (message_event_fold evs g) as (Hw & Hg & _).
      rewrite Hw, He. cbn [negb]. rewrite Hg. reflexivity.
    + destruct (message_event_fold b g) as (Hw & _ & Hsame).
      rewrite Hw, Hbno. cbn [negb]. rewrite (Hsame Hbno). exact IH.
  - intros Hall. induction Hall as [|b batches Hbno _ IH]; cbn [_display_message];
      [reflexivity|].
    destruct (message_event_fold b g) as (Hw & _ & Hsame).
    rewrite Hw, Hbno. cbn [negb]. rewrite (Hsame Hbno). exact IH.
Qed.

(** ** The states of play *)

(** A frame, step by step: the state [g2] after the advance, what the loop
    over the bullets returns, and the three ways [_handle_collisions] ends. *)
Lemma tick_phases (inp : Input) (g g' : SpaceInvaders.t) :
  tick inp g = Some g' ->
  exists g2 bs es sc,
    advance (next_wave_if_cleared (update_entities (_handle_events inp g))) = Some g2
    /\ bullets_vs_enemies (bullets g2) (enemies g2) (score g2) = (bs, es, sc)
    /\ ((existsb (threatens (player g2)) es = false
         /\ g' = SpaceInvaders.mk (player g2) bs es (enemy_direction g2) (level g2)
                                  sc (running g2))
        \/ (existsb (threatens (player g2)) es = true
            /\ Player.lives (player g2) <= 1
            /\ g' = SpaceInvaders.mk
                      (Player.mk (Player.rect (player g2))
                                 (Player.lives (player g2) - 1)
                                 (Player.cooldown (player g2)))
                      bs es (enemy_direction g2) (level g2) sc false)
        \/ (existsb (threatens (player g2)) es = true
            /\ 1 < Player.lives (player g2)
            /\ g' = SpaceInvaders.mk
                      (Player.mk (Rect.set_centerx (WIDTH / 2) (Player.rect (player g2)))
                                 (Player.lives (player g2) - 1)
                                 (FPS / 2))
                      [] (spawn_grid (level g2)) 1 (level g2) sc (running g2))).
Proof.
  intros Ht. destruct (tick_steps _ _ _ Ht) as (g2 & Ha & ->).
  exists g2. rewrite handle_collisions_spec.
  destruct (bullets_vs_enemies (bullets g2) (enemies g2) (score g2)) as [[bs es] sc].
  exists bs, es, sc. split; [exact Ha|]. split; [reflexivity|]. cbv zeta.
  destruct (existsb (threatens (player g2)) es) eqn:Et.
  - destruct (Z_le_gt_dec (Player.lives (player g2)) 1) as [Hle|Hgt].
    + right; left. rewrite lose_life_last by exact Hle. repeat split. exact Hle.
    + right; right. rewrite lose_life_spare by (fields; lia). repeat split. lia.
  - left. split; reflexivity.
Qed.

(** To show that a property holds in every reachable state. *)
Lemma reachable_ind_inv (P : SpaceInvaders.t -> Prop) :
  P __init__ ->
  (forall g inp g', reachable g -> P g -> running g = true ->
                    tick inp g = Some g' -> P g') ->
  forall g, reachable g -> P g.
Proof.
  intros Hinit Hstep g Hg. induction Hg as [|g g' inp Hg IH Hrun Ht]; [exact Hinit|].
  eapply Hstep; eassumption.
Qed.

Lemma Forall2_length_eq {A B : Type} (R : A -> B -> Prop) (l : list A) (l' : list B) :
  Forall2 R l l' -> length l = length l'.
Proof. induction 1; cbn [length]; congruence. Qed.

Lemma advance_length (g g' : SpaceInvaders.t) :
  advance g = Some g' -> length (enemies g') = length (enemies g).
Proof.
  intros Ha. apply advance_spec in Ha. destruct Ha as (_ & _ & _ & _ & _ & _ & H2).
  symmetry. eapply Forall2_length_eq. exact H2.
Qed.

Lemma advance_direction (g g' : SpaceInvaders.t) :
  advance g = Some g' ->
  enemy_direction g' = enemy_direction g
  \/ enemy_direction g' = 1 \/ enemy_direction g' = -1.
Proof.
  intros Ha. apply advance_spec in Ha. destruct Ha as (_ & _ & _ & _ & _ & Hd & _).
  rewrite Hd.
  destruct (turn_cases g) as [(E & _)|[(E & _)|(E & _)]]; rewrite E; cbn [snd]; auto.
Qed.

(** The state after the advance, in terms of the state at the start of the
    frame, for the fields the advance and the steps before it leave alone or
    change in a simple way. *)
Lemma before_collisions (inp : Input) (g g2 : SpaceInvaders.t) :
  advance (next_wave_if_cleared (update_entities (_handle_events inp g))) = Some g2 ->
  player g2 = Player.update (player (_handle_events inp g))
  /\ bullets g2 = bullets (update_entities (_handle_events inp g))
  /\ score g2 = score g
  /\ running g2 = running (_handle_events inp g)
  /\ ((enemies g = [] /\ level g2 = level g + 1
       /\ length (enemies g2) = Z.to_nat (ENEMY_ROWS * ENEMY_COLS))
      \/ (enemies g <> [] /\ level g2 = level g
          /\ length (enemies g2) = length (enemies g))).
Proof.
  intros Ha.
  pose proof (handle_events_shape inp g) as H0. cbv zeta in H0.
  destruct H0 as (E0 & _ & L0 & S0 & _ & _).
  set (g0 := _handle_events inp g) in *.
  pose proof (update_entities_frame g0) as H1. cbv zeta in H1.
  destruct H1 as (E1 & _ & L1 & S1 & R1 & _).
  pose proof (next_wave_frame (update_entities g0)) as H2. cbv zeta in H2.
  destruct H2 as (P2 & B2 & S2 & R2 & W2).
  pose proof (advance_spec _ _ Ha) as (P3 & B3 & L3 & S3 & R3 & _).
  pose proof (advance_length _ _ Ha) as Hlen.
  split; [rewrite P3, P2; reflexivity|].
  split; [rewrite B3, B2; reflexivity|].
  split; [rewrite S3, S2, S1, S0; reflexivity|].
  split; [rewrite R3, R2, R1; reflexivity|].
  destruct W2 as [(He & Hl & Hes & _)|(Hne & Hg)].
  - left. rewrite E1, E0 in He. split; [exact He|].
    split; [rewrite L3, Hl, L1, L0; reflexivity|].
    rewrite Hlen, Hes. apply spawn_grid_length.
  - right. rewrite E1, E0 in Hne. split; [exact Hne|].
    rewrite Hlen, L3, Hg, L1, L0, E1, E0. split; reflexivity.
Qed.

Lemma init_bounds : bounds __init__.
Proof.
  unfold bounds. repeat split; try (vm_compute; congruence).
  - left; reflexivity.
  - exists 0. reflexivity.
  - vm_compute. lia.
Qed.

Lemma tick_bounds (inp : Input) (g g' : SpaceInvaders.t) :
  invariant g -> bounds g -> tick inp g = Some g' -> bounds g'.
Proof.
  intros (Hplace & _ & _ & Hc0 & _) (Hx0 & Hx1 & Hlv & Hcd & Hdir & Hsc & Hlen) Ht.
  destruct Hplace as (Hy & Hw & Hh).
  destruct (tick_phases _ _ _ Ht) as (g2 & bs & es & sc & Ha & Hbve & Hend).
  pose proof (before_collisions _ _ _ Ha) as (P2 & _ & S2 & _ & Hwave).
  pose proof (handle_events_player inp g) as H0. cbv zeta in H0.
  destruct H0 as (_ & D0 & _ & _ & V0 & R0 & Hshot & Hnoshot).
  set (g0 := _handle_events inp g) in *.
  (* the player after the events and the cooldown's decay *)
  assert (Hrect : 0 <= Rect.x (Player.rect (player g0)) <= WIDTH - 50
                  /\ Rect.width (Player.rect (player g0)) = 50).
  { rewrite R0. unfold Rect.left, Rect.right in *.
    destruct (direction_of inp =? 0); [lia|].
    pose proof (move_frame (direction_of inp) (player g)) as (_ & _ & _ & Mw & _).
    rewrite Mw. split; [|exact Hw].
    unfold Player.move. fields. rewrite Hw. unfold WIDTH. lia. }
  assert (Hcool0 : Player.cooldown (player g0) <= FPS / 2).
  { destruct (pressed inp K_SPACE && (Player.cooldown (player g) =? 0)).
    - destruct (Hshot eq_refl) as [_ ->]. vm_compute. discriminate.
    - destruct (Hnoshot eq_refl) as [_ ->]. exact Hcd. }
  assert (Hp2 : Player.rect (player g2) = Player.rect (player g0)
                /\ Player.lives (player g2) = Player.lives (player g)
                /\ Player.cooldown (player g2) <= FPS / 2).
  { rewrite P2. unfold Player.update.
    destruct (Z.gtb_spec (Player.cooldown (player g0)) 0); fields;
      repeat split; try assumption; lia. }
  destruct Hp2 as (Hr2 & Hl2 & Hc2).
  (* the enemies and their direction *)
  assert (Hdir2 : enemy_direction g2 = 1 \/ enemy_direction g2 = -1).
  { pose proof (update_entities_frame g0) as (_ & D1 & _).
    pose proof (next_wave_frame (update_entities g0)) as H2. cbv zeta in H2.
    destruct H2 as (_ & _ & _ & _ & W2).
    destruct (advance_direction _ _ Ha) as [E|E]; [|exact E].
    rewrite E. destruct W2 as [(_ & _ & _ & ->)|(_ & ->)]; [left; reflexivity|].
    rewrite D1, D0. exact Hdir. }
  assert (Hlen2 : (length (enemies g2) <= Z.to_nat (ENEMY_ROWS * ENEMY_COLS))%nat)
    by (destruct Hwave as [(_ & _ & ->)|(_ & _ & ->)]; [lia | exact Hlen]).
  pose proof (bullets_vs_enemies_spec (bullets g2) (enemies g2) (score g2)) as Hspec.
  rewrite Hbve in Hspec. destruct Hspec as (_ & _ & Hle & _ & Hscore).
  assert (Hdiv : (10 | sc)).
  { rewrite Hscore, S2. apply Z.divide_add_r; [exact Hsc|]. apply Z.divide_factor_l. }
  unfold bounds, Rect.left, Rect.right in *.
  destruct Hend as [(_ & ->)|[(_ & _ & ->)|(_ & _ & ->)]]; fields.
  - rewrite Hr2, Hl2. destruct Hrect as [Hx Hw0]. rewrite Hw0.
    unfold WIDTH in *. repeat split; try lia; assumption.
  - rewrite Hr2, Hl2. destruct Hrect as [Hx Hw0]. rewrite Hw0.
    unfold WIDTH in *. repeat split; try lia; assumption.
  - unfold Rect.set_centerx. fields. rewrite Hr2, Hl2.
    destruct Hrect as [Hx Hw0]. rewrite Hw0. rewrite spawn_grid_length.
    change (50 / 2) with 25. change (WIDTH / 2) with 400. unfold WIDTH.
    repeat split; try lia; try assumption.
Qed.

Lemma reachable_bounds (g : SpaceInvaders.t) : reachable g -> bounds g.
Proof.
  apply reachable_ind_inv; [exact init_bounds|].
  intros g0 inp g' Hreach Hb _ Ht.
  eapply tick_bounds; [apply reachable_invariant| |]; eassumption.
Qed.

(** X7. In every reachable state the player's rectangle is inside the
    playfield, on the row and with the size [Player.__init__] gave it; the
    lives are between 0 and [PLAYER_LIVES]; the cooldown is between 0 and
    [FPS // 2]; the direction is +1 or -1; the level is at least 1; the score
    is a non-negative multiple of 10; and there are at most
    [ENEMY_ROWS * ENEMY_COLS] enemies. *)
Theorem reachable_state_bounds (g : SpaceInvaders.t) :
  reachable g ->
  0 <= Rect.left (Player.rect (player g))
  /\ Rect.right (Player.rect (player g)) <= WIDTH
  /\ Rect.top (Player.rect (player g)) = HEIGHT - 60
  /\ Rect.width (Player.rect (player g)) = 50
  /\ Rect.height (Player.rect (player g)) = 30
  /\ 0 <= Player.lives (player g) <= PLAYER_LIVES
  /\ 0 <= Player.cooldown (player g) <= FPS / 2
  /\ (enemy_direction g = 1 \/ enemy_direction g = -1)
  /\ 1 <= level g
  /\ 0 <= score g /\ (10 | score g)
  /\ (length (enemies g) <= Z.to_nat (ENEMY_ROWS * ENEMY_COLS))%nat.
Proof.
  intros Hreach.
  pose proof (reachable_invariant g Hreach) as ((Hy & Hw & Hh) & Hl0 & _ & Hc0 & Hlv & Hs0 & _).
  pose proof (reachable_bounds g Hreach) as (Hx0 & Hx1 & Hl3 & Hc1 & Hd & Hdiv & Hlen).
  unfold Rect.top. repeat split; assumption.
Qed.

(** [reachable_state_bounds] at the state reached by clearing the first
    wave. *)
Lemma reachable_state_bounds_witness :
  reachable cleared_state
  /\ 0 <= Rect.left (Player.rect (player cleared_state))
  /\ Rect.right (Player.rect (player cleared_state)) <= WIDTH
  /\ (10 | score cleared_state).
Proof.
  split; [exact cleared_state_reachable|].
  destruct (reachable_state_bounds cleared_state cleared_state_reachable)
    as (H1 & H2 & _ & _ & _ & _ & _ & _ & _ & _ & H3 & _).
  repeat split; assumption.
Defined.

(** ** The level *)

Lemma tick_level (inp : Input) (g g' : SpaceInvaders.t) :
  tick inp g = Some g' ->
  (enemies g = [] /\ level g' = level g + 1)
  \/ (enemies g <> [] /\ level g' = level g).
Proof.
  intros Ht.
  destruct (tick_phases _ _ _ Ht) as (g2 & bs & es & sc & Ha & _ & Hend).
  pose proof (before_collisions _ _ _ Ha) as (_ & _ & _ & _ & Hwave).
  assert (Hl : level g' = level g2)
    by (destruct Hend as [(_ & ->)|[(_ & _ & ->)|(_ & _ & ->)]]; reflexivity).
  rewrite Hl. destruct Hwave as [(He & -> & _)|(He & -> & _)]; [left | right]; tauto.
Qed.

(** X8. A frame raises the level by exactly one when it starts with no
    enemy, and leaves the level as it is otherwise: neither a life loss nor
    its respawn of the wave changes the level. Over any number of frames of
    [run] the level never goes down. *)
Theorem level_changes_only_on_cleared_wave :
  (forall inp g g', tick inp g = Some g' ->
     (enemies g = [] -> level g' = level g + 1)
     /\ (enemies g <> [] -> level g' = level g))
  /\ (forall g, level (_lose_life g) = level g)
  /\ (forall inputs g g', run inputs g = Some g' -> level g <= level g').
Proof.
  split; [|split].
  - intros inp g g' Ht. destruct (tick_level _ _ _ Ht) as [[He Hl]|[He Hl]];
      split; intros H; congruence.
  - intros g. pose proof (lose_life_frame g) as H. cbv zeta in H. tauto.
  - induction inputs as [|inp rest IH]; intros g g' Hr; cbn [run] in Hr.
    + injection Hr as <-. lia.
    + destruct (running g); [|injection Hr as <-; lia].
      destruct (tick inp g) as [g1|] eqn:Ht; cbn [bind] in Hr; [|discriminate].
      pose proof (IH _ _ Hr). destruct (tick_level _ _ _ Ht) as [[_ Hl]|[_ Hl]]; lia.
Qed.

(** ** The danger line *)

Lemma spawn_grid_above_danger_line (lvl : Z) :
  Forall (fun e => Rect.bottom (Enemy.rect e) < HEIGHT - 80) (spawn_grid lvl).
Proof.
  apply Forall_forall. intros e He. apply spawn_grid_In in He.
  destruct He as (row & col & Hr & _ & ->).
  unfold spawn_enemy, Rect.bottom, ENEMY_ROWS, ENEMY_VERTICAL_PADDING,
    ENEMY_VERTICAL_SPACING, ENEMY_HEIGHT, HEIGHT in *. fields. lia.
Qed.

Lemma overlap_is_below_danger_line (p : Player.t) (e : Enemy.t) :
  player_in_place p -> 0 <= Rect.height (Enemy.rect e) ->
  Rect.colliderect (Enemy.rect e) (Player.rect p) = true ->
  HEIGHT - 80 <= Rect.bottom (Enemy.rect e).
Proof.
  intros (Hy & Hw & Hh) He Hc. unfold Rect.colliderect in Hc.
  destruct ((Rect.width (Enemy.rect e) =? 0) || (Rect.height (Enemy.rect e) =? 0)
            || (Rect.width (Player.rect p) =? 0) || (Rect.height (Player.rect p) =? 0));
    [discriminate|].
  apply andb_true_iff in Hc. destruct Hc as [_ Hc].
  rewrite Z.gtb_ltb in Hc. apply Z.ltb_lt in Hc.
  rewrite Hy, Hh in Hc. unfold Rect.bottom, HEIGHT in *. lia.
Qed.

(** X9. For a player on its row, an enemy (of non-negative height) whose
    rectangle overlaps the player's has also reached the danger line
    [HEIGHT - 80], so the two tests of the loop over the enemies amount to
    the second one. In every reachable state in which [running] holds, every
    enemy is strictly above the danger line: an enemy that reaches it costs a
    life in that very frame, and the wave is respawned or the game is over. *)
Theorem enemies_stay_above_danger_line :
  (forall p e, player_in_place p -> 0 <= Rect.height (Enemy.rect e) ->
     threatens p e = (Rect.bottom (Enemy.rect e) >=? HEIGHT - 80))
  /\ (forall g, reachable g -> running g = true ->
        Forall (fun e => Rect.bottom (Enemy.rect e) < HEIGHT - 80) (enemies g)).
Proof.
  split.
  - intros p e Hp He. unfold threatens.
    destruct (Rect.colliderect (Enemy.rect e) (Player.rect p)) eqn:Ec; [|reflexivity].
    pose proof (overlap_is_below_danger_line p e Hp He Ec) as H.
    cbn [orb]. symmetry. rewrite Z.geb_leb. apply Z.leb_le. exact H.
  - intros g Hreach. destruct Hreach as [|g g' inp Hreach Hrun Ht].
    + intros _. apply spawn_grid_above_danger_line.
    + destruct (tick_phases _ _ _ Ht) as (g2 & bs & es & sc & _ & _ & Hend).
      destruct Hend as [(Hsafe & ->)|[(_ & _ & ->)|(_ & _ & ->)]]; fields.
      * intros _. apply Forall_forall. intros e He.
        destruct (threatens (player g2) e) eqn:Et.
        -- assert (existsb (threatens (player g2)) es = true)
             by (apply existsb_exists; exists e; split; assumption).
           congruence.
        -- unfold threatens in Et. apply orb_false_iff in Et. destruct Et as [_ Et].
           rewrite Z.geb_leb in Et. apply Z.leb_gt in Et. exact Et.
      * discriminate.
      * intros _. apply spawn_grid_above_danger_line.
Qed.

(** ** Score, level and enemies *)

Lemma tick_score_accounting (inp : Input) (g g' : SpaceInvaders.t) :
  bounds g -> tick inp g = Some g' ->
  let waves (h : SpaceInvaders.t) :=
    320 * (level h - 1) + 10 * (32 - Z.of_nat (length (enemies h))) in
  (waves g <= score g -> waves g' <= score g')
  /\ (waves g = score g -> Player.lives (player g') = Player.lives (player g) ->
      waves g' = score g').
Proof.
  intros (_ & _ & _ & _ & _ & _ & Hlen) Ht. cbv zeta.
  change (Z.to_nat (ENEMY_ROWS * ENEMY_COLS)) with 32%nat in Hlen.
  destruct (tick_phases _ _ _ Ht) as (g2 & bs & es & sc & Ha & Hbve & Hend).
  pose proof (before_collisions _ _ _ Ha) as (_ & _ & S2 & _ & Hwave).
  pose proof (bullets_vs_enemies_spec (bullets g2) (enemies g2) (score g2)) as Hspec.
  rewrite Hbve in Hspec. destruct Hspec as (_ & _ & Hle & _ & Hscore).
  assert (Hbefore : 320 * (level g2 - 1) + 10 * (32 - Z.of_nat (length (enemies g2)))
                    = 320 * (level g - 1) + 10 * (32 - Z.of_nat (length (enemies g)))
                    /\ (length (enemies g2) <= 32)%nat).
  { destruct Hwave as [(He & -> & ->)|(_ & -> & ->)].
    - rewrite He. change (Z.to_nat (ENEMY_ROWS * ENEMY_COLS)) with 32%nat.
      cbn [length]. lia.
    - split; [reflexivity | exact Hlen]. }
  destruct Hbefore as [Heq Hlen2]. rewrite S2 in Hscore.
  destruct Hend as [(_ & ->)|[(_ & _ & ->)|(_ & _ & ->)]]; fields.
  - split; intros; lia.
  - split; [intros; lia|]. intros _ Hl.
    pose proof (before_collisions _ _ _ Ha) as (P2 & _).
    pose proof (handle_events_player inp g) as H0. cbv zeta in H0.
    destruct H0 as (_ & _ & _ & _ & V0 & _).
    rewrite P2 in Hl. unfold Player.update in Hl.
    destruct (Player.cooldown (player (_handle_events inp g)) >? 0); fields; lia.
  - rewrite spawn_grid_length. change (Z.to_nat (ENEMY_ROWS * ENEMY_COLS)) with 32%nat.
    split; [intros; lia|]. intros _ Hl.
    pose proof (before_collisions _ _ _ Ha) as (P2 & _).
    pose proof (handle_events_player inp g) as H0. cbv zeta in H0.
    destruct H0 as (_ & _ & _ & _ & V0 & _).
    rewrite P2 in Hl. unfold Player.update in Hl.
    destruct (Player.cooldown (player (_handle_events inp g)) >? 0); fields; lia.
Qed.

(** X10. Score, level and enemies in a reachable state. A level is left
    only when its 32 enemies have all been shot, 10 points each, so the score
    is at least 320 for every level completed plus 10 for every enemy missing
    from the current wave; and as long as no life has been lost the score is
    exactly that. (A life loss respawns the wave and keeps the score.) *)
Theorem score_counts_enemies_shot (g : SpaceInvaders.t) :
  reachable g ->
  320 * (level g - 1) + 10 * (32 - Z.of_nat (length (enemies g))) <= score g
  /\ (Player.lives (player g) = PLAYER_LIVES ->
      score g = 320 * (level g - 1) + 10 * (32 - Z.of_nat (length (enemies g)))).
Proof.
  revert g. apply reachable_ind_inv.
  - split; [vm_compute; discriminate | intros _; reflexivity].
  - intros g inp g' Hreach [Hge Heq] Hrun Ht.
    pose proof (reachable_bounds g Hreach) as Hb.
    pose proof (tick_score_accounting inp g g' Hb Ht) as H. cbv zeta in H.
    destruct H as [H1 H2]. split; [apply H1; exact Hge|].
    intros Hl.
    assert (Hreach' : reachable g') by (eapply reachable_tick; eassumption).
    pose proof (reachable_bounds g' Hreach') as (_ & _ & _ & _).
    destruct Hb as (_ & _ & Hl3 & _).
    destruct (tick_lives _ _ _ Ht) as [E|[E _]]; [|lia].
    symmetry. apply H2; [symmetry; apply Heq; lia | exact E].
Qed.

(** [score_counts_enemies_shot] at the state reached by clearing the first
    wave without losing a life: 32 enemies shot, 320 points. *)
Lemma score_counts_enemies_shot_witness :
  reachable cleared_state
  /\ Player.lives (player cleared_state) = PLAYER_LIVES
  /\ score cleared_state
     = 320 * (level cleared_state - 1)
       + 10 * (32 - Z.of_nat (length (enemies cleared_state))).
Proof.
  split; [exact cleared_state_reachable|]. split; [reflexivity|].
  exact (proj2 (score_counts_enemies_shot cleared_state cleared_state_reachable) eq_refl).
Defined.

(** ** The formation *)

Lemma spawn_grid_in_formation (lvl : Z) :
  Forall (in_formation 0 0 (ENEMY_SPEED + lvl - 1)) (spawn_grid lvl).
Proof.
  apply Forall_forall. intros e He. apply spawn_grid_In in He.
  destruct He as (row & col & Hr & Hc & ->). exists row, col.
  split; [exact Hr|]. split; [exact Hc|].
  unfold spawn_enemy. f_equal. f_equal; lia.
Qed.

(** Two enemies of one formation that stand at the same place are the same
    enemy. *)
Lemma in_formation_inj (dx dy s : Z) (a b : Enemy.t) :
  in_formation dx dy s a -> in_formation dx dy s b ->
  Rect.x (Enemy.rect a) = Rect.x (Enemy.rect b) ->
  Rect.y (Enemy.rect a) = Rect.y (Enemy.rect b) ->
  a = b.
Proof.
  intros (ra & ca & _ & _ & ->) (rb & cb & _ & _ & ->). fields. intros Hx Hy.
  unfold ENEMY_HORIZONTAL_SPACING, ENEMY_VERTICAL_SPACING in *.
  assert (ca = cb) by lia. assert (ra = rb) by lia. subst. reflexivity.
Qed.

Lemma spawn_grid_NoDup (lvl : Z) : NoDup (spawn_grid lvl).
Proof.
  apply NoDup_nth_error. intros i j Hi Hij.
  rewrite spawn_grid_length in Hi.
  change (Z.to_nat (ENEMY_ROWS * ENEMY_COLS)) with 32%nat in Hi.
  assert (Hj : (j < 32)%nat).
  { change 32%nat with (length (spawn_grid lvl)). apply nth_error_Some.
    rewrite <- Hij. apply nth_error_Some. rewrite spawn_grid_length. exact Hi. }
  assert (Hcell : forall n, (n < 32)%nat ->
            nth_error (spawn_grid lvl) n
            = Some (spawn_enemy lvl (Z.of_nat n / 8) (Z.of_nat n mod 8))).
  { intros n Hn.
    pose proof (spawn_grid_nth lvl (Z.of_nat n / 8) (Z.of_nat n mod 8)) as Hg.
    unfold ENEMY_ROWS, ENEMY_COLS in Hg.
    assert (0 <= Z.of_nat n / 8 < 4)
      by (split; [apply Z.div_pos; lia | apply Z.div_lt_upper_bound; lia]).
    assert (0 <= Z.of_nat n mod 8 < 8) by (apply Z.mod_pos_bound; lia).
    replace (Z.to_nat (Z.of_nat n / 8 * 8 + Z.of_nat n mod 8)) with n in Hg
      by (pose proof (Z.div_mod (Z.of_nat n) 8); lia).
    apply Hg; assumption. }
  rewrite (Hcell i Hi), (Hcell j Hj) in Hij. unfold spawn_enemy in Hij.
  assert (Hx := f_equal (fun o => match o with
                                  | Some e => Rect.x (Enemy.rect e)
                                  | None => 0
                                  end) Hij).
  assert (Hy := f_equal (fun o => match o with
                                  | Some e => Rect.y (Enemy.rect e)
                                  | None => 0
                                  end) Hij).
  cbv beta iota in Hx, Hy. fields.
  unfold ENEMY_HORIZONTAL_SPACING, ENEMY_VERTICAL_SPACING in *.
  pose proof (Z.div_mod (Z.of_nat i) 8). pose proof (Z.div_mod (Z.of_nat j) 8). lia.
Qed.

Lemma list_remove_In (e x : Enemy.t) (l : list Enemy.t) :
  In x (list_remove e l) -> In x l.
Proof.
  induction l as [|a l IH]; cbn [list_remove]; [tauto|].
  destruct (Enemy.eqb a e); cbn [In]; tauto.
Qed.

Lemma list_remove_NoDup (e : Enemy.t) (l : list Enemy.t) :
  NoDup l -> NoDup (list_remove e l).
Proof.
  induction 1 as [|a l Ha Hl IH]; cbn [list_remove]; [constructor|].
  destruct (Enemy.eqb a e); [exact Hl|].
  constructor; [|exact IH]. intros Hin. apply Ha. eapply list_remove_In. exact Hin.
Qed.

Lemma bullets_vs_enemies_NoDup (bs : list Bullet.t) :
  forall es sc, NoDup es -> NoDup (snd (fst (bullets_vs_enemies bs es sc))).
Proof.
  induction bs as [|b bs IH]; intros es sc Hnd; cbn [bullets_vs_enemies].
  - exact Hnd.
  - destruct (first_hit b es) as [e|].
    + specialize (IH (list_remove e es) (sc + 10) (list_remove_NoDup e es Hnd)).
      destruct (bullets_vs_enemies bs (list_remove e es) (sc + 10)) as [[bs' es'] sc'].
      exact IH.
    + specialize (IH es sc Hnd).
      destruct (bullets_vs_enemies bs es sc) as [[bs' es'] sc']. exact IH.
Qed.

Lemma Forall2_In_r {A B : Type} (R : A -> B -> Prop) (l : list A) (l' : list B) (b : B) :
  Forall2 R l l' -> In b l' -> exists a, In a l /\ R a b.
Proof.
  induction 1 as [|x y l l' Hxy _ IH]; cbn [In]; [tauto|].
  intros [<-|Hin]; [exists x; tauto|].
  destruct (IH Hin) as (a & Ha & Hr). exists a; tauto.
Qed.

Lemma Forall2_NoDup {A B : Type} (R : A -> B -> Prop) (l : list A) (l' : list B) :
  Forall2 R l l' ->
  (forall a b a' , In a l -> In b l -> R a a' -> R b a' -> a = b) ->
  NoDup l -> NoDup l'.
Proof.
  induction 1 as [|x y l l' Hxy H2 IH]; intros Hinj Hnd; [constructor|].
  inversion Hnd as [|x0 l0 Hx Hl]; subst. constructor.
  - intros Hin. destruct (Forall2_In_r _ _ _ _ H2 Hin) as (a & Ha & Hr).
    assert (x = a) by (apply (Hinj x a y); cbn [In]; tauto). subst. contradiction.
  - apply IH; [|exact Hl]. intros a b a' Ha Hb. apply Hinj; cbn [In]; tauto.
Qed.

(** The advance moves a formation as one block. *)
Lemma advance_formation (g g' : SpaceInvaders.t) (dx dy s : Z) :
  advance g = Some g' -> 1 <= s ->
  Forall (in_formation dx dy s) (enemies g) -> NoDup (enemies g) ->
  (exists dx' dy' s', 1 <= s' /\ Forall (in_formation dx' dy' s') (enemies g'))
  /\ NoDup (enemies g').
Proof.
  intros Ha Hs Hf Hnd.
  pose proof (advance_spec _ _ Ha) as (_ & _ & _ & _ & _ & _ & H2).
  split.
  - destruct (fst (turn g)) eqn:Et.
    + destruct (drop_speed s) as [s'|] eqn:Ed.
      * exists (dx + s * snd (turn g)), (dy + ENEMY_VERTICAL_STEP), s'.
        split.
        { destruct (drop_speed_pos s Hs) as [[Hn _]|(s'' & E & Hlt)]; [congruence|].
          rewrite Ed in E. injection E as <-. lia. }
        clear Hnd. induction H2 as [|e e' es es' [Hrect Hsp] _ IH]; [constructor|].
        inversion Hf as [|e0 es0 He Hes]; subst. constructor; [|apply IH; assumption].
        destruct He as (row & col & Hr & Hc & ->). fields.
        exists row, col. split; [exact Hr|]. split; [exact Hc|].
        rewrite Ed in Hsp. injection Hsp as Hsp.
        destruct e' as [r' sp']. fields. subst. f_equal. f_equal; lia.
      * exists 0, 0, 1. split; [lia|].
        destruct H2 as [|e e' es es' [_ Hsp] _]; [constructor|].
        inversion Hf as [|e0 es0 He Hes]; subst.
        destruct He as (row & col & _ & _ & ->). fields. congruence.
    + exists (dx + s * snd (turn g)), dy, s. split; [exact Hs|].
      clear Hnd. induction H2 as [|e e' es es' [Hrect Hsp] _ IH]; [constructor|].
      inversion Hf as [|e0 es0 He Hes]; subst. constructor; [|apply IH; assumption].
      destruct He as (row & col & Hr & Hc & ->). fields.
      exists row, col. split; [exact Hr|]. split; [exact Hc|].
      destruct e' as [r' sp']. fields. subst. f_equal. f_equal; lia.
  - eapply Forall2_NoDup; [exact H2| |exact Hnd].
    intros a b a' Hina Hinb [Ra _] [Rb _].
    rewrite Forall_forall in Hf.
    apply (in_formation_inj dx dy s); [apply Hf; exact Hina | apply Hf; exact Hinb | |].
    + assert (E : Rect.x (Enemy.rect a') = Rect.x (Enemy.rect a') ) by reflexivity.
      rewrite Ra in E at 1. rewrite Rb in E. fields.
      destruct (Hf a Hina) as (? & ? & _ & _ & ->).
      destruct (Hf b Hinb) as (? & ? & _ & _ & ->). fields. lia.
    + assert (E : Rect.y (Enemy.rect a') = Rect.y (Enemy.rect a') ) by reflexivity.
      rewrite Ra in E at 1. rewrite Rb in E. fields.
      destruct (fst (turn g)); lia.
Qed.

(** X11. In every reachable state the enemies left form one rigid block of
    the spawn grid: there are a displacement [(dx, dy)] and a speed [s >= 1]
    such that every enemy is the 40 x 30 rectangle of some cell
    [(row, col)] of the grid moved by [(dx, dy)], with speed [s]. So all
    enemies have the same speed and size and keep their spacings, and no two
    enemies of the list are equal: the [remove] of the collision loop can only
    take out the enemy that was hit. *)
Theorem enemies_move_as_one_formation (g : SpaceInvaders.t) :
  reachable g ->
  (exists dx dy s,
      1 <= s /\ Forall (in_formation dx dy s) (enemies g))
  /\ NoDup (enemies g).
Proof.
  revert g. apply reachable_ind_inv.
  - split; [|apply spawn_grid_NoDup].
    exists 0, 0, (ENEMY_SPEED + 1 - 1). split; [vm_compute; discriminate|].
    apply (spawn_grid_in_formation 1).
  - intros g inp g' Hreach [(dx & dy & s & Hs & Hf) Hnd] _ Ht.
    pose proof (reachable_invariant g Hreach) as (_ & _ & _ & _ & Hlv & _).
    destruct (tick_phases _ _ _ Ht) as (g2 & bs & es & sc & Ha & Hbve & Hend).
    pose proof (handle_events_shape inp g) as H0. cbv zeta in H0.
    destruct H0 as (E0 & _ & L0 & _).
    pose proof (update_entities_frame (_handle_events inp g)) as H1. cbv zeta in H1.
    destruct H1 as (E1 & _ & L1 & _).
    pose proof (next_wave_frame (update_entities (_handle_events inp g))) as H2.
    cbv zeta in H2. destruct H2 as (_ & _ & _ & _ & W2).
    set (g1 := next_wave_if_cleared (update_entities (_handle_events inp g))) in *.
    assert (H1' : (exists dx1 dy1 s1, 1 <= s1 /\ Forall (in_formation dx1 dy1 s1) (enemies g1))
                  /\ NoDup (enemies g1) /\ 1 <= level g1).
    { destruct W2 as [(_ & Hl & He & _)|(_ & Hg)].
      - rewrite He, Hl, L1, L0. split; [|split; [apply spawn_grid_NoDup | lia]].
        exists 0, 0, (ENEMY_SPEED + (level g + 1) - 1).
        split; [unfold ENEMY_SPEED; lia | apply spawn_grid_in_formation].
      - rewrite Hg, E1, E0, L1, L0. split; [|split; assumption].
        exists dx, dy, s. split; assumption. }
    destruct H1' as ((dx1 & dy1 & s1 & Hs1 & Hf1) & Hnd1 & Hlv1).
    destruct (advance_formation g1 g2 dx1 dy1 s1 Ha Hs1 Hf1 Hnd1)
      as ((dx2 & dy2 & s2 & Hs2 & Hf2) & Hnd2).
    pose proof (advance_spec _ _ Ha) as (_ & _ & L3 & _).
    pose proof (bullets_vs_enemies_spec (bullets g2) (enemies g2) (score g2)) as Hspec.
    pose proof (bullets_vs_enemies_NoDup (bullets g2) (enemies g2) (score g2) Hnd2) as Hnd3.
    rewrite Hbve in Hspec, Hnd3. cbn [fst snd] in Hnd3.
    destruct Hspec as (_ & Hincl & _).
    assert (Hf3 : Forall (in_formation dx2 dy2 s2) es).
    { apply Forall_forall. intros e He. rewrite Forall_forall in Hf2.
      apply Hf2, Hincl, He. }
    destruct Hend as [(_ & ->)|[(_ & _ & ->)|(_ & _ & ->)]]; fields.
    + split; [exists dx2, dy2, s2; split; assumption | exact Hnd3].
    + split; [exists dx2, dy2, s2; split; assumption | exact Hnd3].
    + split; [|apply spawn_grid_NoDup].
      exists 0, 0, (ENEMY_SPEED + level g2 - 1).
      split; [unfold ENEMY_SPEED; lia | apply spawn_grid_in_formation].
Qed.

(** [enemies_move_as_one_formation] at the state 160 frames into the game. *)
Lemma enemies_move_as_one_formation_witness :
  reachable edge_state /\ NoDup (enemies edge_state).
Proof.
  split; [exact edge_state_reachable|].
  exact (proj2 (enemies_move_as_one_formation edge_state edge_state_reachable)).
Defined.

(** ** The bullets in flight *)

Lemma filter_map_update_Forall (P Q : Bullet.t -> Prop) (l : list Bullet.t) :
  Forall P l ->
  (forall b, P b -> Bullet.active (Bullet.update b) = true -> Q (Bullet.update b)) ->
  Forall Q (filter Bullet.active (map Bullet.update l)).
Proof.
  intros Hl HPQ. induction Hl as [|b l Hb _ IH]; cbn [map filter]; [constructor|].
  destruct (Bullet.active (Bullet.update b)) eqn:Ea; [constructor; auto | exact IH].
Qed.

Lemma spaced_update (l : list Bullet.t) :
  spaced l -> Forall (fun b => Bullet.speed b = BULLET_SPEED) l ->
  spaced (filter Bullet.active (map Bullet.update l)).
Proof.
  unfold spaced. induction 1 as [|a l Ha Hl IH]; intros Hs; cbn [map filter];
    [constructor|].
  inversion Hs as [|a0 l0 Hsa Hsl]; subst.
  destruct (Bullet.active (Bullet.update a)); [|apply IH; exact Hsl].
  constructor; [|apply IH; exact Hsl].
  apply filter_map_update_Forall
    with (P := fun b => Rect.y (Bullet.rect a) + 120 <= Rect.y (Bullet.rect b)
                        /\ Bullet.speed b = BULLET_SPEED).
  - rewrite Forall_forall in *. intros b Hb. split; [apply Ha | apply Hsl]; exact Hb.
  - intros b [Hy Hsb] _. unfold Bullet.update. fields. rewrite Hsa, Hsb. lia.
Qed.

Lemma spaced_snoc (l : list Bullet.t) (nb : Bullet.t) :
  spaced l ->
  Forall (fun b => Rect.y (Bullet.rect b) + 120 <= Rect.y (Bullet.rect nb)) l ->
  spaced (l ++ [nb]).
Proof.
  unfold spaced. induction 1 as [|a l Ha Hl IH]; intros Hn; cbn [app].
  - constructor; constructor.
  - inversion Hn as [|a0 l0 Hna Hnl]; subst. constructor; [|apply IH; exact Hnl].
    apply Forall_app. split; [exact Ha | constructor; [exact Hna | constructor]].
Qed.

Lemma spaced_same_rects (l l' : list Bullet.t) :
  Forall2 (fun b b' => b' = b \/ b' = Bullet.deactivate b) l l' ->
  (spaced l -> spaced l')
  /\ forall P : Rect.t -> Z -> Prop,
       Forall (fun b => P (Bullet.rect b) (Bullet.speed b)) l ->
       Forall (fun b => P (Bullet.rect b) (Bullet.speed b)) l'.
Proof.
  intros H2.
  assert (Hsame : Forall2 (fun b b' => Bullet.rect b' = Bullet.rect b
                                       /\ Bullet.speed b' = Bullet.speed b) l l').
  { eapply Forall2_impl; [|exact H2]. intros b b' [->| ->]; split; reflexivity. }
  clear H2. split.
  - unfold spaced. intros Hsp. revert l' Hsame.
    induction Hsp as [|a l Ha Hl IH]; intros l' H2; inversion H2 as [|? a' ? l1 [Ra _] H2']; subst;
      [constructor|].
    constructor; [|apply IH; exact H2'].
    clear - Ha H2' Ra. induction H2' as [|b b' l l1 [Rb _] _ IH]; [constructor|].
    inversion Ha; subst. constructor; [rewrite Ra, Rb; assumption | apply IH; assumption].
  - intros P HP. induction Hsame as [|b b' l l1 [Rb Sb] _ IH]; [constructor|].
    inversion HP; subst. constructor; [rewrite Rb, Sb; assumption | apply IH; assumption].
Qed.

(** Bullets at least 120 apart between two heights are few. *)
Lemma spaced_length (l : list Bullet.t) :
  spaced l -> forall lo hi,
  Forall (fun b => lo <= Rect.y (Bullet.rect b) <= hi) l ->
  l <> [] -> lo + 120 * (Z.of_nat (length l) - 1) <= hi.
Proof.
  unfold spaced. induction 1 as [|a l Ha Hl IH]; intros lo hi Hb Hne; [congruence|].
  inversion Hb as [|a0 l0 Hba Hbl]; subst.
  destruct l as [|b l]; [cbn [length]; lia|].
  specialize (IH (Rect.y (Bullet.rect a) + 120) hi).
  assert (Hl' : Forall (fun b0 => Rect.y (Bullet.rect a) + 120
                                  <= Rect.y (Bullet.rect b0) <= hi) (b :: l)).
  { rewrite Forall_forall in *. intros x Hx. split; [apply Ha, Hx | apply Hbl, Hx]. }
  specialize (IH Hl' ltac:(discriminate)). cbn [length] in *. lia.
Qed.

Lemma tick_bullets_ok (inp : Input) (g g' : SpaceInvaders.t) :
  invariant g -> bounds g -> bullets_ok g -> tick inp g = Some g' -> bullets_ok g'.
Proof.
  intros ((Hy & Hw & Hh) & _ & _ & Hc0 & _) (Hx0 & Hx1 & _) (Hok & Hsp & Hgrace) Ht.
  destruct (tick_phases _ _ _ Ht) as (g2 & bs & es & sc & Ha & Hbve & Hend).
  pose proof (before_collisions _ _ _ Ha) as (P2 & B2 & _).
  pose proof (handle_events_shape inp g) as H0. cbv zeta in H0.
  destruct H0 as (_ & _ & _ & _ & _ & Hshot).
  set (g0 := _handle_events inp g) in *.
  set (p1 := if direction_of inp =? 0 then player g
             else Player.move (direction_of inp) (player g)) in *.
  assert (Hp1 : 0 <= Rect.x (Player.rect p1) <= WIDTH - 50
                /\ Rect.width (Player.rect p1) = 50
                /\ Rect.y (Player.rect p1) = HEIGHT - 60
                /\ Player.cooldown p1 = Player.cooldown (player g)).
  { subst p1. unfold Rect.left, Rect.right in *.
    destruct (direction_of inp =? 0); [repeat split; try assumption; lia|].
    unfold Player.move. fields. rewrite Hw, Hy. unfold WIDTH. repeat split; lia. }
  destruct Hp1 as (Hx & Hw1 & Hy1 & Hc1).
  (* the bullets and the cooldown after the events *)
  assert (H0 : Forall (bullet_ok (Z.max 0 (Player.cooldown (player g0) - 1)
                                  + 1)) (bullets g0)
               /\ spaced (bullets g0)
               /\ Forall (fun b => Bullet.speed b = BULLET_SPEED) (bullets g0)
               /\ (FPS / 4 <= Z.max 0 (Player.cooldown (player g0) - 1) ->
                   bullets g0 = [])
               /\ 0 <= Player.cooldown (player g0)).
  { assert (Hspeed : Forall (fun b => Bullet.speed b = BULLET_SPEED) (bullets g))
      by (eapply Forall_impl; [|exact Hok]; unfold bullet_ok; tauto).
    destruct Hshot as [(Hp & Hb & _)|(_ & Hc & Hp & Hb)].
    - rewrite Hp, Hb, Hc1. split; [|split; [exact Hsp|split; [exact Hspeed|split]]].
      + eapply Forall_impl; [|exact Hok]. unfold bullet_ok. intros b Hb0.
        repeat split; try tauto. lia.
      + intros Hge. apply Hgrace. lia.
      + exact Hc0.
    - rewrite Hp, Hb. fields. rewrite Hc1 in Hc.
      change (FPS / 4) with 15. change (Z.max 0 (15 - 1) + 1) with 15.
      split; [|split; [|split; [|split]]].
      + apply Forall_app. split.
        * eapply Forall_impl; [|exact Hok]. unfold bullet_ok. intros b Hb0.
          rewrite Hc in Hb0. repeat split; try tauto. lia.
        * constructor; [|constructor].
          unfold bullet_ok, Rect.left, Rect.right, Rect.bottom, Rect.centerx, Rect.top.
          fields. rewrite Hw1, Hy1. change (50 / 2) with 25.
          unfold WIDTH, HEIGHT in *. repeat split; lia.
      + apply spaced_snoc; [exact Hsp|].
        eapply Forall_impl; [|exact Hok]. unfold bullet_ok, Rect.top. intros b Hb0.
        fields. rewrite Hc, Hy1 in *. unfold HEIGHT. lia.
      + apply Forall_app. split; [exact Hspeed | constructor; [reflexivity | constructor]].
      + change (Z.max 0 (15 - 1)) with 14. lia.
      + lia. }
  destruct H0 as (Hok0 & Hsp0 & Hspeed0 & Hgrace0 & Hc00).
  (* after the cooldown's decay and the bullets' moves *)
  assert (Hcool2 : Player.cooldown (player g2) = Z.max 0 (Player.cooldown (player g0) - 1)).
  { rewrite P2. unfold Player.update.
    destruct (Z.gtb_spec (Player.cooldown (player g0)) 0); fields; lia. }
  assert (H2 : Forall (bullet_ok (Player.cooldown (player g2))) (bullets g2)
               /\ spaced (bullets g2)
               /\ (FPS / 4 <= Player.cooldown (player g2) -> bullets g2 = [])).
  { rewrite B2, Hcool2. unfold update_entities. fields.
    split; [|split; [apply spaced_update; assumption|]].
    - eapply filter_map_update_Forall; [exact Hok0|].
      intros b Hb Hact. apply bullet_update_active in Hact. destruct Hact as [_ Hbot].
      unfold bullet_ok in *. unfold Bullet.update, Rect.left, Rect.right, Rect.bottom in *.
      fields. destruct Hb as (Hbw & Hbh & Hbs & Hl & Hr & _ & Hby).
      rewrite Hbs in *. unfold BULLET_SPEED in *. repeat split; try assumption; lia.
    - intros Hge. rewrite (Hgrace0 Hge). reflexivity. }
  destruct H2 as (Hok2 & Hsp2 & Hgrace2).
  (* the collisions keep the bullets where they are *)
  pose proof (bullets_vs_enemies_spec (bullets g2) (enemies g2) (score g2)) as Hspec.
  rewrite Hbve in Hspec. destruct Hspec as (Hsame & _).
  destruct (spaced_same_rects _ _ Hsame) as [Hsp3 Hrect3].
  assert (Hok3 : Forall (bullet_ok (Player.cooldown (player g2))) bs)
    by (apply (Hrect3 (fun r s =>
                 Rect.width r = 6 /\ Rect.height r = 12 /\ s = BULLET_SPEED
                 /\ 0 <= Rect.left r /\ Rect.right r <= WIDTH /\ 0 <= Rect.bottom r
                 /\ Rect.y r <= 410 + 8 * Player.cooldown (player g2))); exact Hok2).
  assert (Hgrace3 : FPS / 4 <= Player.cooldown (player g2) -> bs = []).
  { intros Hge. rewrite (Hgrace2 Hge) in Hsame. inversion Hsame. reflexivity. }
  unfold bullets_ok.
  destruct Hend as [(_ & ->)|[(_ & _ & ->)|(_ & _ & ->)]]; fields.
  - split; [exact Hok3|]. split; [apply Hsp3; exact Hsp2 | exact Hgrace3].
  - split; [exact Hok3|]. split; [apply Hsp3; exact Hsp2 | exact Hgrace3].
  - split; [constructor|]. split; [constructor | reflexivity].
Qed.

Lemma reachable_bullets_ok (g : SpaceInvaders.t) : reachable g -> bullets_ok g.
Proof.
  apply reachable_ind_inv.
  - split; [constructor|]. split; [constructor | reflexivity].
  - intros g0 inp g' Hreach Hb _ Ht.
    eapply tick_bullets_ok;
      [apply reachable_invariant | apply reachable_bounds | |]; eassumption.
Qed.

(** X12. In every reachable state there are at most five bullets in the
    bullet list. They are in the order they were shot, any two at least 120
    pixels apart vertically (15 frames of cooldown at 8 pixels a frame); each
    is a 6 x 12 rectangle with speed [BULLET_SPEED], within the playfield's
    width, with its bottom edge not above the top of the playfield and its
    top edge at or above y = 522. *)
Theorem at_most_five_bullets (g : SpaceInvaders.t) :
  reachable g ->
  (length (bullets g) <= 5)%nat
  /\ spaced (bullets g)
  /\ Forall (fun b =>
               Rect.width (Bullet.rect b) = 6 /\ Rect.height (Bullet.rect b) = 12
               /\ Bullet.speed b = BULLET_SPEED
               /\ 0 <= Rect.left (Bullet.rect b) /\ Rect.right (Bullet.rect b) <= WIDTH
               /\ 0 <= Rect.bottom (Bullet.rect b)
               /\ Rect.top (Bullet.rect b) <= 522)
            (bullets g).
Proof.
  intros Hreach. destruct (reachable_bullets_ok g Hreach) as (Hok & Hsp & Hgrace).
  assert (Hgeom : Forall (fun b =>
               Rect.width (Bullet.rect b) = 6 /\ Rect.height (Bullet.rect b) = 12
               /\ Bullet.speed b = BULLET_SPEED
               /\ 0 <= Rect.left (Bullet.rect b) /\ Rect.right (Bullet.rect b) <= WIDTH
               /\ 0 <= Rect.bottom (Bullet.rect b)
               /\ Rect.top (Bullet.rect b) <= 522)
            (bullets g)).
  { destruct (bullets g) as [|b bs] eqn:Eb; [constructor|]. rewrite <- Eb in *.
    assert (Hc : Player.cooldown (player g) < FPS / 4).
    { destruct (Z_lt_le_dec (Player.cooldown (player g)) (FPS / 4)) as [H|H]; [exact H|].
      rewrite (Hgrace H) in Eb. discriminate. }
    change (FPS / 4) with 15 in Hc.
    eapply Forall_impl; [|exact Hok]. unfold bullet_ok, Rect.top. intros b0 Hb0.
    repeat split; try tauto. lia. }
  split; [|split; [exact Hsp | exact Hgeom]].
  destruct (bullets g) as [|b bs] eqn:Eb; [cbn [length]; lia|]. rewrite <- Eb in *.
  pose proof (spaced_length _ Hsp (-12) 522) as Hlen.
  assert (Hrange : Forall (fun b0 => -12 <= Rect.y (Bullet.rect b0) <= 522) (bullets g)).
  { eapply Forall_impl; [|exact Hgeom]. unfold Rect.bottom, Rect.top. intros b0 Hb0.
    destruct Hb0 as (_ & Hh & _ & _ & _ & Hbot & Htop). lia. }
  specialize (Hlen Hrange ltac:(rewrite Eb; discriminate)). lia.
Qed.

Lemma five_bullets_state_run :
  run (repeat go_left 75 ++ repeat fire 66) __init__ = Some five_bullets_state.
Proof. vm_compute. reflexivity. Qed.

Lemma five_bullets_state_reachable : reachable five_bullets_state.
Proof. exact (run_reachable _ _ _ reachable_init five_bullets_state_run). Qed.

(** [at_most_five_bullets] at a state of play in which the bound is
    attained. *)
Lemma at_most_five_bullets_witness :
  reachable five_bullets_state
  /\ length (bullets five_bullets_state) = 5%nat
  /\ (length (bullets five_bullets_state) <= 5)%nat.
Proof.
  split; [exact five_bullets_state_reachable|]. split; [reflexivity|].
  exact (proj1 (at_most_five_bullets five_bullets_state five_bullets_state_reachable)).
Defined.

(** ** How the game ends *)

(** X13. A frame from a reachable state in which [running] holds leaves
    [running] false exactly when the frame's events ask to quit or the frame
    takes the last life; nothing else stops the loop of [run]. *)
Theorem game_ends_by_quit_or_last_life (inp : Input) (g g' : SpaceInvaders.t) :
  reachable g -> running g = true -> tick inp g = Some g' ->
  (running g' = false
   <-> existsb quits (events inp) = true \/ Player.lives (player g') = 0).
Proof.
  intros Hreach Hrun Ht.
  pose proof (reachable_invariant g Hreach) as (_ & _ & Hl1 & _).
  specialize (Hl1 Hrun).
  destruct (tick_phases _ _ _ Ht) as (g2 & bs & es & sc & Ha & _ & Hend).
  pose proof (before_collisions _ _ _ Ha) as (P2 & _ & _ & R2 & _).
  pose proof (handle_events_shape inp g) as H0. cbv zeta in H0.
  destruct H0 as (_ & _ & _ & _ & R0 & _).
  pose proof (handle_events_player inp g) as H0'. cbv zeta in H0'.
  destruct H0' as (_ & _ & _ & _ & V0 & _).
  assert (Hl2 : Player.lives (player g2) = Player.lives (player g)).
  { rewrite P2. unfold Player.update.
    destruct (Player.cooldown (player (_handle_events inp g)) >? 0); fields; exact V0. }
  assert (Hr2 : running g2 = negb (existsb quits (events inp)))
    by (rewrite R2, R0, Hrun; reflexivity).
  destruct Hend as [(_ & ->)|[(_ & Hle & ->)|(_ & Hgt & ->)]]; fields;
    rewrite ?Hr2, ?Hl2 in *.
  - destruct (existsb quits (events inp)); cbn [negb];
      (split; [intros H; first [discriminate | left; reflexivity]
              | intros [H|H]; first [reflexivity | discriminate | lia]]).
  - split; [intros _; right; lia | reflexivity].
  - destruct (existsb quits (events inp)); cbn [negb];
      (split; [intros H; first [discriminate | left; reflexivity]
              | intros [H|H]; first [reflexivity | discriminate | lia]]).
Qed.

(** [game_ends_by_quit_or_last_life] for a first frame without input: the
    game goes on. *)
Lemma game_ends_by_quit_or_last_life_witness :
  reachable __init__ /\ running __init__ = true
  /\ exists g', tick idle __init__ = Some g'
                /\ (running g' = false
                    <-> existsb quits (events idle) = true
                        \/ Player.lives (player g') = 0).
Proof.
  split; [exact reachable_init|]. split; [reflexivity|].
  destruct (tick idle __init__) as [g'|] eqn:Ht; [|vm_compute in Ht; discriminate].
  exists g'. split; [reflexivity|].
  exact (game_ends_by_quit_or_last_life idle __init__ g' reachable_init eq_refl Ht).
Defined.

(** ** When the formation drops *)

Lemma fold_min_le (vs : list Z) (v : Z) :
  fold_left Z.min vs v <= v /\ Forall (fun w => fold_left Z.min vs v <= w) vs.
Proof.
  revert v. induction vs as [|w vs IH]; intros v; cbn [fold_left];
    [split; [lia | constructor]|].
  destruct (IH (Z.min v w)) as [H1 H2]. split; [lia|].
  constructor; [lia | exact H2].
Qed.

Lemma fold_max_ge (vs : list Z) (v : Z) :
  v <= fold_left Z.max vs v /\ Forall (fun w => w <= fold_left Z.max vs v) vs.
Proof.
  revert v. induction vs as [|w vs IH]; intros v; cbn [fold_left];
    [split; [lia | constructor]|].
  destruct (IH (Z.max v w)) as [H1 H2]. split; [lia|].
  constructor; [lia | exact H2].
Qed.

(** With enemies in the list, [leftmost] is the least left edge and
    [rightmost] the greatest right edge. *)
Lemma leftmost_rightmost_extreme (g : SpaceInvaders.t) :
  enemies g <> [] ->
  (exists e, In e (enemies g) /\ leftmost g = Rect.left (Enemy.rect e))
  /\ (forall e, In e (enemies g) -> leftmost g <= Rect.left (Enemy.rect e))
  /\ (exists e, In e (enemies g) /\ rightmost g = Rect.right (Enemy.rect e))
  /\ (forall e, In e (enemies g) -> Rect.right (Enemy.rect e) <= rightmost g).
Proof.
  intros Hne. unfold leftmost, rightmost.
  destruct (enemies g) as [|e0 es]; [congruence|]. cbn [map py_min py_max].
  destruct (fold_min_le (map (fun e => Rect.left (Enemy.rect e)) es)
                        (Rect.left (Enemy.rect e0))) as [Hl0 Hl].
  destruct (fold_max_ge (map (fun e => Rect.right (Enemy.rect e)) es)
                        (Rect.right (Enemy.rect e0))) as [Hr0 Hr].
  rewrite Forall_map, Forall_forall in Hl, Hr.
  split; [|split; [|split]].
  - destruct (fold_min_In (map (fun e => Rect.left (Enemy.rect e)) es)
                          (Rect.left (Enemy.rect e0))) as [E|Hin].
    + exists e0. split; [left; reflexivity | exact E].
    + apply in_map_iff in Hin. destruct Hin as (e & He & Hin).
      exists e. split; [right; exact Hin | symmetry; exact He].
  - intros e [<-|Hin]; [exact Hl0 | apply Hl; exact Hin].
  - destruct (fold_max_In (map (fun e => Rect.right (Enemy.rect e)) es)
                          (Rect.right (Enemy.rect e0))) as [E|Hin].
    + exists e0. split; [left; reflexivity | exact E].
    + apply in_map_iff in Hin. destruct Hin as (e & He & Hin).
      exists e. split; [right; exact Hin | symmetry; exact He].
  - intros e [<-|Hin]; [exact Hr0 | apply Hr; exact Hin].
Qed.

(** X14. With at least one enemy in the list, the formation drops in a
    frame exactly when it heads left and some enemy's left edge is at or
    below 10, or it heads right and some enemy's right edge is at or beyond
    [WIDTH - 10]; the direction after the test is then +1, respectively -1,
    and otherwise the direction is unchanged. A formation with direction 0
    never drops. *)
Theorem drop_when_an_enemy_is_at_the_margin (g : SpaceInvaders.t) :
  enemies g <> [] ->
  (fst (turn g) = true
   <-> (enemy_direction g < 0
        /\ exists e, In e (enemies g) /\ Rect.left (Enemy.rect e) <= 10)
       \/ (enemy_direction g > 0
           /\ exists e, In e (enemies g) /\ WIDTH - 10 <= Rect.right (Enemy.rect e)))
  /\ (fst (turn g) = true -> enemy_direction g < 0 -> snd (turn g) = 1)
  /\ (fst (turn g) = true -> enemy_direction g > 0 -> snd (turn g) = -1)
  /\ (fst (turn g) = false -> snd (turn g) = enemy_direction g)
  /\ (enemy_direction g = 0 -> fst (turn g) = false).
Proof.
  intros Hne.
  destruct (leftmost_rightmost_extreme g Hne) as ((el & Hel & Hl) & Hlmin & (er & Her & Hr) & Hrmax).
  destruct (turn_cases g) as [(E & Hlm & Hd)|[(E & Hrm & Hd)|(E & Hn1 & Hn2)]];
    rewrite E; cbn [fst snd].
  - split; [|repeat split; intros; try lia; try discriminate].
    split; [intros _|reflexivity]. left. split; [exact Hd|].
    exists el. split; [exact Hel | lia].
  - split; [|repeat split; intros; try lia; try discriminate].
    split; [intros _|reflexivity]. right. split; [exact Hd|].
    exists er. split; [exact Her | lia].
  - split; [|repeat split; intros; try lia; try discriminate].
    split; [discriminate|].
    intros [[Hd (e & He & Hle)]|[Hd (e & He & Hge)]]; exfalso.
    + apply Hn1. split; [|exact Hd]. specialize (Hlmin e He). lia.
    + apply Hn2. split; [|exact Hd]. specialize (Hrmax e He). lia.
Qed.

(** [drop_when_an_enemy_is_at_the_margin] at [edge_state], where the
    rightmost column touches the right margin. *)
Lemma drop_when_an_enemy_is_at_the_margin_witness :
  enemies edge_state <> [] /\ fst (turn edge_state) = true
  /\ snd (turn edge_state) = -1.
Proof.
  assert (Hne : enemies edge_state <> []) by (vm_compute; discriminate).
  split; [exact Hne|]. split; [reflexivity|].
  exact (proj1 (proj2 (proj2 (drop_when_an_enemy_is_at_the_margin edge_state Hne)))
               eq_refl eq_refl).
Defined.

